(** * Graph view engine of the network-graph component

    A shallow embedding of the pure parts of the React/D3 network graph:
    the BFS level resolver ([computeTreeLevels]), the radial layouts
    ([computeRadialLayout], [computeRadialLayoutAdvanced],
    [computeRadialLayoutAdaptive]), the grid clustering
    ([computeGridClusters], [computeAggregatedEdges]), the expansion-path
    state machine ([visibleNodes], [visibleEdges], [onExpandClick]) and the
    viewport fit ([computeGraphBounds], [zoomToFit]).

    Conventions of the embedding:
    - a JavaScript [number] is a binary64 float ([PrimFloat.float]); counts
      and array indices, which the code only ever uses as small naturals,
      are [nat];
    - a JavaScript [Map<string, V>] is an association list in insertion
      order ([JsMap.t V]); a [Set<string>] is a list without repetition;
    - functions of the JavaScript runtime that binary64 arithmetic does not
      determine ([Math.cos], [Math.sin], [Math.atan2],
      [String.prototype.localeCompare], the number-to-string conversion of
      template literals) are variables of the section that uses them. *)

From Stdlib Require Import List String Ascii Bool Arith ZArith Lia Floats Permutation.
From Stdlib Require Import Sorted.
From Stdlib Require DecimalString DecimalNat.
Import ListNotations.

Set Implicit Arguments.

(* ================================================================== *)
(** * Part I: the model *)

(* ------------------------------------------------------------------ *)
(** ** JavaScript [Set<string>] and [Map<string, V>] *)

Module JsSet.

Definition t := list string.

Definition has (s : t) (k : string) : bool := existsb (String.eqb k) s.

(** [s.add(k)]: a key already present keeps its place. *)
Definition add (s : t) (k : string) : t := if has s k then s else s ++ [k].

End JsSet.

Module JsMap.

Definition t (V : Type) := list (string * V).

Section Ops.
Variable V : Type.

Fixpoint get (m : t V) (k : string) : option V :=
  match m with
  | [] => None
  | (k', v) :: rest => if String.eqb k' k then Some v else get rest k
  end.

Definition has (m : t V) (k : string) : bool :=
  match get m k with Some _ => true | None => false end.

(** [m.set(k, v)]: an existing key keeps its place in the iteration order,
    a new key goes last. *)
Fixpoint set (m : t V) (k : string) (v : V) : t V :=
  match m with
  | [] => [(k, v)]
  | (k', v') :: rest =>
      if String.eqb k' k then (k, v) :: rest else (k', v') :: set rest k v
  end.

Definition keys (m : t V) : list string := map fst m.
Definition values (m : t V) : list V := map snd m.
Definition size (m : t V) : nat := List.length m.

End Ops.

End JsMap.

(* ------------------------------------------------------------------ *)
(** ** Arrays *)

(** [l] with its indices, as a [for (let i = 0; i < l.length; i++)] loop
    reads it. *)
Definition indexed (A : Type) (l : list A) : list (nat * A) :=
  combine (seq 0 (List.length l)) l.

(** [l.indexOf(k)]; [None] stands for -1. *)
Fixpoint indexOf (l : list string) (k : string) : option nat :=
  match l with
  | [] => None
  | a :: rest =>
      if String.eqb a k then Some 0
      else match indexOf rest k with Some i => Some (S i) | None => None end
  end.

(** [l[i] = v] for an index inside the array. *)
Fixpoint updateAt (A : Type) (l : list A) (i : nat) (v : A) : list A :=
  match l, i with
  | [], _ => []
  | _ :: rest, O => v :: rest
  | a :: rest, S j => a :: updateAt rest j v
  end.

(** [l[l.length - 1]], [undefined] on the empty array. *)
Definition lastOf (A : Type) (l : list A) : option A :=
  nth_error l (List.length l - 1).

(** [l.sort(cmp)]: a stable sort; the comparator's sign is all a sort reads.
    For a comparator that is a total preorder every stable sort returns this
    list. *)
Fixpoint insertBy (A : Type) (cmp : A -> A -> comparison) (a : A) (l : list A) : list A :=
  match l with
  | [] => [a]
  | b :: rest =>
      match cmp a b with
      | Gt => b :: insertBy cmp a rest
      | _ => a :: l
      end
  end.

Definition sortBy (A : Type) (cmp : A -> A -> comparison) (l : list A) : list A :=
  fold_right (insertBy cmp) [] l.

(* ------------------------------------------------------------------ *)
(** ** Numbers: binary64 and the [Math] functions it determines *)

Module JsNum.
Local Open Scope float_scope.

(** [Number.isFinite]. *)
Definition isFinite (a : float) : bool :=
  negb (PrimFloat.is_nan a) && negb (PrimFloat.is_infinity a).

(** [Math.min] and [Math.max] of two numbers: NaN if either is NaN, and -0
    is below +0. *)
Definition Math_min (a b : float) : float :=
  if PrimFloat.is_nan a || PrimFloat.is_nan b then nan
  else if a <? b then a
  else if b <? a then b
  else if PrimFloat.get_sign a then a else b.

Definition Math_max (a b : float) : float :=
  if PrimFloat.is_nan a || PrimFloat.is_nan b then nan
  else if a <? b then b
  else if b <? a then a
  else if PrimFloat.get_sign a then b else a.

Definition Math_abs (a : float) : float := PrimFloat.abs a.

(** An integer as a number; exact below 2^53 in absolute value. *)
Definition ofZ (n : Z) : float :=
  if (n =? 0)%Z then 0
  else SF2Prim (S754_finite (n <? 0)%Z (Z.to_pos (Z.abs n)) 0).

Definition ofNat (n : nat) : float := ofZ (Z.of_nat n).

(** The signed mantissa of a finite binary64 value [m * 2^e]. *)
Definition signedMantissa (s : bool) (m : positive) : Z :=
  if s then Z.neg m else Z.pos m.

(** [Math.floor]: a value with a non-negative exponent is an integer
    already; zeros, infinities and NaN are returned as they are. *)
Definition Math_floor (a : float) : float :=
  match Prim2SF a with
  | S754_finite s m e =>
      if (0 <=? e)%Z then a
      else ofZ (Z.div (signedMantissa s m) (Z.pow 2 (- e)))
  | _ => a
  end.

(** [Math.round]: the nearest integer, ties towards +infinity; a negative
    value that rounds to zero gives -0. *)
Definition Math_round (a : float) : float :=
  match Prim2SF a with
  | S754_finite s m e =>
      if (0 <=? e)%Z then a
      else
        let n := Z.div (2 * signedMantissa s m + Z.pow 2 (- e)) (Z.pow 2 (- e + 1)) in
        if (n =? 0)%Z && s then neg_zero else ofZ n
  | _ => a
  end.

(** [Math.PI]. *)
Definition Math_PI : float := 0x1.921fb54442d18p+1.

(** [clamp] and [degToRad] of NetworkGraph.utils.ts. *)
Definition clamp (n lo hi : float) : float := Math_max lo (Math_min hi n).

Definition degToRad (deg : float) : float := (deg * Math_PI) / 180.

End JsNum.
Import JsNum.

(** What the engine uses of the JavaScript runtime beyond binary64
    arithmetic: the trigonometric functions (implementation-approximated in
    ECMAScript), the locale's string comparison (its sign) and the
    number-to-string conversion of template literals. *)
Class JsRuntime : Type := {
  Math_cos : float -> float;
  Math_sin : float -> float;
  Math_atan2 : float -> float -> float;
  localeCompare : string -> string -> comparison;
  numberToString : float -> string
}.

(* ------------------------------------------------------------------ *)
(** ** Data model (types/ComponentsType.ts, NetworkGraph.utils.ts) *)

(** [NetworkNode]: the fields the engine reads. [expandable] is optional in
    the source and only ever tested for truthiness, so an absent flag is
    [false]. *)
Record NetworkNode : Type := mkNode {
  key : string;
  text : string;
  expandable : bool
}.

(** [NetworkEdge]: the engine reads the two endpoints only. *)
Record NetworkEdge : Type := mkEdge {
  from : string;
  to : string
}.

(** [InternalNodeInfo = { depth: number; parent?: string }]. *)
Record InternalNodeInfo : Type := mkInfo {
  depth : nat;
  parent : option string
}.

(** Truthiness of an optional string: [undefined] and the empty string are
    falsy. *)
Definition truthy (s : option string) : bool :=
  match s with
  | None => false
  | Some k => negb (String.eqb k EmptyString)
  end.

(* ------------------------------------------------------------------ *)
(** ** Level resolver: [computeTreeLevels] (NetworkGraph.utils.ts) *)

(** [adj.get(k)!.push(v)]; the caller checks that [k] is a node key. *)
Definition pushTo (adj : JsMap.t (list string)) (k v : string) : JsMap.t (list string) :=
  match JsMap.get adj k with
  | Some l => JsMap.set adj k (l ++ [v])
  | None => adj
  end.

Definition buildAdjacency (nodes : list NetworkNode) (edges : list NetworkEdge)
  : JsMap.t (list string) :=
  let nodeSet := map key nodes in
  let adj0 := fold_left (fun adj n => JsMap.set adj (key n) []) nodes [] in
  fold_left
    (fun adj e =>
       if negb (JsSet.has nodeSet (from e)) || negb (JsSet.has nodeSet (to e))
       then adj
       else pushTo (pushTo adj (from e) (to e)) (to e) (from e))
    edges adj0.

(** One neighbour of the node being expanded: the body of
    [for (const nb of adj.get(cur) || [])]. *)
Definition visit (cur : string) (d : nat)
  (st : list string * JsMap.t InternalNodeInfo) (nb : string)
  : list string * JsMap.t InternalNodeInfo :=
  if JsMap.has (snd st) nb then st
  else (fst st ++ [nb], JsMap.set (snd st) nb (mkInfo (d + 1) (Some cur))).

Definition neighbours (adj : JsMap.t (list string)) (cur : string) : list string :=
  match JsMap.get adj cur with Some l => l | None => [] end.

(** The [while (q.length)] loop, one iteration per unit of fuel. The state
    is the queue and the result map. A state whose head has no entry in
    [res] (where [res.get(cur)!.depth] would throw) is returned as it is,
    as is the state when the fuel runs out: the loop has completed exactly
    when the returned queue is empty. *)
Fixpoint bfs (fuel : nat) (adj : JsMap.t (list string)) (maxDepth : nat)
  (q : list string) (res : JsMap.t InternalNodeInfo)
  : list string * JsMap.t InternalNodeInfo :=
  match fuel with
  | O => (q, res)
  | S fuel' =>
      match q with
      | [] => ([], res)
      | cur :: q' =>
          match JsMap.get res cur with
          | None => (q, res)
          | Some curInfo =>
              if maxDepth <=? depth curInfo then bfs fuel' adj maxDepth q' res
              else
                let st := fold_left (visit cur (depth curInfo)) (neighbours adj cur) (q', res) in
                bfs fuel' adj maxDepth (fst st) (snd st)
          end
      end
  end.

(** The final state of the level resolver; every key is queued at most
    once, so [S (length nodes)] iterations are enough (see
    [computeTreeLevels_completes]). *)
Definition treeLevelsRun (nodes : list NetworkNode) (edges : list NetworkEdge)
  (centerKey : string) (maxDepth : nat)
  : list string * JsMap.t InternalNodeInfo :=
  let nodeSet := map key nodes in
  let adj := buildAdjacency nodes edges in
  if negb (JsSet.has nodeSet centerKey) then ([], [])
  else bfs (S (List.length nodes)) adj maxDepth [centerKey]
         (JsMap.set [] centerKey (mkInfo 0 None)).

Definition computeTreeLevels (nodes : list NetworkNode) (edges : list NetworkEdge)
  (centerKey : string) (maxDepth : nat) : JsMap.t InternalNodeInfo :=
  snd (treeLevelsRun nodes edges centerKey maxDepth).

(* ------------------------------------------------------------------ *)
(** ** Radial layout: [computeRadialLayout] (NetworkGraph.utils.ts) *)

Record NodePos : Type := mkPos {
  x : float;
  y : float
}.

Definition origin : NodePos := mkPos 0 0.

Inductive Level1Type : Type := circle | rectRings.

(** [level1Layout]: the ring parameters are optional. *)
Record Level1Layout : Type := mkLevel1Layout {
  l1type : Level1Type;
  halfW : option float;
  halfH : option float;
  outerRatio : option float;
  innerScale : option float
}.

Record NodeBox : Type := mkNodeBox {
  w : float;
  h : float;
  pad : option float
}.

(** The [params] object of the three layout functions. [radii] is a
    [Record<1..7, number>], read at the depth being placed. *)
Record LayoutParams : Type := mkParams {
  nodes : list NetworkNode;
  edges : list NetworkEdge;
  centerKey : string;
  maxDepth : nat;
  radii : nat -> float;
  childSpreadDeg : float;
  rectRingsMinLvl1 : option float;
  level1Layout : option Level1Layout;
  isExpandable : option (NetworkNode -> bool);
  nodeBox : option NodeBox
}.

(** [byDepth = { 0: [], ..., 7: [] }] and [byDepth[d].push(k)]: the table
    has no entry for a depth above 7, where [push] throws. *)
Definition byDepthInit : list (list string) := repeat [] 8.

Definition byDepthPush (tbl : list (list string)) (d : nat) (k : string)
  : option (list (list string)) :=
  match nth_error tbl d with
  | Some l => Some (updateAt tbl d (l ++ [k]))
  | None => None
  end.

Definition groupByDepth (ns : list NetworkNode) (levels : JsMap.t InternalNodeInfo)
  : option (list (list string)) :=
  fold_left
    (fun acc n =>
       match acc with
       | None => None
       | Some tbl =>
           match JsMap.get levels (key n) with
           | None => Some tbl
           | Some info => byDepthPush tbl (depth info) (key n)
           end
       end)
    ns (Some byDepthInit).

(** Children grouped by parent: the loop over [levels.entries()]. *)
Definition groupChildren (levels : JsMap.t InternalNodeInfo) : JsMap.t (list string) :=
  fold_left
    (fun m entry =>
       match parent (snd entry) with
       | Some p =>
           if String.eqb p EmptyString then m
           else pushTo (if JsMap.has m p then m else JsMap.set m p []) p (fst entry)
       | None => m
       end)
    levels [].

(** [idx / (siblings.length - 1)], or 0 for an only child. *)
Definition siblingT (siblings : list string) (k : string) : float :=
  if (List.length siblings =? 1)%nat then 0%float
  else
    (match indexOf siblings k with Some i => ofNat i | None => (-1)%float end
     / (ofNat (List.length siblings) - 1))%float.

Section Layout.
Context {rt : JsRuntime}.
Local Open Scope float_scope.

(** Depth 1: uniform distribution on the circle of radius [radii[1]]. *)
Definition placeCircle (r1 : float) (lvl1 : list string) (positions : JsMap.t NodePos)
  : JsMap.t NodePos :=
  fold_left
    (fun pos ik =>
       let a := ((ofNat (fst ik) / Math_max 1 (ofNat (List.length lvl1))) * Math_PI) * 2 in
       JsMap.set pos (snd ik) (mkPos (Math_cos a * r1) (Math_sin a * r1)))
    (indexed lvl1) positions.

(** A point at distance [r] from [parentPos] on the arc of [spread] radians
    centred on [baseAngle]. *)
Definition arcPoint (parentPos : NodePos) (baseAngle spread t r : float) : NodePos :=
  let angle := baseAngle - spread / 2 + t * spread in
  mkPos (x parentPos + Math_cos angle * r) (y parentPos + Math_sin angle * r).

(** The body of the loop over [byDepth[depth]] in [computeRadialLayout]. *)
Definition placeOnArc (params : LayoutParams) (levels : JsMap.t InternalNodeInfo)
  (childrenByParent : JsMap.t (list string)) (d : nat)
  (positions : JsMap.t NodePos) (k : string) : JsMap.t NodePos :=
  match JsMap.get levels k with
  | None => positions
  | Some info =>
      if negb (truthy (parent info)) then positions
      else
        match parent info with
        | None => positions
        | Some parentKey =>
            let parentPos :=
              match JsMap.get positions parentKey with Some p => p | None => origin end in
            let parentAngle := Math_atan2 (y parentPos) (x parentPos) in
            let siblings :=
              match JsMap.get childrenByParent parentKey with Some l => l | None => [k] end in
            let spread := degToRad (childSpreadDeg params) in
            let t := siblingT siblings k in
            JsMap.set positions k (arcPoint parentPos parentAngle spread t (radii params d))
        end
  end.

(** [for (const depth of depths) { if (depth > maxDepth) continue; ... }]. *)
Definition placeDepths (depths : list nat) (maxD : nat) (byDepth : list (list string))
  (place : nat -> JsMap.t NodePos -> string -> JsMap.t NodePos)
  (positions : JsMap.t NodePos) : JsMap.t NodePos :=
  fold_left
    (fun pos d =>
       if (maxD <? d)%nat then pos
       else fold_left (place d) (nth d byDepth []) pos)
    depths positions.

(** [computeRadialLayout]; [None] when [byDepth[info.depth].push] throws. *)
Definition computeRadialLayout (params : LayoutParams) : option (JsMap.t NodePos) :=
  let levels :=
    computeTreeLevels (nodes params) (edges params) (centerKey params) (maxDepth params) in
  let positions := JsMap.set [] (centerKey params) origin in
  match groupByDepth (nodes params) levels with
  | None => None
  | Some byDepth =>
      let lvl1 := nth 1%nat byDepth [] in
      let positions := placeCircle (radii params 1%nat) lvl1 positions in
      let childrenByParent := groupChildren levels in
      Some (placeDepths [2; 3]%nat (maxDepth params) byDepth
              (placeOnArc params levels childrenByParent) positions)
  end.

End Layout.

(* ------------------------------------------------------------------ *)
(** ** Advanced layout: [pointOnRectPerimeter], [rectOutwardNormal],
       [computeRadialLayoutAdvanced], [computeRadialLayoutAdaptive]
       (NetworkGraph.advanced.radial.ts) *)

Section RectRings.
Local Open Scope float_scope.

(** [RING_U_OFFSET = 0.015]. *)
Definition RING_U_OFFSET : float := 0x1.eb851eb851eb8p-7.

Definition pointOnRectPerimeter (u halfW halfH : float) : NodePos :=
  let W := halfW * 2 in
  let H := halfH * 2 in
  let perim := 2 * (W + H) in
  let d := (u - Math_floor u) * perim in
  if d <=? H then mkPos halfW (- halfH + d)
  else
    let d := d - H in
    if d <=? W then mkPos (halfW - d) halfH
    else
      let d := d - W in
      if d <=? H then mkPos (- halfW) (halfH - d)
      else
        let d := d - H in
        mkPos (- halfW + d) (- halfH).

(** [{ nx, ny, tx, ty }]: outward normal and tangent of the closest side. *)
Record Normal : Type := mkNormal {
  nx : float;
  ny : float;
  tx : float;
  ty : float
}.

Definition rectOutwardNormal (p : NodePos) (halfW halfH : float) : Normal :=
  let dx := halfW - Math_abs (x p) in
  let dy := halfH - Math_abs (y p) in
  if dx <? dy then mkNormal (if 0 <=? x p then 1 else -1) 0 0 1
  else mkNormal 0 (if 0 <=? y p then 1 else -1) 1 0.

(** [v ?? dflt]. *)
Definition orElse (A : Type) (v : option A) (dflt : A) : A :=
  match v with Some a => a | None => dflt end.

(** [halfW]/[halfH] of the ring rectangle: at least 120, [radii[1]] when
    the layout gives none. *)
Definition ringHalf (v : option float) (r1 : float) : float :=
  Math_max 120 (orElse v r1).

(** The outer ring takes every expandable key, then non-expandable ones
    until it holds [outerCount] keys. *)
Fixpoint fillOuter (outerCount : float) (outerKeys rest : list string) : list string :=
  match rest with
  | [] => outerKeys
  | k :: rest' =>
      if outerCount <=? ofNat (List.length outerKeys) then outerKeys
      else fillOuter outerCount (outerKeys ++ [k]) rest'
  end.

(** One ring: key [i] of [ks] at [u = i / max(1, |ks|) + RING_U_OFFSET * ring],
    scaled by [scale] when given (the inner ring). *)
Definition placeRing (ring : float) (scale : option float) (hw hh : float)
  (ks : list string) (positions : JsMap.t NodePos) : JsMap.t NodePos :=
  fold_left
    (fun pos ik =>
       let uBase := ofNat (fst ik) / Math_max 1 (ofNat (List.length ks)) in
       let u := uBase + RING_U_OFFSET * ring in
       let p := pointOnRectPerimeter u hw hh in
       JsMap.set pos (snd ik)
         (match scale with
          | None => p
          | Some s => mkPos (x p * s) (y p * s)
          end))
    (indexed ks) positions.

End RectRings.

Section Advanced.
Context {rt : JsRuntime}.
Local Open Scope float_scope.

Definition strCompare (a b : string) : comparison := localeCompare a b.

(** [isExpandable(nodeByKey.get(k))], false for a key with no node. *)
Definition expandableKey (nodeByKey : JsMap.t NetworkNode) (isExp : NetworkNode -> bool)
  (k : string) : bool :=
  match JsMap.get nodeByKey k with Some n => isExp n | None => false end.

(** Depth 1 on the two rectangular rings. *)
Definition placeRectRings (params : LayoutParams) (l1 : Level1Layout)
  (lvl1 expandableLvl1 nonExpandableLvl1 : list string)
  (positions : JsMap.t NodePos) : JsMap.t NodePos :=
  let hw := ringHalf (halfW l1) (radii params 1%nat) in
  let hh := ringHalf (halfH l1) (radii params 1%nat) in
  let ratio := clamp (orElse (outerRatio l1) 0x1.199999999999ap-1)
                 0x1.999999999999ap-5 0x1.e666666666666p-1 in
  let iscale := clamp (orElse (innerScale l1) 0x1.70a3d70a3d70ap-1)
                  0x1.999999999999ap-3 0x1.f5c28f5c28f5cp-1 in
  let outerCount := Math_max 1 (Math_round (ofNat (List.length lvl1) * ratio)) in
  let outerKeys := fillOuter outerCount expandableLvl1 nonExpandableLvl1 in
  let innerKeys := filter (fun k => negb (JsSet.has outerKeys k)) lvl1 in
  placeRing 0 (Some iscale) hw hh innerKeys
    (placeRing 1 None hw hh outerKeys positions).

(** The body of the loop over [byDepth[depth]] in
    [computeRadialLayoutAdvanced]. *)
Definition placeAdvanced (params : LayoutParams) (levels : JsMap.t InternalNodeInfo)
  (nodeByKey : JsMap.t NetworkNode) (isExp : NetworkNode -> bool)
  (childrenByParent : JsMap.t (list string)) (d : nat)
  (positions : JsMap.t NodePos) (k : string) : JsMap.t NodePos :=
  match JsMap.get levels k with
  | None => positions
  | Some info =>
      if negb (truthy (parent info)) then positions
      else
        match parent info with
        | None => positions
        | Some parentKey =>
            let parentPos :=
              match JsMap.get positions parentKey with Some p => p | None => origin end in
            let spread := degToRad (childSpreadDeg params) in
            let siblings :=
              match JsMap.get childrenByParent parentKey with Some l => l | None => [k] end in
            let t := siblingT siblings k in
            let offset := t - 0.5 in
            match level1Layout params with
            | Some (mkLevel1Layout rectRings lhw lhh _ _) =>
                let hw := ringHalf lhw (radii params 1%nat) in
                let hh := ringHalf lhh (radii params 1%nat) in
                let n := rectOutwardNormal parentPos hw hh in
                let boxW := match nodeBox params with Some b => w b | None => 120 end in
                let boxH := match nodeBox params with Some b => h b | None => 60 end in
                let padding :=
                  match nodeBox params with Some b => orElse (pad b) 10 | None => 10 end in
                let minSep := Math_max boxW boxH + padding in
                let parentIsExpandable := expandableKey nodeByKey isExp parentKey in
                let outwardBase := Math_max (radii params d) (minSep * 0x1.199999999999ap+0) in
                if parentIsExpandable then
                  let baseAngle := Math_atan2 (ny n) (nx n) in
                  let spread' :=
                    Math_min (degToRad 140)
                      (Math_max (degToRad (childSpreadDeg params))
                         ((ofNat (List.length siblings) - 1) * (minSep / outwardBase))) in
                  JsMap.set positions k (arcPoint parentPos baseAngle spread' t outwardBase)
                else
                  let tangentGap := minSep in
                  JsMap.set positions k
                    (mkPos (x parentPos + nx n * outwardBase + tx n * offset * tangentGap)
                           (y parentPos + ny n * outwardBase + ty n * offset * tangentGap))
            | _ =>
                let parentAngle := Math_atan2 (y parentPos) (x parentPos) in
                JsMap.set positions k
                  (arcPoint parentPos parentAngle spread t (radii params d))
            end
        end
  end.

(** [computeRadialLayoutAdvanced]; [None] when [byDepth[info.depth].push]
    throws. *)
Definition computeRadialLayoutAdvanced (params : LayoutParams) : option (JsMap.t NodePos) :=
  let isExp := orElse (isExpandable params) (fun _ => false) in
  let nodeByKey := fold_left (fun m n => JsMap.set m (key n) n) (nodes params) [] in
  let levels :=
    computeTreeLevels (nodes params) (edges params) (centerKey params) (maxDepth params) in
  let positions := JsMap.set [] (centerKey params) origin in
  match groupByDepth (nodes params) levels with
  | None => None
  | Some byDepth =>
      let lvl1 := sortBy strCompare (nth 1%nat byDepth []) in
      let expandableLvl1 := filter (expandableKey nodeByKey isExp) lvl1 in
      let nonExpandableLvl1 := filter (fun k => negb (expandableKey nodeByKey isExp k)) lvl1 in
      let l1 := orElse (level1Layout params) (mkLevel1Layout circle None None None None) in
      let positions :=
        match l1type l1 with
        | rectRings => placeRectRings params l1 lvl1 expandableLvl1 nonExpandableLvl1 positions
        | circle => placeCircle (radii params 1%nat) lvl1 positions
        end in
      let childrenByParent :=
        map (fun entry => (fst entry, sortBy strCompare (snd entry))) (groupChildren levels) in
      Some (placeDepths [6; 7]%nat (maxDepth params) byDepth
              (placeAdvanced params levels nodeByKey isExp childrenByParent) positions)
  end.

(** [computeRadialLayoutAdaptive]: the simple layout below
    [rectRingsMinLvl1] (80 by default) depth-1 nodes, the advanced one from
    there on. *)
Definition computeRadialLayoutAdaptive (params : LayoutParams) : option (JsMap.t NodePos) :=
  let threshold := orElse (rectRingsMinLvl1 params) 80 in
  let levels := computeTreeLevels (nodes params) (edges params) (centerKey params) 1 in
  let lvl1Count :=
    List.length (filter (fun info => (depth info =? 1)%nat) (JsMap.values levels)) in
  if ofNat lvl1Count <? threshold then computeRadialLayout params
  else computeRadialLayoutAdvanced params.

End Advanced.

(* ------------------------------------------------------------------ *)
(** ** Constants (Constants.ts) *)

Definition ICON_TOP : float := 4.
Definition ICON_SIZE : float := 24.
Definition NODE_BOX_WIDTH : float := 90.
Definition NODE_BOX_HEIGHT : float := 50.
Definition iconCenterYOffset : float :=
  (- (NODE_BOX_HEIGHT / 2) + ICON_TOP + ICON_SIZE / 2)%float.

(* ------------------------------------------------------------------ *)
(** ** Viewport fit: [computeGraphBounds] (NetworkGraph.utils.ts) and
       [zoomToFit] (NetworkGraph.tsx) *)

(** [{ minX, minY, maxX, maxY }], the shape of both the graph bounds and a
    cluster's bounds. *)
Record ClusterBounds : Type := mkBounds {
  minX : float;
  minY : float;
  maxX : float;
  maxY : float
}.

Definition emptyBounds : ClusterBounds :=
  mkBounds infinity infinity neg_infinity neg_infinity.

Definition finiteBounds (b : ClusterBounds) : bool :=
  isFinite (minX b) && isFinite (minY b) && isFinite (maxX b) && isFinite (maxY b).

Section Fit.
Local Open Scope float_scope.

Definition getNodeIconCenter (p : NodePos) : NodePos :=
  mkPos (x p) (y p + iconCenterYOffset).

Definition grow (b : ClusterBounds) (px py : float) : ClusterBounds :=
  mkBounds (Math_min (minX b) px) (Math_min (minY b) py)
           (Math_max (maxX b) px) (Math_max (maxY b) py).

Definition computeGraphBounds (positions : JsMap.t NodePos) : option ClusterBounds :=
  let boxes :=
    fold_left
      (fun b p =>
         grow (grow b (x p - NODE_BOX_WIDTH / 2) (y p - NODE_BOX_HEIGHT / 2))
              (x p + NODE_BOX_WIDTH / 2) (y p + NODE_BOX_HEIGHT / 2))
      (JsMap.values positions) emptyBounds in
  let b :=
    fold_left
      (fun b p => let c := getNodeIconCenter p in grow b (x c) (y c))
      (JsMap.values positions) boxes in
  if negb (isFinite (minX b)) || negb (isFinite (minY b))
     || negb (isFinite (maxX b)) || negb (isFinite (maxY b))
  then None
  else Some b.

(** d3-zoom's [ZoomTransform] [(k, x, y)] with the three operations the fit
    uses, as the library documents them. *)
Record ZoomTransform : Type := mkTransform {
  zk : float;
  zx : float;
  zy : float
}.

Definition zoomIdentity : ZoomTransform := mkTransform 1 0 0.

Definition translate (t : ZoomTransform) (dx dy : float) : ZoomTransform :=
  mkTransform (zk t) (zx t + zk t * dx) (zy t + zk t * dy).

Definition scale (t : ZoomTransform) (s : float) : ZoomTransform :=
  mkTransform (zk t * s) (zx t) (zy t).

(** What [zoomToFit] reads of the component: the measured viewport, the
    zoom limits of the configuration and [didInitialFitRef.current]. *)
Record Viewport : Type := mkViewport {
  measuredWidth : float;
  measuredHeight : float;
  minZoom : float;
  maxZoom : float;
  didInitialFit : bool
}.

(** [zoomToFit]: the transform handed to [applyTransform], [None] on the
    paths that return without calling it. *)
Definition zoomToFit (v : Viewport) (posMap : JsMap.t NodePos) : option ZoomTransform :=
  if (JsMap.size posMap =? 0)%nat then None
  else if (measuredWidth v =? 0) || (measuredHeight v =? 0) then None
  else
    match computeGraphBounds posMap with
    | None => None
    | Some b =>
        let padding := 5 in
        let minX' := minX b - padding in
        let minY' := minY b - padding in
        let maxX' := maxX b + padding in
        let maxY' := maxY b + padding in
        let contentW := Math_max 1 (maxX' - minX') in
        let contentH := Math_max 1 (maxY' - minY') in
        let rawK := Math_min (measuredWidth v / contentW) (measuredHeight v / contentH) in
        let k := clamp rawK (minZoom v) (if didInitialFit v then maxZoom v else 1) in
        let cx := (minX' + maxX') / 2 in
        let cy := (minY' + maxY') / 2 in
        Some (translate
                (scale (translate zoomIdentity (measuredWidth v / 2) (measuredHeight v / 2)) k)
                (- cx) (- cy))
    end.

End Fit.

(* ------------------------------------------------------------------ *)
(** ** Clustering: [computeGridClusters], [computeAggregatedEdges]
       (NetworkGraph.cluster.ts) *)

(** [ClusterGroup]; the source's field [key] is [gkey] here, [key] being
    the node's. *)
Record ClusterGroup : Type := mkGroup {
  gkey : string;
  members : list string;
  bounds : ClusterBounds;
  center : NodePos
}.

Record GridClusters : Type := mkClusters {
  groups : list ClusterGroup;
  nodeToGroup : JsMap.t string;
  groupPositions : JsMap.t NodePos;
  groupBounds : JsMap.t ClusterBounds
}.

Section Clusters.
Context {rt : JsRuntime}.
Local Open Scope float_scope.

(** The template literal [`G:${cx},${cy}`]. *)
Definition gridKey (p : NodePos) (gridSize : float) : string :=
  let cx := Math_floor (x p / gridSize) in
  let cy := Math_floor (y p / gridSize) in
  ("G:" ++ numberToString cx ++ "," ++ numberToString cy)%string.

(** The four assignments to [g.bounds]: the bounds grown by the box of a
    node at [p], a third of the node box on each side. *)
Definition padBounds (b : ClusterBounds) (p : NodePos) : ClusterBounds :=
  let padX := NODE_BOX_WIDTH / 3 in
  let padY := NODE_BOX_HEIGHT / 3 in
  mkBounds (Math_min (minX b) (x p - padX)) (Math_min (minY b) (y p - padY))
           (Math_max (maxX b) (x p + padX)) (Math_max (maxY b) (y p + padY)).

(** The body of the first loop: node [n] joins the group of its cell, which
    is created on first use. *)
Definition addToCluster (positions : JsMap.t NodePos) (gridSize : float)
  (st : JsMap.t ClusterGroup * JsMap.t string) (n : NetworkNode)
  : JsMap.t ClusterGroup * JsMap.t string :=
  match JsMap.get positions (key n) with
  | None => st
  | Some p =>
      let gKey := gridKey p gridSize in
      let g :=
        match JsMap.get (fst st) gKey with
        | Some g => g
        | None => mkGroup gKey [] emptyBounds origin
        end in
      let g' := mkGroup (gkey g) (members g ++ [key n]) (padBounds (bounds g) p) (center g) in
      (JsMap.set (fst st) gKey g', JsMap.set (snd st) (key n) gKey)
  end.

(** The second loop: a group with finite bounds gets its centre and is
    emitted. *)
Definition finalizeGroup (g : ClusterGroup) : option ClusterGroup :=
  if negb (isFinite (minX (bounds g))) || negb (isFinite (minY (bounds g)))
     || negb (isFinite (maxX (bounds g))) || negb (isFinite (maxY (bounds g)))
  then None
  else
    let cx := (minX (bounds g) + maxX (bounds g)) / 2 in
    let cy := (minY (bounds g) + maxY (bounds g)) / 2 in
    Some (mkGroup (gkey g) (members g) (bounds g) (mkPos cx cy)).

Definition finalizeGroups (groupsMap : JsMap.t ClusterGroup) : list ClusterGroup :=
  flat_map
    (fun g => match finalizeGroup g with Some g' => [g'] | None => [] end)
    (JsMap.values groupsMap).

Definition computeGridClusters (ns : list NetworkNode) (positions : JsMap.t NodePos)
  (gridSize : float) : GridClusters :=
  let st := fold_left (addToCluster positions gridSize) ns ([], []) in
  let emitted := finalizeGroups (fst st) in
  mkClusters
    (sortBy (fun a b => localeCompare (gkey a) (gkey b)) emitted)
    (snd st)
    (fold_left (fun m g => JsMap.set m (gkey g) (center g)) emitted [])
    (fold_left (fun m g => JsMap.set m (gkey g) (bounds g)) emitted []).

End Clusters.

(** An aggregated edge [{ from, to, count }]; the group keys are [gfrom]
    and [gto] here, [from] and [to] being the edge's. *)
Record AggregatedEdge : Type := mkAgg {
  gfrom : string;
  gto : string;
  count : nat
}.

(** [groupSizes.get(g) ?? 1]. *)
Definition sizeOf (groupSizes : JsMap.t nat) (g : string) : nat :=
  match JsMap.get groupSizes g with Some n => n | None => 1 end.

(** The body of the loop over the edges. *)
Definition countEdge (n2g : JsMap.t string) (groupSizes : JsMap.t nat)
  (m : JsMap.t (JsMap.t nat)) (e : NetworkEdge) : JsMap.t (JsMap.t nat) :=
  let gFrom := JsMap.get n2g (from e) in
  let gTo := JsMap.get n2g (to e) in
  if negb (truthy gFrom) || negb (truthy gTo) then m
  else
    match gFrom, gTo with
    | Some gF, Some gT =>
        if String.eqb gF gT then m
        else
          let fromSize := sizeOf groupSizes gF in
          let toSize := sizeOf groupSizes gT in
          if (fromSize =? 1) && (toSize =? 1) then m
          else
            let m' := if JsMap.has m gF then m else JsMap.set m gF [] in
            let inner := match JsMap.get m' gF with Some i => i | None => [] end in
            JsMap.set m' gF
              (JsMap.set inner gT
                 (match JsMap.get inner gT with Some c => c | None => 0 end + 1))
    | _, _ => m
    end.

Definition computeAggregatedEdges (es : list NetworkEdge) (n2g : JsMap.t string)
  (groupSizes : JsMap.t nat) : list AggregatedEdge :=
  let m := fold_left (countEdge n2g groupSizes) es [] in
  flat_map
    (fun entry => map (fun tc => mkAgg (fst entry) (fst tc) (snd tc)) (snd entry))
    m.

(* ------------------------------------------------------------------ *)
(** ** Expansion path: [nodeConnectionsMap], [visibleNodes],
       [visibleEdges], [onExpandClick] (NetworkGraph.tsx) *)

(** [map.get(k)?.add(v)]. *)
Definition addConnection (m : JsMap.t JsSet.t) (k v : string) : JsMap.t JsSet.t :=
  match JsMap.get m k with
  | Some s => JsMap.set m k (JsSet.add s v)
  | None => m
  end.

Definition nodeConnectionsMap (ns : list NetworkNode) (es : list NetworkEdge)
  : JsMap.t JsSet.t :=
  let m0 := fold_left (fun m n => JsMap.set m (key n) []) ns [] in
  fold_left
    (fun m e => addConnection (addConnection m (from e) (to e)) (to e) (from e))
    es m0.

(** The keys [visibleNodes] keeps: the whole path, then the connections of
    the focus (the last key of the path). *)
Definition visibleKeys (ns : list NetworkNode) (es : list NetworkEdge)
  (expansionPath : list string) : JsSet.t :=
  let onPath := fold_left JsSet.add expansionPath [] in
  match lastOf expansionPath with
  | None => onPath
  | Some focusNode =>
      match JsMap.get (nodeConnectionsMap ns es) focusNode with
      | Some focusConnections => fold_left JsSet.add focusConnections onPath
      | None => onPath
      end
  end.

Definition visibleNodes (ns : list NetworkNode) (es : list NetworkEdge)
  (expansionPath : list string) : list NetworkNode :=
  if (List.length expansionPath =? 0)%nat then ns
  else
    let vk := visibleKeys ns es expansionPath in
    filter (fun node => JsSet.has vk (key node)) ns.

Definition visibleEdges (ns : list NetworkNode) (es : list NetworkEdge)
  (expansionPath : list string) : list NetworkEdge :=
  let vk := map key (visibleNodes ns es expansionPath) in
  filter (fun edge => JsSet.has vk (from edge) && JsSet.has vk (to edge)) es.

(** [onExpandClick] on the node of key [nKey]: the next expansion path
    (the path itself when [setExpansionPath] is not called). [rootKey] is
    the component's [centerKey] prop. *)
Definition onExpandClick (rootKey : string) (ns : list NetworkNode) (es : list NetworkEdge)
  (expansionPath : list string) (nKey : string) : list string :=
  if negb (String.eqb nKey rootKey) then
    let currentFocusConnections :=
      match lastOf expansionPath with
      | Some currentFocus => JsMap.get (nodeConnectionsMap ns es) currentFocus
      | None => None
      end in
    let isDirectChild :=
      match currentFocusConnections with
      | Some s => JsSet.has s nKey
      | None => false
      end in
    if isDirectChild then expansionPath ++ [nKey]
    else
      match indexOf expansionPath nKey with
      | Some nodeIndexInPath => firstn (nodeIndexInPath + 1) expansionPath
      | None => expansionPath
      end
  else expansionPath.

(** [collapsedNodeInfo]: for every key of the path but the last, the
    number of its connections (itself apart) and of those that are not
    visible; emitted when some are hidden. *)
Record CollapsedInfo : Type := mkCollapsed {
  totalChildren : nat;
  hiddenChildren : nat
}.

Definition collapsedNodeInfo (ns : list NetworkNode) (es : list NetworkEdge)
  (expansionPath : list string) : JsMap.t CollapsedInfo :=
  let vk := map key (visibleNodes ns es expansionPath) in
  fold_left
    (fun info nodeKey =>
       match JsMap.get (nodeConnectionsMap ns es) nodeKey with
       | None => info
       | Some connections =>
           let children :=
             filter (fun childKey => negb (String.eqb childKey nodeKey)) connections in
           let hidden := filter (fun childKey => negb (JsSet.has vk childKey)) children in
           if (0 <? List.length hidden)%nat
           then JsMap.set info nodeKey
                  (mkCollapsed (List.length children) (List.length hidden))
           else info
       end)
    (removelast expansionPath) [].

(* ------------------------------------------------------------------ *)
(** ** A reference runtime and example graphs

    The theorems below hold for every [JsRuntime]. To run the model on
    concrete inputs this instance supplies one: truncated series for the
    trigonometric functions, the order of character codes for
    [localeCompare] (the order of every locale on keys made of digits or of
    lower-case letters only) and decimal digits for integers (what
    [Number.prototype.toString] prints below 10^21). *)

Module Reference.
Local Open Scope float_scope.

Definition twoPi : float := Math_PI * 2.

(** [a] brought into [-pi, pi]. *)
Definition reduceAngle (a : float) : float := a - twoPi * Math_round (a / twoPi).

(** The sine series up to the term of degree 23, by Horner's rule. *)
Definition sinSeries (a : float) : float :=
  let s := a * a in
  a * (1 - s / 6 * (1 - s / 20 * (1 - s / 42 * (1 - s / 72 * (1 - s / 110 *
      (1 - s / 156 * (1 - s / 210 * (1 - s / 272 * (1 - s / 342 *
      (1 - s / 420 * (1 - s / 506))))))))))).

Definition sin (a : float) : float := sinSeries (reduceAngle a).
Definition cos (a : float) : float := sinSeries (reduceAngle (a + Math_PI / 2)).

(** The arctangent series after two halvings of the angle
    ([atan z = 2 atan (z / (1 + sqrt (1 + z^2)))]). *)
Definition halveTan (z : float) : float := z / (1 + PrimFloat.sqrt (1 + z * z)).

Definition atanSeries (z : float) : float :=
  let s := z * z in
  z * (1 - s * (1 / 3 - s * (1 / 5 - s * (1 / 7 - s * (1 / 9 - s * (1 / 11 -
       s * (1 / 13 - s * (1 / 15 - s * (1 / 17 - s * (1 / 19 - s * (1 / 21))))))))))).

Definition atan (z : float) : float := 4 * atanSeries (halveTan (halveTan z)).

Definition atan2 (b a : float) : float :=
  if 0 <? a then atan (b / a)
  else if a <? 0 then (if b <? 0 then atan (b / a) - Math_PI else atan (b / a) + Math_PI)
  else if 0 <? b then Math_PI / 2
  else if b <? 0 then - (Math_PI / 2)
  else 0.

Fixpoint compareCodes (a b : string) : comparison :=
  match a, b with
  | EmptyString, EmptyString => Eq
  | EmptyString, String _ _ => Lt
  | String _ _, EmptyString => Gt
  | String c a', String d b' =>
      match Nat.compare (nat_of_ascii c) (nat_of_ascii d) with
      | Eq => compareCodes a' b'
      | r => r
      end
  end.

Definition digit (n : nat) : string := String (ascii_of_nat (48 + n)) EmptyString.

Fixpoint digitsOf (fuel : nat) (n : N) (acc : string) : string :=
  match fuel with
  | O => acc
  | S fuel' =>
      let acc' := (digit (N.to_nat (N.modulo n 10)) ++ acc)%string in
      if (N.div n 10 =? 0)%N then acc' else digitsOf fuel' (N.div n 10) acc'
  end.

(** The digits of an integer-valued number; the three non-numbers by
    name. *)
Definition showNumber (a : float) : string :=
  match Prim2SF a with
  | S754_zero _ => "0"%string
  | S754_nan => "NaN"%string
  | S754_infinity s => if s then "-Infinity"%string else "Infinity"%string
  | S754_finite s m e =>
      let n := Z.to_N (Z.shiftl (Z.pos m) e) in
      let ds := digitsOf 400 n EmptyString in
      if s then ("-" ++ ds)%string else ds
  end.

#[export] Instance runtime : JsRuntime := {
  Math_cos := cos;
  Math_sin := sin;
  Math_atan2 := atan2;
  localeCompare := compareCodes;
  numberToString := showNumber
}.

End Reference.

(** Example graphs. *)
Module Examples.
Local Open Scope string_scope.

Definition node (k : string) : NetworkNode := mkNode k k false.

(** The scenario of the specification: CENTER -> A, CENTER -> B, A -> C. *)
Definition scenarioNodes : list NetworkNode :=
  [node "CENTER"; node "A"; node "B"; node "C"].

Definition scenarioEdges : list NetworkEdge :=
  [mkEdge "CENTER" "A"; mkEdge "CENTER" "B"; mkEdge "A" "C"].

(** A chain c - n1 - n2 - n3 - n4 - n5 - n6. *)
Definition chainNodes : list NetworkNode :=
  [node "c"; node "n1"; node "n2"; node "n3"; node "n4"; node "n5"; node "n6"].

Definition chainEdges : list NetworkEdge :=
  [mkEdge "c" "n1"; mkEdge "n1" "n2"; mkEdge "n2" "n3"; mkEdge "n3" "n4";
   mkEdge "n4" "n5"; mkEdge "n5" "n6"].

(** The rect-ring scenario: four expandable depth-1 nodes around the
    centre, rings of half-width and half-height 200. *)
Definition ringNodes : list NetworkNode :=
  [node "c"; mkNode "k1" "k1" true; mkNode "k2" "k2" true;
   mkNode "k3" "k3" true; mkNode "k4" "k4" true].

Definition ringEdges : list NetworkEdge :=
  [mkEdge "c" "k1"; mkEdge "c" "k2"; mkEdge "c" "k3"; mkEdge "c" "k4"].

Definition ringParams : LayoutParams :=
  mkParams ringNodes ringEdges "c" 7 (fun _ => 100%float) 80%float None
    (Some (mkLevel1Layout rectRings (Some 200%float) (Some 200%float) None None))
    (Some expandable) None.

(** A viewport of 800 by 600 before the first fit, with the default zoom
    limits 0.25 and 3. *)
Definition viewport : Viewport := mkViewport 800 600 0.25 3 false.

(** Three nodes in one grid cell, two of them at the same place. *)
Definition cellNodes : list NetworkNode := [node "a"; node "b"; node "c"].

Definition cellPositions : JsMap.t NodePos :=
  [("a", mkPos 0 0); ("b", mkPos 0 0); ("c", mkPos 30 0)].

(** Edges between clustered nodes: a alone in G1, b and c together in G2. *)
Definition clusteredEdges : list NetworkEdge :=
  [mkEdge "a" "b"; mkEdge "a" "c"; mkEdge "b" "a"; mkEdge "b" "c"].

Definition clusteredNodeToGroup : JsMap.t string :=
  [("a", "G1"); ("b", "G2"); ("c", "G2")].

Definition clusteredGroupSizes : JsMap.t nat := [("G1", 1); ("G2", 2)].

(** The chain laid out with the default threshold (simple mode) and with
    a threshold of one depth-1 node (advanced mode, rectangular rings). *)
Definition chainSimple : LayoutParams :=
  mkParams chainNodes chainEdges "c" 7 (fun _ => 100%float) 80%float None
    (Some (mkLevel1Layout rectRings (Some 200%float) (Some 200%float) None None))
    (Some expandable) None.

Definition chainAdvanced : LayoutParams :=
  mkParams chainNodes chainEdges "c" 7 (fun _ => 100%float) 80%float (Some 1%float)
    (Some (mkLevel1Layout rectRings (Some 200%float) (Some 200%float) None None))
    (Some expandable) None.

(** A depth-1 node with the empty key: c - [""] - a - b. Its child a names
    a falsy parent and is skipped by the layout, so that b, at depth 3, is
    placed while its parent a has no position. *)
Definition skippedParentNodes : list NetworkNode :=
  [node "c"; node ""; node "a"; node "b"].

Definition skippedParentEdges : list NetworkEdge :=
  [mkEdge "c" ""; mkEdge "" "a"; mkEdge "a" "b"].

Definition skippedParent : LayoutParams :=
  mkParams skippedParentNodes skippedParentEdges "c" 3 (fun _ => 100%float) 80%float
    None None None None.

End Examples.

(* ------------------------------------------------------------------ *)
(** ** Properties the theorems speak of *)

(** The level invariant of a result map for the focus [c]: the focus has
    depth 0 and no parent, every other entry has a parent that is an entry
    one level up. *)
Definition levelInvariant (c : string) (res : JsMap.t InternalNodeInfo) : Prop :=
  JsMap.get res c = Some (mkInfo 0 None) /\
  forall k info,
    JsMap.get res k = Some info -> k <> c ->
    exists p pinfo,
      parent info = Some p /\ JsMap.get res p = Some pinfo /\
      depth info = depth pinfo + 1.

(** A state of the BFS loop over the node keys [U]: every queued key has
    an entry, and the entries are distinct keys of [U]. *)
Definition queueInvariant (U : list string) (q : list string)
  (res : JsMap.t InternalNodeInfo) : Prop :=
  (forall k, In k q -> JsMap.has res k = true) /\
  incl (JsMap.keys res) U /\
  NoDup (JsMap.keys res).

(** Two keys are joined by an edge, in either direction. *)
Definition joined (es : list NetworkEdge) (a b : string) : Prop :=
  exists e, In e es /\ ((from e = a /\ to e = b) \/ (from e = b /\ to e = a)).

(** An edge counts toward the aggregated pair [(gF, gT)], in the words of
    the specification: its endpoints map to the groups [gF] and [gT], the
    two groups differ, and at least one of them has more than one
    member. *)
Definition countsToward (n2g : JsMap.t string) (groupSizes : JsMap.t nat)
  (gF gT : string) (e : NetworkEdge) : bool :=
  match JsMap.get n2g (from e), JsMap.get n2g (to e) with
  | Some a, Some b =>
      String.eqb a gF && String.eqb b gT && negb (String.eqb gF gT)
      && ((1 <? sizeOf groupSizes gF) || (1 <? sizeOf groupSizes gT))
  | _, _ => false
  end.

(** The padded bounding box of the positions of the keys [ms]: the box of
    the positions, each expanded by NODE_BOX_WIDTH / 3 horizontally and
    NODE_BOX_HEIGHT / 3 vertically. *)
Definition paddedBox (positions : JsMap.t NodePos) (ms : list string) : ClusterBounds :=
  fold_left
    (fun b k => match JsMap.get positions k with Some p => padBounds b p | None => b end)
    ms emptyBounds.

(** The padded box of a single position is finite. *)
Definition finitePadded (p : NodePos) : bool :=
  finiteBounds (padBounds emptyBounds p).

(** The midpoint of a box. *)
Definition midpoint (b : ClusterBounds) : NodePos :=
  mkPos ((minX b + maxX b) / 2)%float ((minY b + maxY b) / 2)%float.

(** The arithmetic mean of a list of positions. *)
Definition centroid (ps : list NodePos) : NodePos :=
  mkPos (fold_left (fun a p => a + x p) ps 0 / ofNat (List.length ps))%float
        (fold_left (fun a p => a + y p) ps 0 / ofNat (List.length ps))%float.

(** ** Text for the SVG export: [escapeXml] (NetworkGraph.utils.ts) *)

(** [s.replaceAll(c, r)] for a pattern [c] of one character. *)
Fixpoint replaceAll (s : string) (c : ascii) (r : string) : string :=
  match s with
  | EmptyString => EmptyString
  | String a rest =>
      if Ascii.eqb a c then (r ++ replaceAll rest c r)%string
      else String a (replaceAll rest c r)
  end.

Definition escapeXml (s : string) : string :=
  replaceAll
    (replaceAll
       (replaceAll
          (replaceAll (replaceAll s "&"%char "&amp;"%string) "<"%char "&lt;"%string)
          ">"%char "&gt;"%string)
       "034"%char "&quot;"%string)
    "'"%char "&apos;"%string.

(** The five characters [escapeXml] rewrites. *)
Definition isMarkup (c : ascii) : bool :=
  Ascii.eqb c "&"%char || Ascii.eqb c "<"%char || Ascii.eqb c ">"%char
  || Ascii.eqb c "034"%char || Ascii.eqb c "'"%char.

Definition hasMarkup (s : string) : bool := existsb isMarkup (list_ascii_of_string s).

(** ** User actions on the expansion path (NetworkGraph.tsx) *)

(** The click handler of the count badge of a collapsed box: the path cut
    after the first occurrence of the node's key. *)
Definition onCollapsedBadgeClick (expansionPath : list string) (nKey : string)
  : list string :=
  match indexOf expansionPath nKey with
  | Some nodeIndex => firstn (nodeIndex + 1) expansionPath
  | None => expansionPath
  end.

(** The two user actions that change the expansion path (a change of the
    data or of [centerKey] resets it to its initial state). *)
Inductive PathAction : Type :=
| ExpandClick (nKey : string)
| BadgeClick (nKey : string).

Definition pathStep (rootKey : string) (ns : list NetworkNode) (es : list NetworkEdge)
  (expansionPath : list string) (a : PathAction) : list string :=
  match a with
  | ExpandClick nKey => onExpandClick rootKey ns es expansionPath nKey
  | BadgeClick nKey => onCollapsedBadgeClick expansionPath nKey
  end.

(** The expansion path after a sequence of actions, from the initial state
    [[centerKey]]. *)
Definition pathAfter (rootKey : string) (ns : list NetworkNode) (es : list NetworkEdge)
  (actions : list PathAction) : list string :=
  fold_left (pathStep rootKey ns es) actions [rootKey].

(** A walk of the graph: every key but the last is a node key, joined to the
    next one by an edge. *)
Fixpoint isWalk (ns : list NetworkNode) (es : list NetworkEdge) (p : list string) : Prop :=
  match p with
  | a :: (b :: _) as rest => In a (map key ns) /\ joined es a b /\ isWalk ns es rest
  | _ => True
  end.

(** ** The cluster memos of the component (NetworkGraph.tsx) *)

(** [CLUSTER_GRID_SIZE = 160] (Constants.ts). *)
Definition CLUSTER_GRID_SIZE : float := 160.

Section ClusterPipeline.
Context {rt : JsRuntime}.

(** The [cluster] memo: nothing is computed outside cluster mode. *)
Definition cluster (clusterMode : bool) (ns : list NetworkNode)
  (positions : JsMap.t NodePos) : GridClusters :=
  if negb clusterMode then mkClusters [] [] [] []
  else computeGridClusters ns positions CLUSTER_GRID_SIZE.

(** The [groupSizes] memo. *)
Definition groupSizes (gs : list ClusterGroup) : JsMap.t nat :=
  fold_left (fun m g => JsMap.set m (gkey g) (List.length (members g))) gs [].

(** The [aggregatedEdges] memo. *)
Definition aggregatedEdges (clusterMode : bool) (es : list NetworkEdge)
  (c : GridClusters) : list AggregatedEdge :=
  if negb clusterMode then []
  else computeAggregatedEdges es (nodeToGroup c) (groupSizes (groups c)).

End ClusterPipeline.

(** ** The base layout of the component: [baseLayout] (NetworkGraph.tsx) *)

Section BaseLayout.
Context {rt : JsRuntime}.
Local Open Scope float_scope.

(** The loop over the expansion path that ends [baseLayout]: a path key the
    layout gave no position is put on a trail above the graph, 180 units
    per step away from the focus. *)
Definition breadcrumbTrail (expansionPath : list string) (res : JsMap.t NodePos)
  : JsMap.t NodePos :=
  fold_left
    (fun res ik =>
       if JsMap.has res (snd ik) then res
       else
         let distanceFromFocus := (List.length expansionPath - fst ik - 1)%nat in
         if (0 <? distanceFromFocus)%nat
         then JsMap.set res (snd ik) (mkPos (180 * ofNat distanceFromFocus) (-400))
         else JsMap.set res (snd ik) origin)
    (indexed expansionPath) res.

(** The parameters [baseLayout] hands to [computeRadialLayoutAdaptive]:
    the visible graph around the focus, depth-1 nodes on two rectangular
    rings from 20 of them on. [rootKey] is the component's [centerKey]
    prop. *)
Definition baseLayoutParams (rootKey : string) (measuredWidth measuredHeight : float)
  (configMaxDepth : nat) (radii : nat -> float) (configChildSpreadDeg : float)
  (visibleNodes : list NetworkNode) (visibleEdges : list NetworkEdge)
  (effectiveCenterKey : string) : LayoutParams :=
  let halfW := Math_max 160 (measuredWidth / 2 - NODE_BOX_WIDTH) in
  let halfH := Math_max 160 (measuredHeight / 2 - NODE_BOX_HEIGHT) in
  mkParams visibleNodes visibleEdges effectiveCenterKey configMaxDepth radii
    configChildSpreadDeg
    (Some 20)
    (Some (mkLevel1Layout rectRings (Some halfW) (Some halfH)
             (Some 0x1.199999999999ap-1) (Some 0x1.70a3d70a3d70ap-1)))
    (Some (fun n => expandable n && negb (String.eqb (key n) rootKey)))
    (Some (mkNodeBox NODE_BOX_WIDTH NODE_BOX_HEIGHT (Some 25))).

(** The [baseLayout] memo for the radial layout. The expansion path is never
    empty; it is given as the focus and the keys before it. [None] when the
    layout throws. *)
Definition baseLayout (rootKey : string) (measuredWidth measuredHeight : float)
  (configMaxDepth : nat) (radii : nat -> float) (configChildSpreadDeg : float)
  (visibleNodes : list NetworkNode) (visibleEdges : list NetworkEdge)
  (ancestors : list string) (focus : string) : option (JsMap.t NodePos) :=
  let expansionPath := ancestors ++ [focus] in
  match computeRadialLayoutAdaptive
          (baseLayoutParams rootKey measuredWidth measuredHeight configMaxDepth radii
             configChildSpreadDeg visibleNodes visibleEdges focus) with
  | None => None
  | Some res => Some (breadcrumbTrail expansionPath res)
  end.

End BaseLayout.

(** ** Dynamic radial layout: [computeRadialLayoutDynamic]
       (NetworkGraph.dynamic.radial.ts) *)

(** [ToNumber] of a number that may be [undefined]. *)
Definition toNumber (v : option float) : float :=
  match v with Some a => a | None => nan end.

(** [computeChildRadius], with its default padding of 12. [baseRadius] is
    [undefined] when [baseRadii] has no entry for the level nor for a level
    above it. *)
Definition computeChildRadius (baseRadius : option float) (childCount : nat)
  (nodeBoxSize : float) : option float :=
  if (childCount <=? 1)%nat then baseRadius
  else
    let neededCircumference := (ofNat childCount * (nodeBoxSize + 12))%float in
    let neededRadius := (neededCircumference / (2 * Math_PI))%float in
    Some (Math_max (toNumber baseRadius) neededRadius).

(** [buildChildrenMap]: for every key the targets of its outgoing edges, in
    the order of the edges. *)
Definition buildChildrenMap (es : list NetworkEdge) : JsMap.t (list string) :=
  fold_left
    (fun m e => pushTo (if JsMap.has m (from e) then m else JsMap.set m (from e) []) (from e) (to e))
    es [].

Section Dynamic.
Context {rt : JsRuntime}.
Local Open Scope float_scope.

(** [layoutSubtree]. The recursion is on [left], the number of levels left:
    [left = maxDepth + 1 - level], so that [level > maxDepth] is [left = 0].
    [None] is the TypeError of [positions.get(parentKey)!.x] on a missing
    parent. *)
Fixpoint layoutSubtree (left : nat) (childrenMap : JsMap.t (list string))
  (baseRadii : nat -> option float)
  (parentKey : string) (level : nat) (parentAngle : float) (parentRadius : option float)
  (positions : JsMap.t NodePos) : option (JsMap.t NodePos) :=
  match left with
  | O => Some positions
  | S left' =>
      let children :=
        match JsMap.get childrenMap parentKey with Some l => l | None => [] end in
      if (List.length children =? 0)%nat then Some positions
      else
        let baseRadius :=
          match baseRadii level with Some r => Some r | None => parentRadius end in
        let effectiveRadius :=
          computeChildRadius baseRadius (List.length children)
            (Math_max NODE_BOX_WIDTH NODE_BOX_HEIGHT) in
        let angleStep := (2 * Math_PI) / ofNat (List.length children) in
        let startAngle := parentAngle - Math_PI in
        fold_left
          (fun acc ic =>
             match acc with
             | None => None
             | Some positions =>
                 let angle := startAngle + ofNat (fst ic) * angleStep in
                 match JsMap.get positions parentKey with
                 | None => None
                 | Some parentPos =>
                     let px := x parentPos + Math_cos angle * toNumber effectiveRadius in
                     let py := y parentPos + Math_sin angle * toNumber effectiveRadius in
                     layoutSubtree left' childrenMap baseRadii (snd ic) (level + 1) angle
                       effectiveRadius (JsMap.set positions (snd ic) (mkPos px py))
                 end
             end)
          (indexed children) (Some positions)
  end.

(** [computeRadialLayoutDynamic]. Of the nodes only the map [nodeByKey] is
    built, which nothing reads. *)
Definition computeRadialLayoutDynamic (es : list NetworkEdge) (centerKey : string)
  (baseRadii : nat -> option float) (maxDepth : nat) : option (JsMap.t NodePos) :=
  layoutSubtree maxDepth (buildChildrenMap es) baseRadii centerKey 1 0 (baseRadii 1%nat)
    (JsMap.set [] centerKey origin).

End Dynamic.

(** A walk of [n] edges from [a] to [b], each followed from its source to
    its target. *)
Inductive directedWalk (es : list NetworkEdge) : string -> string -> nat -> Prop :=
| walk_here (a : string) : directedWalk es a a 0
| walk_step (e : NetworkEdge) (b : string) (n : nat) :
    In e es -> directedWalk es (to e) b n -> directedWalk es (from e) b (S n).

(** ** The strict radial model generator: [generateStrictRadialModel]
       (GenerateHierarchicalRadialModel.ts) *)

(** The decimal digits of a count, as a template literal prints it. *)
Definition natToString (n : nat) : string := DecimalString.NilEmpty.string_of_uint (Nat.to_uint n).

(** The integer a number is, if it is one. *)
Definition integerValue (a : float) : option Z :=
  match Prim2SF a with
  | S754_zero _ => Some 0%Z
  | S754_finite s m e =>
      if (0 <=? e)%Z then Some (signedMantissa s m * Z.pow 2 e)%Z
      else if (Z.modulo (Z.pos m) (Z.pow 2 (- e)) =? 0)%Z
           then Some (Z.div (signedMantissa s m) (Z.pow 2 (- e)))
           else None
  | _ => None
  end.

(** [arr[i]] for a number [i]: [undefined] unless [i] is an index of the
    array. *)
Definition arrayAt (A : Type) (arr : list A) (i : float) : option A :=
  match integerValue i with
  | Some z => if (0 <=? z)%Z then nth_error arr (Z.to_nat z) else None
  | None => None
  end.

(** The strict radial model generator (GenerateHierarchicalRadialModel.ts).
    [Math.random] is a stream of numbers [rand], read in call order; the
    state of the generator counts the draws. Of a generated node the model
    keeps the key, the text and the flag, of an edge the endpoints, the
    [bidirectional] flag and the style. [totalNodes] is a count. *)
Module StrictRadialModel.

Record EdgeStyle : Type := mkStyle {
  color : string;
  thickness : float
}.

Definition EDGE_STYLES : list EdgeStyle :=
  [mkStyle "#006400" 3; mkStyle "#8B0000" 3; mkStyle "#475467" 1].

Inductive EdgeDirection : Type := CENTER_TO_RADIAL | RADIAL_TO_CENTER | BIDIRECTIONAL.

Definition EDGE_DIRECTIONS : list EdgeDirection :=
  [CENTER_TO_RADIAL; RADIAL_TO_CENTER; BIDIRECTIONAL].

(** The direction of a child's edge, ["OUT"] or ["IN"]. *)
Inductive ChildDirection : Type := OUT | IN.

(** A generated edge; [style] is absent when [pick] returned [undefined]. *)
Record GeneratedEdge : Type := mkGenerated {
  endpoints : NetworkEdge;
  bidirectional : bool;
  style : option EdgeStyle
}.

Record GeneratorState : Type := mkState {
  draws : nat;
  gnodes : list NetworkNode;
  gedges : list GeneratedEdge
}.

(** The helper [clamp] of the generator: [Math.min(Math.max(v, min), max)]. *)
Definition clamp (v lo hi : nat) : nat := Nat.min (Nat.max v lo) hi.

(** [Math.ceil(a / b)] of two counts, [b] positive. *)
Definition ceilDiv (a b : nat) : nat := (a + b - 1) / b.

Section Generator.
Variable rand : nat -> float.

(** [pick(arr)] at the draw [d]. *)
Definition pick (A : Type) (arr : list A) (d : nat) : option A :=
  arrayAt arr (Math_floor (rand d * ofNat (List.length arr))%float).

(** The body of the loop over the radial nodes; the state carries
    [radialKeys]. *)
Definition addRadial (st : GeneratorState * list string) (i : nat)
  : GeneratorState * list string :=
  let k := ("R" ++ natToString (i + 1))%string in
  let dir := pick EDGE_DIRECTIONS (draws (fst st)) in
  let sty := pick EDGE_STYLES (draws (fst st) + 1) in
  (mkState (draws (fst st) + 2)
     (gnodes (fst st) ++ [mkNode k ("Radial " ++ natToString (i + 1))%string false])
     (gedges (fst st) ++
      match dir with
      | Some CENTER_TO_RADIAL => [mkGenerated (mkEdge "CENTER" k) false sty]
      | Some RADIAL_TO_CENTER => [mkGenerated (mkEdge k "CENTER") false sty]
      | Some BIDIRECTIONAL => [mkGenerated (mkEdge "CENTER" k) true sty]
      | None => []
      end),
   snd st ++ [k]).

(** [nodes.find(n => n.key === k)] and, on the node found,
    [node.expandable = true]. *)
Fixpoint markExpandable (ns : list NetworkNode) (k : string) : list NetworkNode :=
  match ns with
  | [] => []
  | n :: rest =>
      if String.eqb (key n) k then mkNode (key n) (text n) true :: rest
      else n :: markExpandable rest k
  end.

(** One child of the radial node [parentKey]; nothing once [maxNodes] nodes
    exist (the [break] of the loop). The state carries [created]. *)
Definition addChild (maxNodes : nat) (parentKey : string) (pIdx : nat)
  (st : GeneratorState * nat) (i : nat) : GeneratorState * nat :=
  if (maxNodes <=? snd st)%nat then st
  else
    let k := ("C" ++ natToString (pIdx + 1) ++ "_" ++ natToString (i + 1))%string in
    let sty := pick EDGE_STYLES (draws (fst st)) in
    let dir := pick [OUT; IN] (draws (fst st) + 1) in
    (mkState (draws (fst st) + 2)
       (gnodes (fst st) ++
        [mkNode k ("Child " ++ natToString (pIdx + 1) ++ "." ++ natToString (i + 1))%string
           false])
       (gedges (fst st) ++
        [match dir with
         | Some OUT => mkGenerated (mkEdge parentKey k) false sty
         | _ => mkGenerated (mkEdge k parentKey) false sty
         end]),
     snd st + 1)%nat.

(** The body of the loop over the expandable radial nodes. *)
Definition addChildren (maxNodes expandableCount : nat) (st : GeneratorState * nat)
  (ip : nat * string) : GeneratorState * nat :=
  if (maxNodes <=? snd st)%nat then st
  else
    let availableSlots := (maxNodes - snd st)%nat in
    if (availableSlots <=? 0)%nat then st
    else
      let childrenCount := Nat.min 6 (ceilDiv availableSlots expandableCount) in
      fold_left (addChild maxNodes (snd ip) (fst ip)) (seq 0 childrenCount) st.

Definition generateStrictRadialModel (totalNodes : nat) : GeneratorState :=
  let maxNodes := clamp totalNodes 5 500 in
  let st0 := mkState 0 [mkNode "CENTER" "Central Node" false] [] in
  let radialCount := clamp (maxNodes - 1) 1 (maxNodes - 1) in
  let st1 := fold_left addRadial (seq 0 radialCount) (st0, []) in
  let expandableRadials := firstn 6 (snd st1) in
  let marked := fold_left markExpandable expandableRadials (gnodes (fst st1)) in
  let st2 := mkState (draws (fst st1)) marked (gedges (fst st1)) in
  fst (fold_left (addChildren maxNodes (List.length expandableRadials))
         (indexed expandableRadials) (st2, List.length marked)).

End Generator.

End StrictRadialModel.

(** ** Further properties the theorems speak of *)

(** The order of binary64: [a <= b] as the comparison of the code decides
    it. *)
Definition leF (a b : float) : Prop := (a <=? b)%float = true.

(** The point [(px, py)] lies within the bounds [b]. *)
Definition withinBounds (b : ClusterBounds) (px py : float) : Prop :=
  leF (minX b) px /\ leF px (maxX b) /\ leF (minY b) py /\ leF py (maxY b).

(** Every coordinate [computeGraphBounds] reads of a node is finite. *)
Definition finiteBox (p : NodePos) : bool :=
  (isFinite (x p - NODE_BOX_WIDTH / 2) && isFinite (x p + NODE_BOX_WIDTH / 2)
  && isFinite (x p)
  && isFinite (y p - NODE_BOX_HEIGHT / 2) && isFinite (y p + NODE_BOX_HEIGHT / 2)
  && isFinite (y p + iconCenterYOffset))%float.

(** A walk of [n] steps from [a] to [b], each step along an edge, in
    either direction, between two node keys. *)
Inductive nodeWalk (ns : list NetworkNode) (es : list NetworkEdge)
  : string -> string -> nat -> Prop :=
| nodeWalk_here (a : string) : nodeWalk ns es a a 0
| nodeWalk_step (a b c : string) (n : nat) :
    In a (map key ns) -> In b (map key ns) -> joined es a b ->
    nodeWalk ns es b c n -> nodeWalk ns es a c (S n).

(** A comparator's sign orders its arguments: [a] is not after [b]. *)
Definition notAfter (A : Type) (cmp : A -> A -> comparison) (a b : A) : Prop :=
  cmp a b <> Gt.

(** A comparator that is a total preorder, as [Array.prototype.sort]
    expects. *)
Definition consistentComparator (A : Type) (cmp : A -> A -> comparison) : Prop :=
  (forall a b, cmp a b = Gt -> cmp b a <> Gt) /\
  (forall a b c, cmp a b <> Gt -> cmp b c <> Gt -> cmp a c <> Gt).

(** Some node has a level deeper than 7, where the layouts' [byDepth]
    table has no row. *)
Definition tooDeep (ns : list NetworkNode) (levels : JsMap.t InternalNodeInfo) : Prop :=
  exists n info, In n ns /\ JsMap.get levels (key n) = Some info /\ 7 < depth info.


(* ================================================================== *)
(** * Part II: facts *)

Unset Implicit Arguments.
Open Scope string_scope.
Open Scope list_scope.

(* ------------------------------------------------------------------ *)
(** ** Containers *)

Lemma fold_left_invariant (A B : Type) (P : A -> Prop) (f : A -> B -> A) (l : list B) :
  forall a, P a -> (forall a' b, P a' -> In b l -> P (f a' b)) -> P (fold_left f l a).
Proof.
  induction l as [|b l IH]; simpl; intros a Ha Hstep; [exact Ha|].
  apply IH.
  - apply Hstep; [exact Ha | now left].
  - intros a' b' Ha' Hb'. apply Hstep; [exact Ha' | now right].
Qed.

Module JsSetFacts.
Import JsSet.

Lemma has_In (s : t) (k : string) : has s k = true <-> In k s.
Proof.
  unfold has. rewrite existsb_exists. split.
  - intros [a [Ha He]]. apply String.eqb_eq in He. now subst.
  - intros H. exists k. split; [assumption | apply String.eqb_refl].
Qed.

Lemma has_false (s : t) (k : string) : has s k = false <-> ~ In k s.
Proof.
  rewrite <- has_In. destruct (has s k); split; congruence.
Qed.

Lemma In_add (s : t) (k a : string) : In a (add s k) <-> a = k \/ In a s.
Proof.
  unfold add. destruct (has s k) eqn:E.
  - apply has_In in E. split; [now right | intros [-> | H]; assumption].
  - rewrite in_app_iff. simpl. intuition congruence.
Qed.

Lemma In_fold_add (l : list string) :
  forall (s : t) (a : string), In a (fold_left add l s) <-> In a l \/ In a s.
Proof.
  induction l as [|b l IH]; simpl; intros s a; [tauto|].
  rewrite IH, In_add. intuition congruence.
Qed.

End JsSetFacts.

Module JsMapFacts.
Import JsMap.

Section Facts.
Variable V : Type.
Implicit Types (m : t V) (k : string) (v : V).

Lemma get_set_same m k v : get (set m k v) k = Some v.
Proof.
  induction m as [|[k' v'] m IH]; simpl.
  - now rewrite String.eqb_refl.
  - destruct (String.eqb k' k) eqn:E; simpl.
    + now rewrite String.eqb_refl.
    + now rewrite E.
Qed.

Lemma get_set_other m k v k' : k' <> k -> get (set m k v) k' = get m k'.
Proof.
  intros Hne. induction m as [|[k0 v0] m IH]; simpl.
  - destruct (String.eqb k k') eqn:E; [apply String.eqb_eq in E; congruence | reflexivity].
  - destruct (String.eqb k0 k) eqn:E; simpl.
    + apply String.eqb_eq in E. subst k0.
      destruct (String.eqb k k') eqn:E'; [apply String.eqb_eq in E'; congruence | reflexivity].
    + destruct (String.eqb k0 k'); [reflexivity | exact IH].
Qed.

Lemma get_set m k v k' :
  get (set m k v) k' = if String.eqb k k' then Some v else get m k'.
Proof.
  destruct (String.eqb k k') eqn:E.
  - apply String.eqb_eq in E. subst. apply get_set_same.
  - apply get_set_other. intros ->. now rewrite String.eqb_refl in E.
Qed.

Lemma has_set m k v k' : has (set m k v) k' = String.eqb k k' || has m k'.
Proof.
  unfold has. rewrite get_set. now destruct (String.eqb k k').
Qed.

Lemma has_In_keys m k : has m k = true <-> In k (keys m).
Proof.
  unfold has. induction m as [|[k' v'] m IH]; simpl.
  - split; [discriminate | tauto].
  - destruct (String.eqb k' k) eqn:E.
    + apply String.eqb_eq in E. subst. tauto.
    + rewrite IH. split; [tauto | intros [H | H]; [|assumption]].
      subst. now rewrite String.eqb_refl in E.
Qed.

Lemma get_None_keys m k : get m k = None <-> ~ In k (keys m).
Proof.
  rewrite <- has_In_keys. unfold has. destruct (get m k); split; congruence.
Qed.

Lemma get_Some_keys m k v : get m k = Some v -> In k (keys m).
Proof.
  intros H. apply has_In_keys. unfold has. now rewrite H.
Qed.

Lemma In_keys_get m k : In k (keys m) -> exists v, get m k = Some v.
Proof.
  intros H. apply has_In_keys in H. unfold has in H.
  destruct (get m k) as [v|]; [now exists v | discriminate].
Qed.

Lemma get_In m k v : get m k = Some v -> In (k, v) m.
Proof.
  induction m as [|[k' v'] m IH]; simpl; [discriminate|].
  destruct (String.eqb k' k) eqn:E.
  - apply String.eqb_eq in E. intros [= ->]. subst. now left.
  - intros H. right. now apply IH.
Qed.

Lemma In_get m k v : NoDup (keys m) -> In (k, v) m -> get m k = Some v.
Proof.
  induction m as [|[k' v'] m IH]; simpl; [tauto|].
  intros Hnd [Heq | Hin].
  - injection Heq as -> ->. now rewrite String.eqb_refl.
  - inversion Hnd as [|? ? Hnotin Hnd']; subst.
    destruct (String.eqb k' k) eqn:E.
    + apply String.eqb_eq in E. subst k'. exfalso. apply Hnotin.
      change (In (fst (k, v)) (map fst m)). now apply in_map.
    + now apply IH.
Qed.

Lemma keys_set_new m k v : has m k = false -> keys (set m k v) = keys m ++ [k].
Proof.
  unfold has. induction m as [|[k' v'] m IH]; simpl; [reflexivity|].
  destruct (String.eqb k' k) eqn:E; [discriminate|].
  intros H. simpl. f_equal. unfold keys in IH. now apply IH.
Qed.

Lemma keys_set_old m k v : has m k = true -> keys (set m k v) = keys m.
Proof.
  unfold has. induction m as [|[k' v'] m IH]; simpl; [discriminate|].
  destruct (String.eqb k' k) eqn:E; simpl.
  - apply String.eqb_eq in E. now subst.
  - intros H. f_equal. now apply IH.
Qed.

Lemma In_keys_set m k v a : In a (keys (set m k v)) <-> a = k \/ In a (keys m).
Proof.
  destruct (has m k) eqn:E.
  - rewrite keys_set_old by assumption. apply has_In_keys in E.
    split; [now right | intros [-> | H]; assumption].
  - rewrite keys_set_new by assumption. rewrite in_app_iff. simpl. intuition congruence.
Qed.

Lemma NoDup_keys_set m k v : NoDup (keys m) -> NoDup (keys (set m k v)).
Proof.
  intros H. destruct (has m k) eqn:E.
  - now rewrite keys_set_old.
  - rewrite keys_set_new by assumption.
    apply NoDup_app; [assumption | repeat constructor; simpl; tauto |].
    intros a Ha [<- | []]. apply has_In_keys in Ha. congruence.
Qed.

End Facts.

End JsMapFacts.
Import JsMapFacts.

(* ------------------------------------------------------------------ *)
(** ** The level resolver *)

Section LevelFacts.
Import JsMap.

Lemma present_absent_neq (V : Type) (m : t V) (a b : string) :
  has m a = true -> has m b = false -> a <> b.
Proof. intros Ha Hb ->. congruence. Qed.

Lemma get_has (V : Type) (m : t V) (a : string) (v : V) :
  get m a = Some v -> has m a = true.
Proof. unfold has. now intros ->. Qed.

(** [visit] never touches an entry that is already there. *)
Lemma visit_keeps (cur : string) (d : nat) (st : list string * t InternalNodeInfo)
  (nb a : string) (info : InternalNodeInfo) :
  get (snd st) a = Some info -> get (snd (visit cur d st nb)) a = Some info.
Proof.
  intros Ha. unfold visit. destruct (has (snd st) nb) eqn:E; [exact Ha|].
  simpl. rewrite get_set_other; [exact Ha|].
  eapply present_absent_neq; [eapply get_has; exact Ha | exact E].
Qed.

Lemma visit_levelInvariant (c cur : string) (curInfo : InternalNodeInfo)
  (st : list string * t InternalNodeInfo) (nb : string) :
  levelInvariant c (snd st) ->
  get (snd st) cur = Some curInfo ->
  levelInvariant c (snd (visit cur (depth curInfo) st nb)).
Proof.
  intros [Hc Hinv] Hcur. split.
  - now apply visit_keeps.
  - intros k info Hget Hk. unfold visit in Hget |- *.
    destruct (has (snd st) nb) eqn:E; [now apply (Hinv k info)|].
    simpl in Hget |- *. rewrite get_set in Hget.
    destruct (String.eqb nb k) eqn:E2.
    + injection Hget as <-. exists cur, curInfo. simpl. repeat split.
      rewrite get_set_other; [exact Hcur|].
      eapply present_absent_neq; [eapply get_has; exact Hcur | exact E].
    + destruct (Hinv k info Hget Hk) as [p [pinfo [Hp [Hgp Hd]]]].
      exists p, pinfo. repeat split; try assumption.
      rewrite get_set_other; [exact Hgp|].
      eapply present_absent_neq; [eapply get_has; exact Hgp | exact E].
Qed.

Lemma fold_visit_levelInvariant (c cur : string) (curInfo : InternalNodeInfo)
  (nbs : list string) (st : list string * t InternalNodeInfo) :
  levelInvariant c (snd st) ->
  get (snd st) cur = Some curInfo ->
  levelInvariant c (snd (fold_left (visit cur (depth curInfo)) nbs st)).
Proof.
  intros Hinv Hcur.
  apply (fold_left_invariant _ _
           (fun s => levelInvariant c (snd s) /\ get (snd s) cur = Some curInfo)
           (visit cur (depth curInfo)) nbs st).
  - now split.
  - intros s nb [Hs Hg] _. split.
    + now apply visit_levelInvariant.
    + now apply visit_keeps.
Qed.

Lemma bfs_levelInvariant (c : string) (adj : t (list string)) (maxD : nat) (fuel : nat) :
  forall q res, levelInvariant c res -> levelInvariant c (snd (bfs fuel adj maxD q res)).
Proof.
  induction fuel as [|fuel IH]; intros q res Hinv; simpl; [exact Hinv|].
  destruct q as [|cur q']; [exact Hinv|].
  destruct (get res cur) as [curInfo|] eqn:Hcur; [|exact Hinv].
  destruct (maxD <=? depth curInfo)%nat; [now apply IH|].
  apply IH. apply fold_visit_levelInvariant; simpl; assumption.
Qed.

(** *** The loop completes *)

Lemma visit_queueInvariant (U : list string) (cur : string) (d : nat)
  (st : list string * t InternalNodeInfo) (nb : string) :
  queueInvariant U (fst st) (snd st) -> In nb U ->
  queueInvariant U (fst (visit cur d st nb)) (snd (visit cur d st nb)) /\
  List.length (fst (visit cur d st nb)) + List.length (keys (snd st))
  = List.length (fst st) + List.length (keys (snd (visit cur d st nb))).
Proof.
  intros [Hq [Hincl Hnd]] Hnb. unfold visit.
  destruct (has (snd st) nb) eqn:E; simpl.
  - split; [now repeat split | reflexivity].
  - split.
    + repeat split.
      * intros k Hk. rewrite has_set. apply in_app_or in Hk.
        destruct Hk as [Hk | [<- | []]].
        -- rewrite (Hq k Hk). apply orb_true_r.
        -- now rewrite String.eqb_refl.
      * intros a Ha. apply In_keys_set in Ha. destruct Ha as [-> | Ha]; auto.
      * now apply NoDup_keys_set.
    + rewrite keys_set_new by assumption. rewrite !List.length_app. simpl. lia.
Qed.

Lemma fold_visit_queueInvariant (U : list string) (cur : string) (d : nat)
  (nbs : list string) :
  incl nbs U ->
  forall st,
    queueInvariant U (fst st) (snd st) ->
    queueInvariant U (fst (fold_left (visit cur d) nbs st))
                     (snd (fold_left (visit cur d) nbs st)) /\
    List.length (fst (fold_left (visit cur d) nbs st)) + List.length (keys (snd st))
    = List.length (fst st) + List.length (keys (snd (fold_left (visit cur d) nbs st))).
Proof.
  induction nbs as [|nb nbs IH]; intros Hincl st Hst; simpl.
  - split; [assumption | reflexivity].
  - destruct (visit_queueInvariant U cur d st nb Hst) as [H1 E1].
    { apply Hincl. now left. }
    destruct (IH (fun a Ha => Hincl a (or_intror Ha)) _ H1) as [H2 E2].
    split; [assumption | lia].
Qed.

Lemma bfs_completes (U : list string) (adj : t (list string)) (maxD : nat) :
  (forall cur, incl (neighbours adj cur) U) ->
  forall fuel q res,
    queueInvariant U q res ->
    List.length q + List.length U < fuel + List.length (keys res) ->
    fst (bfs fuel adj maxD q res) = [].
Proof.
  intros Hadj. induction fuel as [|fuel IH]; intros q res Hinv Hfuel.
  - exfalso. destruct Hinv as [_ [Hincl Hnd]].
    pose proof (NoDup_incl_length Hnd Hincl). lia.
  - simpl. destruct q as [|cur q']; [reflexivity|].
    destruct Hinv as [Hq [Hincl Hnd]].
    assert (Hcur : has res cur = true) by (apply Hq; now left).
    unfold has in Hcur. destruct (get res cur) as [curInfo|] eqn:Hget; [|discriminate].
    assert (Hq' : queueInvariant U q' res).
    { repeat split; try assumption. intros k Hk. apply Hq. now right. }
    simpl in Hfuel.
    destruct (maxD <=? depth curInfo)%nat.
    + apply IH; [exact Hq' | lia].
    + destruct (fold_visit_queueInvariant U cur (depth curInfo) _ (Hadj cur) (q', res) Hq')
        as [H2 E2].
      simpl in E2. apply IH; [exact H2 | lia].
Qed.

(** *** The adjacency lists hold node keys only *)

Definition rangeIn (U : list string) (adj : t (list string)) : Prop :=
  forall k l, get adj k = Some l -> incl l U.

Lemma pushTo_rangeIn (U : list string) (adj : t (list string)) (k v : string) :
  rangeIn U adj -> In v U -> rangeIn U (pushTo adj k v).
Proof.
  intros Hr Hv. unfold pushTo. destruct (get adj k) as [l|] eqn:E; [|exact Hr].
  intros k' l' Hget. rewrite get_set in Hget.
  destruct (String.eqb k k'); [|now apply (Hr k')].
  injection Hget as <-. intros a Ha. apply in_app_or in Ha.
  destruct Ha as [Ha | [<- | []]]; [now apply (Hr k l) | assumption].
Qed.

Lemma buildAdjacency_rangeIn (ns : list NetworkNode) (es : list NetworkEdge) :
  rangeIn (map key ns) (buildAdjacency ns es).
Proof.
  unfold buildAdjacency. apply fold_left_invariant.
  - apply fold_left_invariant.
    + intros k l H. discriminate.
    + intros adj n Hr _ k l Hget. rewrite get_set in Hget.
      destruct (String.eqb (key n) k); [|now apply (Hr k)].
      injection Hget as <-. intros a [].
  - intros adj e Hr _.
    destruct (JsSet.has (map key ns) (from e)) eqn:Ef; simpl; [|exact Hr].
    destruct (JsSet.has (map key ns) (to e)) eqn:Et; simpl; [|exact Hr].
    apply JsSetFacts.has_In in Ef, Et.
    apply pushTo_rangeIn; [apply pushTo_rangeIn|]; assumption.
Qed.

Lemma neighbours_in_nodes (ns : list NetworkNode) (es : list NetworkEdge) (cur : string) :
  incl (neighbours (buildAdjacency ns es) cur) (map key ns).
Proof.
  unfold neighbours. destruct (get (buildAdjacency ns es) cur) as [l|] eqn:E.
  - exact (buildAdjacency_rangeIn ns es cur l E).
  - intros a [].
Qed.

Lemma initial_queueInvariant (U : list string) (c : string) :
  In c U -> queueInvariant U [c] (set [] c (mkInfo 0 None)).
Proof.
  intros Hc. repeat split; simpl.
  - intros k [<- | []]. unfold has. simpl. now rewrite String.eqb_refl.
  - intros a [<- | []]. assumption.
  - repeat constructor. simpl. tauto.
Qed.

(** The loop of [computeTreeLevels] runs to completion: the fuel of the
    model is enough, and no dequeued key lacks its entry. *)
Lemma computeTreeLevels_completes (ns : list NetworkNode) (es : list NetworkEdge)
  (c : string) (maxD : nat) :
  fst (treeLevelsRun ns es c maxD) = [].
Proof.
  unfold treeLevelsRun.
  destruct (JsSet.has (map key ns) c) eqn:E; simpl; [|reflexivity].
  apply JsSetFacts.has_In in E.
  change (fst (bfs (S (List.length ns)) (buildAdjacency ns es) maxD [c]
                 (set [] c (mkInfo 0 None))) = []).
  apply (bfs_completes (map key ns)).
  - intros cur. apply neighbours_in_nodes.
  - now apply initial_queueInvariant.
  - simpl. rewrite List.length_map. lia.
Qed.

Lemma computeTreeLevels_levelInvariant (ns : list NetworkNode) (es : list NetworkEdge)
  (c : string) (maxD : nat) :
  In c (map key ns) -> levelInvariant c (computeTreeLevels ns es c maxD).
Proof.
  intros Hc. unfold computeTreeLevels, treeLevelsRun.
  apply JsSetFacts.has_In in Hc. rewrite Hc.
  change (levelInvariant c
            (snd (bfs (S (List.length ns)) (buildAdjacency ns es) maxD [c]
                    (set [] c (mkInfo 0 None))))).
  apply bfs_levelInvariant. split.
  - simpl. now rewrite String.eqb_refl.
  - intros k info Hget Hk. simpl in Hget.
    destruct (String.eqb c k) eqn:E; [|discriminate].
    apply String.eqb_eq in E. congruence.
Qed.

(** Depth 0 is the focus's alone. *)
Lemma depth_zero_focus (ns : list NetworkNode) (es : list NetworkEdge)
  (c : string) (maxD : nat) (k : string) (info : InternalNodeInfo) :
  In c (map key ns) ->
  get (computeTreeLevels ns es c maxD) k = Some info -> depth info = 0 -> k = c.
Proof.
  intros Hc Hget Hd. destruct (string_dec k c) as [|Hne]; [assumption|].
  destruct (computeTreeLevels_levelInvariant ns es c maxD Hc) as [_ Hinv].
  destruct (Hinv k info Hget Hne) as [p [pinfo [_ [_ Hdp]]]]. lia.
Qed.

End LevelFacts.

(** C7. For a focus key that is a node key, the loop of [computeTreeLevels]
    completes and, in the map it returns, the focus has depth 0 and no
    parent, every other entry has a parent that is an entry of the map with
    depth(n) = depth(parent(n)) + 1, and depth 0 occurs for the focus
    only. *)
Theorem computeTreeLevels_level_invariant :
  forall (ns : list NetworkNode) (es : list NetworkEdge) (c : string) (maxD : nat),
    In c (map key ns) ->
    fst (treeLevelsRun ns es c maxD) = [] /\
    JsMap.get (computeTreeLevels ns es c maxD) c = Some (mkInfo 0 None) /\
    (forall k info,
        JsMap.get (computeTreeLevels ns es c maxD) k = Some info -> k <> c ->
        exists p pinfo,
          parent info = Some p /\
          JsMap.get (computeTreeLevels ns es c maxD) p = Some pinfo /\
          depth info = depth pinfo + 1) /\
    (forall k info,
        JsMap.get (computeTreeLevels ns es c maxD) k = Some info ->
        depth info = 0 -> k = c).
Proof.
  intros ns es c maxD Hc.
  destruct (computeTreeLevels_levelInvariant ns es c maxD Hc) as [H0 Hinv].
  split; [apply computeTreeLevels_completes|].
  split; [exact H0|]. split; [exact Hinv|].
  intros k info Hget Hd. exact (depth_zero_focus ns es c maxD k info Hc Hget Hd).
Qed.

Lemma computeTreeLevels_level_invariant_witness :
  In "CENTER"%string (map key Examples.scenarioNodes) /\
  JsMap.get (computeTreeLevels Examples.scenarioNodes Examples.scenarioEdges "CENTER" 2)
    "CENTER" = Some (mkInfo 0 None).
Proof.
  assert (H : In "CENTER"%string (map key Examples.scenarioNodes)) by (simpl; tauto).
  split; [exact H|].
  exact (proj1 (proj2
    (computeTreeLevels_level_invariant Examples.scenarioNodes Examples.scenarioEdges
       "CENTER" 2 H))).
Defined.

(* ------------------------------------------------------------------ *)
(** ** The expansion path *)

Section ExpansionFacts.
Import JsMap.

Lemma joined_sym (es : list NetworkEdge) (a b : string) : joined es a b -> joined es b a.
Proof. intros [e [He H]]. exists e. tauto. Qed.

Lemma addConnection_get (m : t JsSet.t) (k v k' : string) :
  get (addConnection m k v) k'
  = match get m k' with
    | Some s => Some (if String.eqb k k' then JsSet.add s v else s)
    | None => None
    end.
Proof.
  unfold addConnection. destruct (get m k) as [s|] eqn:E.
  - rewrite get_set. destruct (String.eqb k k') eqn:E'.
    + apply String.eqb_eq in E'. subst k'. now rewrite E.
    + now destruct (get m k').
  - destruct (String.eqb k k') eqn:E'.
    + apply String.eqb_eq in E'. subst k'. now rewrite E.
    + now destruct (get m k').
Qed.

(** The connection sets after the loop over the edges [es], from the map
    [m]: the keys of [m] are unchanged and each set has gained the keys
    joined to its key by an edge of [es]. *)
Lemma connections_fold (es : list NetworkEdge) :
  forall (m : t JsSet.t) (k : string),
    match get (fold_left
                 (fun m e => addConnection (addConnection m (from e) (to e)) (to e) (from e))
                 es m) k with
    | Some s' =>
        exists s, get m k = Some s /\ forall a, In a s' <-> In a s \/ joined es k a
    | None => get m k = None
    end.
Proof.
  induction es as [|e es IH]; intros m k; simpl.
  - destruct (get m k) as [s|]; [|reflexivity].
    exists s. split; [reflexivity|]. intros a. split; [tauto|].
    intros [H | [e [[] _]]]. exact H.
  - specialize (IH (addConnection (addConnection m (from e) (to e)) (to e) (from e)) k).
    destruct (get (fold_left _ es _) k) as [s'|].
    + destruct IH as [s1 [Hs1 Hiff]]. rewrite !addConnection_get in Hs1.
      destruct (get m k) as [s|]; [|discriminate].
      exists s. split; [reflexivity|]. intros a. rewrite Hiff. injection Hs1 as <-.
      assert (Hstep : In a (if String.eqb (to e) k
                            then JsSet.add (if String.eqb (from e) k
                                            then JsSet.add s (to e) else s) (from e)
                            else if String.eqb (from e) k then JsSet.add s (to e) else s)
                      <-> In a s \/ (from e = k /\ to e = a) \/ (to e = k /\ from e = a)).
      { destruct (String.eqb_spec (to e) k) as [Et|Et];
          destruct (String.eqb_spec (from e) k) as [Ef|Ef];
          rewrite ?JsSetFacts.In_add;
          (split; intros H; decompose [or and] H; subst; try tauto; congruence). }
      rewrite Hstep. unfold joined. split.
      * intros [[H | [[H1 H2] | [H1 H2]]] | [e' [He' H]]].
        -- now left.
        -- right. exists e. split; [now left | tauto].
        -- right. exists e. split; [now left | tauto].
        -- right. exists e'. split; [now right | exact H].
      * intros [H | [e' [[<- | He'] H]]].
        -- left. now left.
        -- left. right. tauto.
        -- right. exists e'. tauto.
    + rewrite !addConnection_get in IH. now destruct (get m k).
Qed.

Lemma emptyConnections_get (ns : list NetworkNode) (k : string) :
  get (fold_left (fun m n => set m (key n) ([] : JsSet.t)) ns []) k
  = if JsSet.has (map key ns) k then Some [] else None.
Proof.
  assert (H : forall m,
             get (fold_left (fun m n => set m (key n) ([] : JsSet.t)) ns m) k
             = if JsSet.has (map key ns) k then Some [] else get m k).
  { induction ns as [|n ns IH]; intros m; simpl; [reflexivity|].
    rewrite IH, get_set. rewrite (String.eqb_sym k (key n)).
    destruct (String.eqb (key n) k); simpl; [|reflexivity].
    now destruct (JsSet.has (map key ns) k). }
  now rewrite H.
Qed.

(** The connection set of a node key holds exactly the keys joined to it;
    a key that is no node key has no connection set. *)
Lemma nodeConnectionsMap_spec (ns : list NetworkNode) (es : list NetworkEdge) (k : string) :
  match get (nodeConnectionsMap ns es) k with
  | Some s => In k (map key ns) /\ forall a, In a s <-> joined es k a
  | None => ~ In k (map key ns)
  end.
Proof.
  unfold nodeConnectionsMap.
  pose proof (connections_fold es
                (fold_left (fun m n => set m (key n) ([] : JsSet.t)) ns []) k) as H.
  destruct (get (fold_left _ es _) k) as [s'|].
  - destruct H as [s [Hs Hiff]]. rewrite emptyConnections_get in Hs.
    destruct (JsSet.has (map key ns) k) eqn:E; [|discriminate].
    injection Hs as <-. split; [now apply JsSetFacts.has_In|].
    intros a. rewrite Hiff. simpl. tauto.
  - rewrite emptyConnections_get in H.
    destruct (JsSet.has (map key ns) k) eqn:E; [discriminate|].
    now apply JsSetFacts.has_false.
Qed.

Lemma connections_of_node (ns : list NetworkNode) (es : list NetworkEdge) (k : string) :
  In k (map key ns) ->
  exists s, get (nodeConnectionsMap ns es) k = Some s /\ forall a, In a s <-> joined es k a.
Proof.
  intros Hk. pose proof (nodeConnectionsMap_spec ns es k) as H.
  destruct (get (nodeConnectionsMap ns es) k) as [s|].
  - exists s. split; [reflexivity | apply H].
  - contradiction.
Qed.

Lemma lastOf_app (A : Type) (l : list A) (a : A) : lastOf (l ++ [a]) = Some a.
Proof.
  unfold lastOf. rewrite List.length_app. simpl.
  replace (List.length l + 1 - 1) with (List.length l) by lia.
  rewrite nth_error_app2 by lia. now rewrite Nat.sub_diag.
Qed.

(** Scenario 1 of [onExpandClick]: a key joined to the focus is appended,
    whether or not the path holds it already. *)
Lemma onExpandClick_direct_child (rootKey : string) (ns : list NetworkNode)
  (es : list NetworkEdge) (path : list string) (f n : string) :
  n <> rootKey -> lastOf path = Some f -> In f (map key ns) -> joined es f n ->
  onExpandClick rootKey ns es path n = path ++ [n].
Proof.
  intros Hn Hlast Hf Hj. unfold onExpandClick.
  apply String.eqb_neq in Hn. rewrite Hn. simpl. rewrite Hlast.
  destruct (connections_of_node ns es f Hf) as [s [Hs Hiff]]. rewrite Hs.
  apply Hiff, JsSetFacts.has_In in Hj. now rewrite Hj.
Qed.

(** The keys [visibleNodes] keeps are those of the path and those joined
    to a focus that is a node key. *)
Lemma In_visibleKeys (ns : list NetworkNode) (es : list NetworkEdge)
  (path : list string) (f a : string) :
  lastOf path = Some f -> In f (map key ns) ->
  (In a (visibleKeys ns es path) <-> In a path \/ joined es f a).
Proof.
  intros Hlast Hf. unfold visibleKeys. rewrite Hlast.
  destruct (connections_of_node ns es f Hf) as [s [Hs Hiff]]. rewrite Hs.
  rewrite !JsSetFacts.In_fold_add, Hiff. simpl. tauto.
Qed.

Lemma visibleNodes_ext (ns : list NetworkNode) (es : list NetworkEdge) (p1 p2 : list string) :
  p1 <> [] -> p2 <> [] ->
  (forall a, In a (visibleKeys ns es p1) <-> In a (visibleKeys ns es p2)) ->
  visibleNodes ns es p1 = visibleNodes ns es p2.
Proof.
  intros H1 H2 Hiff. unfold visibleNodes.
  destruct p1 as [|a1 p1]; [congruence|]. destruct p2 as [|a2 p2]; [congruence|].
  simpl. apply filter_ext. intros n.
  destruct (JsSet.has (visibleKeys ns es (a1 :: p1)) (key n)) eqn:E1.
  - apply JsSetFacts.has_In, Hiff, JsSetFacts.has_In in E1. now rewrite E1.
  - destruct (JsSet.has (visibleKeys ns es (a2 :: p2)) (key n)) eqn:E2; [|reflexivity].
    apply JsSetFacts.has_In, Hiff, JsSetFacts.has_In in E2. congruence.
Qed.

End ExpansionFacts.

(** C3, amended. For a focus f that is not the root key and a node c
    joined to f by an edge in either direction (c not the root either):
    the expansion action on c appends c, the expansion action on f then
    appends f, and the visible nodes and edges of the resulting path
    P ++ [c; f] are exactly those of P. *)
Theorem expansion_round_trip :
  forall (rootKey : string) (ns : list NetworkNode) (es : list NetworkEdge)
         (path : list string) (f c : string),
    lastOf path = Some f ->
    In f (map key ns) -> In c (map key ns) ->
    joined es f c ->
    c <> rootKey -> f <> rootKey ->
    onExpandClick rootKey ns es path c = path ++ [c] /\
    onExpandClick rootKey ns es (path ++ [c]) f = (path ++ [c]) ++ [f] /\
    visibleNodes ns es ((path ++ [c]) ++ [f]) = visibleNodes ns es path /\
    visibleEdges ns es ((path ++ [c]) ++ [f]) = visibleEdges ns es path.
Proof.
  intros rootKey ns es path f c Hlast Hf Hc Hj Hcr Hfr.
  assert (Hvis : visibleNodes ns es ((path ++ [c]) ++ [f]) = visibleNodes ns es path).
  { apply visibleNodes_ext.
    - destruct path; discriminate.
    - intros ->. discriminate.
    - intros a.
      rewrite (In_visibleKeys ns es _ f a (lastOf_app _ _ f) Hf).
      rewrite (In_visibleKeys ns es _ f a Hlast Hf).
      rewrite !in_app_iff. simpl.
      assert (In f path).
      { unfold lastOf in Hlast. now apply nth_error_In in Hlast. }
      split; [|tauto].
      intros [[[H1 | [<- | []]] | [<- | []]] | H1]; tauto. }
  split; [now apply (onExpandClick_direct_child rootKey ns es path f c)|].
  split.
  - apply (onExpandClick_direct_child rootKey ns es (path ++ [c]) c f); try assumption.
    + apply lastOf_app.
    + now apply joined_sym.
  - split; [exact Hvis|]. unfold visibleEdges. now rewrite Hvis.
Qed.

Lemma expansion_round_trip_witness :
  visibleNodes Examples.scenarioNodes Examples.scenarioEdges
    (("CENTER" :: "A" :: nil) ++ ["C"] ++ ["A"])
  = visibleNodes Examples.scenarioNodes Examples.scenarioEdges ["CENTER"; "A"].
Proof.
  refine (proj1 (proj2 (proj2
    (expansion_round_trip "CENTER" Examples.scenarioNodes Examples.scenarioEdges
       ["CENTER"; "A"] "A" "C" eq_refl _ _ _ _ _)))).
  - simpl. tauto.
  - simpl. tauto.
  - exists (mkEdge "A" "C"). simpl. tauto.
  - discriminate.
  - discriminate.
Defined.

(** C3 as stated fails when the previous focus is the root: the expansion
    action on the root does nothing, so after drilling from CENTER into A
    the visible nodes stay CENTER, A, C instead of CENTER, A, B. *)
Lemma expansion_round_trip_counterexample :
  lastOf ["CENTER"] = Some "CENTER" /\
  joined Examples.scenarioEdges "CENTER" "A" /\
  onExpandClick "CENTER" Examples.scenarioNodes Examples.scenarioEdges
    ["CENTER"] "A" = ["CENTER"; "A"] /\
  onExpandClick "CENTER" Examples.scenarioNodes Examples.scenarioEdges
    ["CENTER"; "A"] "CENTER" = ["CENTER"; "A"] /\
  map key (visibleNodes Examples.scenarioNodes Examples.scenarioEdges ["CENTER"; "A"])
    = ["CENTER"; "A"; "C"] /\
  map key (visibleNodes Examples.scenarioNodes Examples.scenarioEdges ["CENTER"])
    = ["CENTER"; "A"; "B"] /\
  visibleNodes Examples.scenarioNodes Examples.scenarioEdges
    (onExpandClick "CENTER" Examples.scenarioNodes Examples.scenarioEdges
       (onExpandClick "CENTER" Examples.scenarioNodes Examples.scenarioEdges
          ["CENTER"] "A") "CENTER")
  <> visibleNodes Examples.scenarioNodes Examples.scenarioEdges ["CENTER"].
Proof.
  repeat split; try reflexivity.
  - exists (mkEdge "CENTER" "A"). simpl. tauto.
  - intros H. vm_compute in H. discriminate H.
Qed.

(** C2, amended. For a node n other than the root that is in the path,
    first at index i, and that no edge joins to the current focus, the
    expansion action on n truncates the path to P[0..i] inclusive. *)
Theorem drill_up_truncates :
  forall (rootKey : string) (ns : list NetworkNode) (es : list NetworkEdge)
         (path : list string) (n : string) (i : nat),
    n <> rootKey ->
    indexOf path n = Some i ->
    (forall f, lastOf path = Some f -> In f (map key ns) -> ~ joined es f n) ->
    onExpandClick rootKey ns es path n = firstn (i + 1) path.
Proof.
  intros rootKey ns es path n i Hn Hidx Hnj. unfold onExpandClick.
  apply String.eqb_neq in Hn. rewrite Hn. simpl.
  assert (Hchild :
            match match lastOf path with
                  | Some currentFocus => JsMap.get (nodeConnectionsMap ns es) currentFocus
                  | None => None
                  end with
            | Some s => JsSet.has s n
            | None => false
            end = false).
  { destruct (lastOf path) as [f|] eqn:Hlast; [|reflexivity].
    pose proof (nodeConnectionsMap_spec ns es f) as Hspec.
    destruct (JsMap.get (nodeConnectionsMap ns es) f) as [s|]; [|reflexivity].
    destruct Hspec as [Hf Hiff]. apply JsSetFacts.has_false.
    intros Hin. apply (Hnj f eq_refl Hf). now apply Hiff. }
  rewrite Hchild, Hidx. reflexivity.
Qed.

Lemma drill_up_truncates_witness :
  onExpandClick "CENTER" Examples.scenarioNodes Examples.scenarioEdges
    ["CENTER"; "A"; "C"] "C" = ["CENTER"; "A"; "C"]
  /\ onExpandClick "R" Examples.scenarioNodes Examples.scenarioEdges
       ["B"; "CENTER"; "A"; "C"] "B" = ["B"].
Proof.
  split.
  - refine (drill_up_truncates "CENTER" Examples.scenarioNodes Examples.scenarioEdges
              ["CENTER"; "A"; "C"] "C" 2 _ eq_refl _).
    + discriminate.
    + intros f Hf _ [e [He H]]. injection Hf as <-.
      simpl in He. decompose [or] He; subst; simpl in H;
        try contradiction; decompose [or and] H; discriminate.
  - refine (drill_up_truncates "R" Examples.scenarioNodes Examples.scenarioEdges
              ["B"; "CENTER"; "A"; "C"] "B" 0 _ eq_refl _).
    + discriminate.
    + intros f Hf _ [e [He H]]. injection Hf as <-.
      simpl in He. decompose [or] He; subst; simpl in H;
        try contradiction; decompose [or and] H; discriminate.
Defined.

(** C2 as stated fails for a path node that an edge joins to the focus
    (the focus's predecessor always is one): the action appends it. *)
Lemma drill_up_counterexample :
  "A" <> "CENTER" /\
  indexOf ["CENTER"; "A"; "C"] "A" = Some 1 /\
  onExpandClick "CENTER" Examples.scenarioNodes Examples.scenarioEdges
    ["CENTER"; "A"; "C"] "A" = ["CENTER"; "A"; "C"; "A"] /\
  onExpandClick "CENTER" Examples.scenarioNodes Examples.scenarioEdges
    ["CENTER"; "A"; "C"] "A" <> firstn (1 + 1) ["CENTER"; "A"; "C"].
Proof.
  repeat split; try reflexivity; try discriminate.
Qed.

(* ------------------------------------------------------------------ *)
(** ** The rectangular ring *)

(** C5, the code at the inputs of the specification's scenario. At u = 0
    [pointOnRectPerimeter] returns the top-right corner (halfW, -halfH),
    not the midpoint (halfW, 0) of the right edge that the specification
    and the function's own comment name; the walk is clockwise from that
    corner. With
    halfW = halfH = 200 and four outer-ring nodes the layout places them at
    u = 0.015, 0.265, 0.515, 0.765, that is at (200, -176), (176, 200),
    (-200, 176) and (-176, -200): on the perimeter, a quarter of the
    perimeter apart, 24 units after each corner. *)
Theorem pointOnRectPerimeter_starts_at_corner :
  pointOnRectPerimeter 0 200 200 = mkPos 200 (-200) /\
  pointOnRectPerimeter 0.25 200 200 = mkPos 200 200 /\
  pointOnRectPerimeter 0.5 200 200 = mkPos (-200) 200 /\
  pointOnRectPerimeter 0.75 200 200 = mkPos (-200) (-200) /\
  @computeRadialLayoutAdvanced Reference.runtime Examples.ringParams
  = Some [("c", mkPos 0 0); ("k1", mkPos 200 (-176)); ("k2", mkPos 176 200);
          ("k3", mkPos (-200) 176); ("k4", mkPos (-176) (-200))].
Proof.
  repeat split; vm_compute; reflexivity.
Qed.

(* ------------------------------------------------------------------ *)
(** ** The viewport fit *)

Lemma size_zero_empty (V : Type) (m : JsMap.t V) : JsMap.size m = 0 -> m = [].
Proof. destruct m; [reflexivity | discriminate]. Qed.

Lemma computeGraphBounds_empty : computeGraphBounds [] = None.
Proof. vm_compute. reflexivity. Qed.

(** C6, amended. When the position map is empty or yields no finite
    bounding box, [computeGraphBounds] returns no bounds and [zoomToFit]
    returns without applying any transform: a no-op, whatever the
    viewport. *)
Theorem zoomToFit_without_bounds :
  forall (v : Viewport) (posMap : JsMap.t NodePos),
    JsMap.size posMap = 0 \/ computeGraphBounds posMap = None ->
    computeGraphBounds posMap = None /\ zoomToFit v posMap = None.
Proof.
  intros v posMap [Hsize | Hnone].
  - apply size_zero_empty in Hsize. subst posMap.
    split; [apply computeGraphBounds_empty | reflexivity].
  - split; [exact Hnone|]. unfold zoomToFit. rewrite Hnone.
    destruct (JsMap.size posMap =? 0)%nat; [reflexivity|].
    destruct ((measuredWidth v =? 0)%float || (measuredHeight v =? 0)%float); reflexivity.
Qed.

Lemma zoomToFit_without_bounds_witness :
  zoomToFit Examples.viewport [("a", mkPos nan 0)] = None.
Proof.
  refine (proj2 (zoomToFit_without_bounds Examples.viewport [("a", mkPos nan 0)] _)).
  right. vm_compute. reflexivity.
Defined.

(** C6 as stated fails: on the empty map [zoomToFit] hands no transform to
    [applyTransform], so there is no sentinel transform; a map with
    content gets one. *)
Lemma zoomToFit_counterexample :
  computeGraphBounds [] = None /\
  ~ (exists t, zoomToFit Examples.viewport [] = Some t) /\
  zoomToFit Examples.viewport [("a", mkPos 0 0)] = Some (mkTransform 1 400 300).
Proof.
  split; [apply computeGraphBounds_empty|]. split.
  - intros [t Ht]. discriminate Ht.
  - vm_compute. reflexivity.
Qed.

(* ------------------------------------------------------------------ *)
(** ** Aggregated edges *)

Section AggregationFacts.
Import JsMap.

(** The count stored for the ordered pair [(gF, gT)]. *)
Definition countAt (m : t (t nat)) (gF gT : string) : option nat :=
  match get m gF with Some inner => get inner gT | None => None end.

(** The update of one counted edge. *)
Definition bumpAt (m : t (t nat)) (gF gT : string) : t (t nat) :=
  let m' := if has m gF then m else set m gF [] in
  let inner := match get m' gF with Some i => i | None => [] end in
  set m' gF (set inner gT (match get inner gT with Some c => c | None => 0 end + 1)).

(** The pair of groups an edge is counted for by the code, if any. *)
Definition countedPair (n2g : t string) (groupSizes : t nat) (e : NetworkEdge)
  : option (string * string) :=
  match get n2g (from e), get n2g (to e) with
  | Some gF, Some gT =>
      if negb (truthy (Some gF)) || negb (truthy (Some gT)) then None
      else if String.eqb gF gT then None
      else if (sizeOf groupSizes gF =? 1)%nat && (sizeOf groupSizes gT =? 1)%nat then None
      else Some (gF, gT)
  | _, _ => None
  end.

Lemma countEdge_countedPair (n2g : t string) (groupSizes : t nat) (m : t (t nat))
  (e : NetworkEdge) :
  countEdge n2g groupSizes m e
  = match countedPair n2g groupSizes e with
    | Some (gF, gT) => bumpAt m gF gT
    | None => m
    end.
Proof.
  unfold countEdge, countedPair, bumpAt.
  destruct (get n2g (from e)) as [gF|]; destruct (get n2g (to e)) as [gT|]; simpl;
    try reflexivity.
  - destruct (negb (negb (String.eqb gF "")) || negb (negb (String.eqb gT ""))); [reflexivity|].
    destruct (String.eqb gF gT); [reflexivity|].
    destruct ((sizeOf groupSizes gF =? 1)%nat && (sizeOf groupSizes gT =? 1)%nat); reflexivity.
  - now destruct (negb (negb (String.eqb gF "")) || true).
Qed.

Lemma countAt_bumpAt (m : t (t nat)) (gF gT a b : string) :
  countAt (bumpAt m gF gT) a b
  = if String.eqb gF a && String.eqb gT b
    then Some (match countAt m a b with Some c => c | None => 0 end + 1)
    else countAt m a b.
Proof.
  unfold countAt, bumpAt. rewrite get_set.
  destruct (String.eqb_spec gF a) as [<-|Hne]; simpl.
  - rewrite get_set.
    assert (Hinner : match get (if has m gF then m else set m gF []) gF with
                     | Some i => i | None => [] end
                     = match get m gF with Some i => i | None => [] end).
    { unfold has. destruct (get m gF) eqn:E; [now rewrite E|]. now rewrite get_set_same. }
    rewrite Hinner.
    destruct (String.eqb_spec gT b) as [<-|Hne'].
    + now destruct (get m gF).
    + now destruct (get m gF).
  - unfold has. destruct (get m gF) eqn:E; [reflexivity|].
    rewrite get_set_other; [reflexivity | congruence].
Qed.

(** Outer and inner maps keep distinct keys. *)
Definition distinctKeys (m : t (t nat)) : Prop :=
  NoDup (keys m) /\ forall g inner, get m g = Some inner -> NoDup (keys inner).

Lemma bumpAt_distinctKeys (m : t (t nat)) (gF gT : string) :
  distinctKeys m -> distinctKeys (bumpAt m gF gT).
Proof.
  intros [Hnd Hin]. unfold bumpAt. split.
  - apply NoDup_keys_set. destruct (has m gF); [assumption | now apply NoDup_keys_set].
  - intros g inner. rewrite get_set. destruct (String.eqb gF g).
    + intros [= <-]. apply NoDup_keys_set.
      unfold has. destruct (get m gF) as [i|] eqn:E.
      * rewrite E. now apply (Hin gF).
      * rewrite get_set_same. constructor.
    + unfold has. destruct (get m gF) as [i|] eqn:E; [apply Hin|].
      rewrite get_set. destruct (String.eqb gF g); [|apply Hin].
      intros [= <-]. constructor.
Qed.

Definition bump (v : option nat) (c : nat) : option nat :=
  match c with
  | O => v
  | S _ => Some (match v with Some b => b | None => 0 end + c)
  end.

Lemma bump_bump (v : option nat) (a b : nat) : bump (bump v a) b = bump v (a + b).
Proof.
  destruct a as [|a]; [reflexivity|]. destruct b as [|b]; simpl.
  - now rewrite Nat.add_0_r.
  - f_equal. lia.
Qed.

(** The pair the code counts an edge for, as a test on a given pair. *)
Definition countedFor (n2g : t string) (groupSizes : t nat) (a b : string)
  (e : NetworkEdge) : bool :=
  match countedPair n2g groupSizes e with
  | Some (gF, gT) => String.eqb gF a && String.eqb gT b
  | None => false
  end.

Lemma fold_countEdge (n2g : t string) (groupSizes : t nat) (es : list NetworkEdge) :
  forall m a b,
    distinctKeys m ->
    distinctKeys (fold_left (countEdge n2g groupSizes) es m) /\
    countAt (fold_left (countEdge n2g groupSizes) es m) a b
    = bump (countAt m a b) (List.length (filter (countedFor n2g groupSizes a b) es)).
Proof.
  induction es as [|e es IH]; intros m a b Hm; simpl; [now split|].
  assert (Hstep : distinctKeys (countEdge n2g groupSizes m e) /\
                  countAt (countEdge n2g groupSizes m e) a b
                  = bump (countAt m a b) (if countedFor n2g groupSizes a b e then 1 else 0)).
  { rewrite countEdge_countedPair. unfold countedFor.
    destruct (countedPair n2g groupSizes e) as [[gF gT]|]; [|now split].
    split; [now apply bumpAt_distinctKeys|].
    rewrite countAt_bumpAt. now destruct (String.eqb gF a && String.eqb gT b). }
  destruct Hstep as [Hd Hc].
  destruct (IH (countEdge n2g groupSizes m e) a b Hd) as [Hd' Hc'].
  split; [exact Hd'|]. rewrite Hc', Hc, bump_bump.
  now destruct (countedFor n2g groupSizes a b e).
Qed.

(** For a node-to-group map with no empty group key and recorded sizes of
    at least one member, the code counts an edge for a pair exactly when
    the edge counts toward it in the specification's words. *)
Lemma countedFor_countsToward (n2g : t string) (groupSizes : t nat) (a b : string)
  (e : NetworkEdge) :
  (forall k g, get n2g k = Some g -> g <> "") ->
  (forall g n, get groupSizes g = Some n -> 1 <= n) ->
  countedFor n2g groupSizes a b e = countsToward n2g groupSizes a b e.
Proof.
  intros Hkeys Hsizes. unfold countedFor, countedPair, countsToward.
  destruct (get n2g (from e)) as [gF|] eqn:EF; [|reflexivity].
  destruct (get n2g (to e)) as [gT|] eqn:ET; [|reflexivity].
  simpl.
  assert (HF : String.eqb gF "" = false) by (apply String.eqb_neq; eauto).
  assert (HT : String.eqb gT "" = false) by (apply String.eqb_neq; eauto).
  rewrite HF, HT. simpl.
  assert (Hsz : forall g, (sizeOf groupSizes g =? 1)%nat = negb (1 <? sizeOf groupSizes g)%nat).
  { intros g. unfold sizeOf. destruct (get groupSizes g) as [n|] eqn:E; [|reflexivity].
    apply Hsizes in E. destruct (Nat.eqb_spec n 1); destruct (Nat.ltb_spec 1 n);
      simpl; try reflexivity; lia. }
  destruct (String.eqb_spec gF a) as [->|Ha]; destruct (String.eqb_spec gT b) as [->|Hb];
    simpl.
  - destruct (String.eqb a b); simpl; [reflexivity|]. rewrite !Hsz.
    destruct (1 <? sizeOf groupSizes a)%nat; destruct (1 <? sizeOf groupSizes b)%nat;
      simpl; try reflexivity; now rewrite !String.eqb_refl.
  - destruct (String.eqb a gT); [reflexivity|].
    destruct ((sizeOf groupSizes a =? 1)%nat && (sizeOf groupSizes gT =? 1)%nat);
      [reflexivity|].
    rewrite String.eqb_refl. simpl. now apply String.eqb_neq.
  - destruct (String.eqb gF b); [reflexivity|].
    destruct ((sizeOf groupSizes gF =? 1)%nat && (sizeOf groupSizes b =? 1)%nat);
      [reflexivity|].
    apply String.eqb_neq in Ha. now rewrite Ha.
  - destruct (String.eqb gF gT); [reflexivity|].
    destruct ((sizeOf groupSizes gF =? 1)%nat && (sizeOf groupSizes gT =? 1)%nat);
      [reflexivity|].
    apply String.eqb_neq in Ha. now rewrite Ha.
Qed.

(** The emitted entries are the stored counts. *)
Lemma In_aggregated (m : t (t nat)) (gF gT : string) (c : nat) :
  distinctKeys m ->
  (In (mkAgg gF gT c)
      (flat_map (fun entry => map (fun tc => mkAgg (fst entry) (fst tc) (snd tc)) (snd entry)) m)
   <-> countAt m gF gT = Some c).
Proof.
  intros [Hnd Hin]. rewrite in_flat_map. unfold countAt. split.
  - intros [[g inner] [Hentry Hmem]]. simpl in Hmem. apply in_map_iff in Hmem.
    destruct Hmem as [[g' c'] [Heq Hmem]]. simpl in Heq. injection Heq as -> -> ->.
    apply (In_get _ _ _ _ Hnd) in Hentry. rewrite Hentry.
    apply In_get; [now apply (Hin gF) | exact Hmem].
  - destruct (get m gF) as [inner|] eqn:E; [|discriminate].
    intros Hc. exists (gF, inner). split; [now apply get_In|].
    simpl. apply in_map_iff. exists (gT, c). split; [reflexivity | now apply get_In].
Qed.

Lemma NoDup_aggregated_pairs (m : t (t nat)) :
  distinctKeys m ->
  NoDup (map (fun a => (gfrom a, gto a))
           (flat_map (fun entry =>
                        map (fun tc => mkAgg (fst entry) (fst tc) (snd tc)) (snd entry)) m)).
Proof.
  intros [Hnd Hin].
  assert (Hin' : forall g inner, In (g, inner) m -> NoDup (keys inner)).
  { intros g inner H. apply (Hin g). now apply In_get. }
  clear Hin. induction m as [|[g inner] m IH]; simpl; [constructor|].
  rewrite map_app. inversion Hnd as [|? ? Hg Hnd']; subst.
  apply NoDup_app.
  - rewrite map_map. simpl.
    assert (Hk : NoDup (keys inner)) by (apply (Hin' g); now left).
    unfold keys in Hk. clear -Hk. induction inner as [|[k c] inner IHi]; simpl; [constructor|].
    inversion Hk as [|? ? Hnotin Hk']; subst. constructor; [|now apply IHi].
    intros H. apply in_map_iff in H. destruct H as [[k' c'] [Heq H]].
    simpl in Heq. injection Heq as <-. apply Hnotin.
    change (In (fst (k', c')) (map fst inner)). now apply in_map.
  - apply IH; [assumption|]. intros g' inner' H. apply (Hin' g'). now right.
  - intros pair H1 H2. apply in_map_iff in H1. destruct H1 as [a1 [E1 H1]].
    apply in_map_iff in H1. destruct H1 as [tc [E1' _]]. subst a1. simpl in E1.
    apply in_map_iff in H2. destruct H2 as [a2 [E2 H2]].
    apply in_flat_map in H2. destruct H2 as [[g2 inner2] [Hentry H2]].
    apply in_map_iff in H2. destruct H2 as [tc2 [E2' _]]. subst a2. simpl in E2.
    subst pair. injection E2 as Hg2 _. subst g2. apply Hg.
    change (In (fst (g, inner2)) (map fst m)). now apply in_map.
Qed.

End AggregationFacts.

(** C8, amended. For a node-to-group map whose group keys are non-empty
    and a group-size map of sizes at least 1 (an absent size counts as 1): an
    aggregated edge (gF, gT, c) is emitted exactly when c is the number of
    edges whose endpoints map to gF and gT with gF <> gT and at least one
    of the two groups of more than one member, and that number is positive;
    every ordered pair is emitted at most once; and no emitted aggregated
    edge has both endpoint groups of size 1. *)
Theorem computeAggregatedEdges_counts :
  forall (es : list NetworkEdge) (n2g : JsMap.t string) (groupSizes : JsMap.t nat),
    (forall k g, JsMap.get n2g k = Some g -> g <> "") ->
    (forall g n, JsMap.get groupSizes g = Some n -> 1 <= n) ->
    (forall gF gT c,
        In (mkAgg gF gT c) (computeAggregatedEdges es n2g groupSizes) <->
        c = List.length (filter (countsToward n2g groupSizes gF gT) es) /\ 0 < c) /\
    NoDup (map (fun a => (gfrom a, gto a)) (computeAggregatedEdges es n2g groupSizes)) /\
    (forall a,
        In a (computeAggregatedEdges es n2g groupSizes) ->
        ~ (sizeOf groupSizes (gfrom a) = 1 /\ sizeOf groupSizes (gto a) = 1)).
Proof.
  intros es n2g groupSizes Hkeys Hsizes.
  assert (Hempty : distinctKeys []).
  { split; [constructor | intros g inner H; discriminate H]. }
  assert (Hin : forall gF gT c,
             In (mkAgg gF gT c) (computeAggregatedEdges es n2g groupSizes) <->
             c = List.length (filter (countsToward n2g groupSizes gF gT) es) /\ 0 < c).
  { intros gF gT c. unfold computeAggregatedEdges.
    destruct (fold_countEdge n2g groupSizes es [] gF gT Hempty) as [Hd Hc].
    rewrite (In_aggregated _ gF gT c Hd), Hc.
    rewrite (filter_ext _ _ (fun e => countedFor_countsToward n2g groupSizes gF gT e
                                        Hkeys Hsizes)).
    unfold countAt. simpl.
    destruct (List.length (filter (countsToward n2g groupSizes gF gT) es)) as [|n]; simpl.
    - split; [discriminate | lia].
    - split; [intros [= <-]; lia | intros [-> _]; reflexivity]. }
  split; [exact Hin|]. split.
  - unfold computeAggregatedEdges. apply NoDup_aggregated_pairs.
    now apply (fold_countEdge n2g groupSizes es [] "" "" Hempty).
  - intros [gF gT c] Ha [H1 H2]. simpl in H1, H2. apply Hin in Ha.
    destruct Ha as [-> Hpos].
    destruct (filter (countsToward n2g groupSizes gF gT) es) as [|e l] eqn:E;
      [simpl in Hpos; lia|].
    assert (He : In e (filter (countsToward n2g groupSizes gF gT) es))
      by (rewrite E; now left).
    apply filter_In in He. destruct He as [_ He]. unfold countsToward in He.
    destruct (JsMap.get n2g (from e)); [|discriminate].
    destruct (JsMap.get n2g (to e)); [|discriminate].
    rewrite H1, H2 in He. simpl in He. now rewrite andb_false_r in He.
Qed.

Lemma computeAggregatedEdges_counts_witness :
  In (mkAgg "G1" "G2" 2)
     (computeAggregatedEdges Examples.clusteredEdges Examples.clusteredNodeToGroup
        Examples.clusteredGroupSizes).
Proof.
  refine (proj2 (proj1 (computeAggregatedEdges_counts Examples.clusteredEdges
                          Examples.clusteredNodeToGroup Examples.clusteredGroupSizes _ _)
                   "G1" "G2" 2) _).
  - intros k g H. apply get_In in H. simpl in H.
    repeat (destruct H as [H|H]; [injection H as <- <-; discriminate|]). contradiction.
  - intros g n H. apply get_In in H. simpl in H.
    repeat (destruct H as [H|H]; [injection H as <- <-; lia|]). contradiction.
  - split; [reflexivity | lia].
Defined.

(** C8 as stated fails for a size map that records the size 0 and for a
    node-to-group map that names the empty key. With the sizes 0 and 1 the
    edge a -> b is counted although neither group has more than one
    member: the code's test is that the two sizes are not both 1. With the
    empty string as the group of a, the edge is not counted although its
    endpoints map to two different groups, one of two members: the code's
    test of a group key is its truthiness. *)
Lemma computeAggregatedEdges_counts_counterexample :
  computeAggregatedEdges [mkEdge "a" "b"] [("a", "G1"); ("b", "G2")] [("G1", 0); ("G2", 1)]
  = [mkAgg "G1" "G2" 1] /\
  sizeOf [("G1", 0); ("G2", 1)] "G1" = 0 /\
  sizeOf [("G1", 0); ("G2", 1)] "G2" = 1 /\
  filter (countsToward [("a", "G1"); ("b", "G2")] [("G1", 0); ("G2", 1)] "G1" "G2")
    [mkEdge "a" "b"] = [] /\
  computeAggregatedEdges [mkEdge "a" "b"] [("a", ""); ("b", "G2")] [("G2", 2)] = [] /\
  filter (countsToward [("a", ""); ("b", "G2")] [("G2", 2)] "" "G2") [mkEdge "a" "b"]
  = [mkEdge "a" "b"].
Proof.
  repeat split; vm_compute; reflexivity.
Qed.

(* ------------------------------------------------------------------ *)
(** ** Binary64 facts *)

Section NumberFacts.
Local Open Scope float_scope.

Lemma isFinite_not_nan (a : float) : isFinite a = true -> PrimFloat.is_nan a = false.
Proof. unfold isFinite. destruct (PrimFloat.is_nan a); simpl; congruence. Qed.

Lemma infinity_ltb (v : float) : (infinity <? v) = false.
Proof.
  rewrite FloatAxioms.ltb_spec.
  change (Prim2SF infinity) with (S754_infinity false).
  unfold SFltb. destruct (Prim2SF v) as [s|s| |s m e]; simpl; try reflexivity.
  now destruct s.
Qed.

Lemma ltb_neg_infinity (v : float) : (v <? neg_infinity) = false.
Proof.
  rewrite FloatAxioms.ltb_spec.
  change (Prim2SF neg_infinity) with (S754_infinity true).
  unfold SFltb. destruct (Prim2SF v) as [s|s| |s m e]; simpl; try reflexivity.
  now destruct s.
Qed.

Lemma Math_min_infinity (v : float) : PrimFloat.is_nan v = false -> Math_min infinity v = v.
Proof.
  intros H. unfold Math_min. rewrite H, infinity_ltb.
  change (PrimFloat.is_nan infinity) with false. simpl.
  change (PrimFloat.get_sign infinity) with false.
  now destruct (v <? infinity).
Qed.

Lemma Math_max_neg_infinity (v : float) :
  PrimFloat.is_nan v = false -> Math_max neg_infinity v = v.
Proof.
  intros H. unfold Math_max. rewrite H, ltb_neg_infinity.
  change (PrimFloat.is_nan neg_infinity) with false. simpl.
  change (PrimFloat.get_sign neg_infinity) with true.
  now destruct (neg_infinity <? v).
Qed.

Lemma Math_min_nan_r (a v : float) : PrimFloat.is_nan v = true -> Math_min a v = nan.
Proof. intros H. unfold Math_min. rewrite H. now rewrite orb_true_r. Qed.

Lemma Math_max_nan_r (a v : float) : PrimFloat.is_nan v = true -> Math_max a v = nan.
Proof. intros H. unfold Math_max. rewrite H. now rewrite orb_true_r. Qed.

Lemma Math_min_finite (a v : float) :
  isFinite a = true -> isFinite v = true -> isFinite (Math_min a v) = true.
Proof.
  intros Ha Hv. unfold Math_min.
  rewrite (isFinite_not_nan a Ha), (isFinite_not_nan v Hv). simpl.
  destruct (a <? v); [assumption|]. destruct (v <? a); [assumption|].
  now destruct (PrimFloat.get_sign a).
Qed.

Lemma Math_max_finite (a v : float) :
  isFinite a = true -> isFinite v = true -> isFinite (Math_max a v) = true.
Proof.
  intros Ha Hv. unfold Math_max.
  rewrite (isFinite_not_nan a Ha), (isFinite_not_nan v Hv). simpl.
  destruct (a <? v); [assumption|]. destruct (v <? a); [assumption|].
  now destruct (PrimFloat.get_sign a).
Qed.

(** A number whose minimum with +infinity is finite is finite itself, and
    likewise for the maximum with -infinity. *)
Lemma finite_of_min_infinity (v : float) :
  isFinite (Math_min infinity v) = true -> isFinite v = true.
Proof.
  intros H. destruct (PrimFloat.is_nan v) eqn:E.
  - rewrite (Math_min_nan_r infinity v E) in H. discriminate H.
  - now rewrite (Math_min_infinity v E) in H.
Qed.

Lemma finite_of_max_neg_infinity (v : float) :
  isFinite (Math_max neg_infinity v) = true -> isFinite v = true.
Proof.
  intros H. destruct (PrimFloat.is_nan v) eqn:E.
  - rewrite (Math_max_nan_r neg_infinity v E) in H. discriminate H.
  - now rewrite (Math_max_neg_infinity v E) in H.
Qed.

Lemma padBounds_finite (b : ClusterBounds) (p : NodePos) :
  finiteBounds b = true -> finitePadded p = true -> finiteBounds (padBounds b p) = true.
Proof.
  unfold finitePadded, finiteBounds, padBounds. simpl.
  rewrite !andb_true_iff. intros [[[B1 B2] B3] B4] [[[P1 P2] P3] P4].
  apply finite_of_min_infinity in P1, P2. apply finite_of_max_neg_infinity in P3, P4.
  repeat split; (apply Math_min_finite || apply Math_max_finite); assumption.
Qed.

End NumberFacts.

(* ------------------------------------------------------------------ *)
(** ** Sorting *)

Section SortFacts.
Variables (A : Type) (cmp : A -> A -> comparison).

Lemma In_insertBy (a b : A) (l : list A) : In b (insertBy cmp a l) <-> b = a \/ In b l.
Proof.
  induction l as [|c l IH]; simpl.
  - intuition congruence.
  - destruct (cmp a c); simpl; rewrite ?IH; intuition congruence.
Qed.

Lemma In_sortBy (b : A) (l : list A) : In b (sortBy cmp l) <-> In b l.
Proof.
  induction l as [|a l IH]; simpl; [tauto|].
  rewrite In_insertBy, IH. intuition congruence.
Qed.

Lemma insertBy_perm (a : A) (l : list A) : Permutation (insertBy cmp a l) (a :: l).
Proof.
  induction l as [|c l IH]; simpl; [apply Permutation_refl|].
  destruct (cmp a c); try apply Permutation_refl.
  rewrite IH. apply perm_swap.
Qed.

Lemma sortBy_perm (l : list A) : Permutation (sortBy cmp l) l.
Proof.
  induction l as [|a l IH]; simpl; [constructor|].
  rewrite insertBy_perm. now constructor.
Qed.

End SortFacts.

Lemma list_sum_perm (l1 l2 : list nat) : Permutation l1 l2 -> list_sum l1 = list_sum l2.
Proof.
  induction 1; simpl; lia.
Qed.

(* ------------------------------------------------------------------ *)
(** ** Grid clusters *)

Section ClusterFacts.
Import JsMap.
Context {rt : JsRuntime}.
Variables (positions : t NodePos) (gridSize : float).

(** Node [n] has a position, in the cell of key [gk]. *)
Definition inCell (gk : string) (n : NetworkNode) : bool :=
  match get positions (key n) with
  | Some p => String.eqb (gridKey p gridSize) gk
  | None => false
  end.

Definition membersOf (gk : string) (done : list NetworkNode) : list string :=
  map key (filter (inCell gk) done).

(** The group of cell [gk] once the nodes [done] are processed. *)
Definition groupFor (gk : string) (done : list NetworkNode) : option ClusterGroup :=
  match membersOf gk done with
  | [] => None
  | ms => Some (mkGroup gk ms (paddedBox positions ms) origin)
  end.

Lemma membersOf_app (gk : string) (done : list NetworkNode) (n : NetworkNode) :
  membersOf gk (done ++ [n])
  = membersOf gk done ++ (if inCell gk n then [key n] else []).
Proof.
  unfold membersOf. rewrite filter_app, map_app. simpl. now destruct (inCell gk n).
Qed.

Lemma paddedBox_app (ms : list string) (k : string) (p : NodePos) :
  get positions k = Some p ->
  paddedBox positions (ms ++ [k]) = padBounds (paddedBox positions ms) p.
Proof.
  intros H. unfold paddedBox. rewrite fold_left_app. simpl. now rewrite H.
Qed.

Lemma addToCluster_groups (done : list NetworkNode)
  (st : t ClusterGroup * t string) (n : NetworkNode) :
  (forall gk, get (fst st) gk = groupFor gk done) ->
  forall gk, get (fst (addToCluster positions gridSize st n)) gk = groupFor gk (done ++ [n]).
Proof.
  intros Hst gk. unfold addToCluster, groupFor. rewrite membersOf_app. unfold inCell.
  destruct (get positions (key n)) as [p|] eqn:Ep.
  - cbn [fst]. rewrite get_set.
    destruct (String.eqb_spec (gridKey p gridSize) gk) as [<-|Hne].
    + rewrite Hst. unfold groupFor.
      destruct (membersOf (gridKey p gridSize) done) as [|m ms] eqn:Em.
      * cbn [app gkey members bounds center]. unfold paddedBox. cbn [fold_left].
        now rewrite Ep.
      * cbn [app gkey members bounds center].
        change (m :: ms ++ [key n]) with ((m :: ms) ++ [key n]).
        now rewrite (paddedBox_app _ _ p Ep).
    + rewrite app_nil_r. apply Hst.
  - rewrite app_nil_r. apply Hst.
Qed.

Lemma fold_addToCluster_groups (rest : list NetworkNode) :
  forall (done : list NetworkNode) (st : t ClusterGroup * t string),
    (forall gk, get (fst st) gk = groupFor gk done) ->
    forall gk,
      get (fst (fold_left (addToCluster positions gridSize) rest st)) gk
      = groupFor gk (done ++ rest).
Proof.
  induction rest as [|n rest IH]; intros done st Hst gk; simpl.
  - rewrite app_nil_r. apply Hst.
  - replace (done ++ n :: rest) with ((done ++ [n]) ++ rest)
      by (rewrite <- app_assoc; reflexivity).
    apply IH. now apply addToCluster_groups.
Qed.

Lemma fold_addToCluster_NoDup (ns : list NetworkNode) (st : t ClusterGroup * t string) :
  NoDup (keys (fst st)) ->
  NoDup (keys (fst (fold_left (addToCluster positions gridSize) ns st))).
Proof.
  intros H. apply (fold_left_invariant _ _ (fun s => NoDup (keys (fst s)))); [exact H|].
  intros s n Hs _. unfold addToCluster.
  destruct (get positions (key n)); [simpl; now apply NoDup_keys_set | exact Hs].
Qed.

(** The groups map after the loop over [ns]. *)
Lemma groupsMap_spec (ns : list NetworkNode) (gk : string) :
  get (fst (fold_left (addToCluster positions gridSize) ns ([], []))) gk = groupFor gk ns.
Proof.
  apply (fold_addToCluster_groups ns [] ([], [])). intros gk'. reflexivity.
Qed.

(** *** The total of the member counts *)

Definition membersTotal (gs : list ClusterGroup) : nat :=
  list_sum (map (fun g => List.length (members g)) gs).

Lemma membersTotal_set (m : t ClusterGroup) (k : string) (g' : ClusterGroup) :
  membersTotal (values (set m k g'))
  + match get m k with Some g => List.length (members g) | None => 0 end
  = membersTotal (values m) + List.length (members g').
Proof.
  unfold membersTotal, values. induction m as [|[k0 g0] m IH]; simpl; [lia|].
  destruct (String.eqb k0 k); simpl; lia.
Qed.

Definition hasPosition (n : NetworkNode) : bool := has positions (key n).

Lemma fold_addToCluster_total (ns : list NetworkNode) :
  forall st : t ClusterGroup * t string,
    membersTotal (values (fst (fold_left (addToCluster positions gridSize) ns st)))
    = membersTotal (values (fst st)) + List.length (filter hasPosition ns).
Proof.
  induction ns as [|n ns IH]; intros st; simpl; [lia|].
  rewrite IH. unfold addToCluster, hasPosition, has.
  destruct (get positions (key n)) as [p|]; simpl; [|lia].
  pose proof (membersTotal_set (fst st) (gridKey p gridSize)
                (mkGroup
                   (gkey match get (fst st) (gridKey p gridSize) with
                         | Some g => g
                         | None => mkGroup (gridKey p gridSize) [] emptyBounds origin
                         end)
                   (members match get (fst st) (gridKey p gridSize) with
                            | Some g => g
                            | None => mkGroup (gridKey p gridSize) [] emptyBounds origin
                            end ++ [key n])
                   (padBounds
                      (bounds match get (fst st) (gridKey p gridSize) with
                              | Some g => g
                              | None => mkGroup (gridKey p gridSize) [] emptyBounds origin
                              end) p)
                   (center match get (fst st) (gridKey p gridSize) with
                           | Some g => g
                           | None => mkGroup (gridKey p gridSize) [] emptyBounds origin
                           end))) as H.
  simpl in H. rewrite List.length_app in H. simpl in H.
  destruct (get (fst st) (gridKey p gridSize)); simpl in H |- *; lia.
Qed.

(** *** The node-to-group map *)

Lemma fold_addToCluster_nodeToGroup (rest : list NetworkNode) :
  forall (done : list NetworkNode) (st : t ClusterGroup * t string),
    (forall k,
        get (snd st) k
        = if JsSet.has (map key done) k
          then option_map (fun p => gridKey p gridSize) (get positions k)
          else None) ->
    forall k,
      get (snd (fold_left (addToCluster positions gridSize) rest st)) k
      = if JsSet.has (map key (done ++ rest)) k
        then option_map (fun p => gridKey p gridSize) (get positions k)
        else None.
Proof.
  induction rest as [|n rest IH]; intros done st Hst k; simpl.
  - rewrite app_nil_r. apply Hst.
  - replace (done ++ n :: rest) with ((done ++ [n]) ++ rest)
      by (rewrite <- app_assoc; reflexivity).
    revert k. apply IH. intros k.
    assert (Hhas : JsSet.has (map key (done ++ [n])) k
                   = JsSet.has (map key done) k || String.eqb k (key n)).
    { unfold JsSet.has. rewrite map_app, existsb_app. simpl. now rewrite orb_false_r. }
    rewrite Hhas. unfold addToCluster.
    destruct (get positions (key n)) as [p|] eqn:Ep; simpl.
    + rewrite get_set. rewrite (String.eqb_sym k (key n)).
      destruct (String.eqb_spec (key n) k) as [<-|Hne].
      * rewrite orb_true_r, Ep. reflexivity.
      * rewrite orb_false_r. apply Hst.
    + rewrite Hst. destruct (String.eqb_spec k (key n)) as [Heq|Hne].
      * rewrite Heq, orb_true_r, Ep. simpl. now destruct (JsSet.has (map key done) (key n)).
      * now rewrite orb_false_r.
Qed.

Lemma nodeToGroup_spec (ns : list NetworkNode) (k : string) :
  get (snd (fold_left (addToCluster positions gridSize) ns ([], []))) k
  = if JsSet.has (map key ns) k
    then option_map (fun p => gridKey p gridSize) (get positions k)
    else None.
Proof.
  apply (fold_addToCluster_nodeToGroup ns [] ([], [])). intros k'. reflexivity.
Qed.

(** *** The emitted groups *)

Lemma finalizeGroup_Some (g g' : ClusterGroup) :
  finalizeGroup g = Some g' <->
  finiteBounds (bounds g) = true /\
  g' = mkGroup (gkey g) (members g) (bounds g) (midpoint (bounds g)).
Proof.
  unfold finalizeGroup, finiteBounds, midpoint.
  destruct (isFinite (minX (bounds g))); destruct (isFinite (minY (bounds g)));
    destruct (isFinite (maxX (bounds g))); destruct (isFinite (maxY (bounds g)));
    simpl; split; try discriminate; try (intros [H _]; discriminate H).
  - intros [= <-]. now split.
  - intros [_ ->]. reflexivity.
Qed.

Lemma In_finalizeGroups (m : t ClusterGroup) (g' : ClusterGroup) :
  NoDup (keys m) ->
  (In g' (finalizeGroups m) <->
   exists gk g, get m gk = Some g /\ finalizeGroup g = Some g').
Proof.
  intros Hnd. unfold finalizeGroups. rewrite in_flat_map. split.
  - intros [g [Hg Hf]]. unfold values in Hg. apply in_map_iff in Hg.
    destruct Hg as [[gk g0] [Heq Hin]]. simpl in Heq. subst g0.
    exists gk, g. split; [now apply In_get|].
    destruct (finalizeGroup g) as [g1|]; [|contradiction].
    destruct Hf as [-> | []]. reflexivity.
  - intros [gk [g [Hget Hf]]]. exists g. split.
    + unfold values. apply in_map_iff. exists (gk, g). split; [reflexivity | now apply get_In].
    + rewrite Hf. now left.
Qed.

(** Membership in the emitted groups, by the cell. *)
Lemma In_groups (ns : list NetworkNode) (g' : ClusterGroup) :
  In g' (groups (computeGridClusters ns positions gridSize)) <->
  exists gk ms,
    membersOf gk ns = ms /\ ms <> [] /\
    finiteBounds (paddedBox positions ms) = true /\
    g' = mkGroup gk ms (paddedBox positions ms) (midpoint (paddedBox positions ms)).
Proof.
  unfold computeGridClusters. simpl. rewrite In_sortBy.
  rewrite In_finalizeGroups by (apply fold_addToCluster_NoDup; constructor).
  split.
  - intros [gk [g [Hget Hf]]]. rewrite groupsMap_spec in Hget. unfold groupFor in Hget.
    destruct (membersOf gk ns) as [|m ms] eqn:Em; [discriminate|].
    injection Hget as <-. apply finalizeGroup_Some in Hf. simpl in Hf.
    destruct Hf as [Hfin ->]. exists gk, (m :: ms). repeat split; try assumption. discriminate.
  - intros [gk [ms [Hms [Hne [Hfin ->]]]]].
    exists gk, (mkGroup gk ms (paddedBox positions ms) origin). split.
    + rewrite groupsMap_spec. unfold groupFor. rewrite Hms.
      destruct ms; [congruence | reflexivity].
    + apply finalizeGroup_Some. now split.
Qed.

Lemma In_membersOf (gk k : string) (ns : list NetworkNode) :
  In k (membersOf gk ns) <->
  exists n p, In n ns /\ key n = k /\ get positions k = Some p /\ gridKey p gridSize = gk.
Proof.
  unfold membersOf. rewrite in_map_iff. split.
  - intros [n [Hk Hn]]. apply filter_In in Hn. destruct Hn as [Hn Hc].
    unfold inCell in Hc. rewrite Hk in Hc.
    destruct (get positions k) as [p|] eqn:Ep; [|discriminate].
    apply String.eqb_eq in Hc. now exists n, p.
  - intros [n [p [Hn [Hk [Hp Hg]]]]]. exists n. split; [assumption|].
    apply filter_In. split; [assumption|]. unfold inCell. rewrite Hk, Hp.
    now apply String.eqb_eq.
Qed.

Lemma paddedBox_finite (ms : list string) :
  ms <> [] ->
  (forall k, In k ms -> exists p, get positions k = Some p /\ finitePadded p = true) ->
  finiteBounds (paddedBox positions ms) = true.
Proof.
  destruct ms as [|m ms]; [congruence|]. intros _ Hall. unfold paddedBox. simpl.
  destruct (Hall m (or_introl eq_refl)) as [p [Hp Hfin]]. rewrite Hp.
  assert (Hrest : forall k, In k ms ->
                            exists p, get positions k = Some p /\ finitePadded p = true).
  { intros k Hk. apply Hall. now right. }
  clear Hall Hp. revert Hrest.
  change (finiteBounds (padBounds emptyBounds p) = true) in Hfin.
  generalize dependent (padBounds emptyBounds p). clear p.
  induction ms as [|k ms IH]; intros b Hb Hrest; simpl; [exact Hb|].
  destruct (Hrest k (or_introl eq_refl)) as [p [Hp Hfin]]. rewrite Hp.
  apply IH; [now apply padBounds_finite|]. intros k' Hk'. apply Hrest. now right.
Qed.

End ClusterFacts.

Lemma NoDup_map_filter (A B : Type) (f : A -> B) (keep : A -> bool) (l : list A) :
  NoDup (map f l) -> NoDup (map f (filter keep l)).
Proof.
  induction l as [|a l IH]; simpl; intros H; [constructor|].
  inversion H as [|? ? Hnotin Hnd]; subst.
  destruct (keep a); simpl; [|now apply IH].
  constructor; [|now apply IH].
  intros Hin. apply Hnotin. apply in_map_iff in Hin. destruct Hin as [b [Hb Hin]].
  apply filter_In in Hin. rewrite <- Hb. apply in_map. tauto.
Qed.

(** C10. Every group returned by [computeGridClusters] has at least one
    member and finite bounds; its bounds are the padded bounding box of its
    members' positions and its centre is the midpoint of those bounds. The
    centre is not the centroid of the members in general: for members at
    (0, 0), (0, 0) and (30, 0) it is (15, 0), their mean is (10, 0). *)
Theorem computeGridClusters_group_shape :
  (forall (rt : JsRuntime) (ns : list NetworkNode) (positions : JsMap.t NodePos)
          (gridSize : float) (g : ClusterGroup),
      In g (groups (computeGridClusters ns positions gridSize)) ->
      members g <> [] /\
      finiteBounds (bounds g) = true /\
      bounds g = paddedBox positions (members g) /\
      center g = midpoint (bounds g)) /\
  (map (fun g => (members g, center g))
     (groups (@computeGridClusters Reference.runtime Examples.cellNodes
                Examples.cellPositions 160))
   = [(["a"; "b"; "c"], mkPos 15 0)] /\
   centroid [mkPos 0 0; mkPos 0 0; mkPos 30 0] = mkPos 10 0).
Proof.
  split.
  - intros rt ns positions gridSize g Hg. apply In_groups in Hg.
    destruct Hg as [gk [ms [Hms [Hne [Hfin ->]]]]]. simpl. now repeat split.
  - split; vm_compute; reflexivity.
Qed.

Lemma computeGridClusters_group_shape_witness :
  Forall (fun g => center g = midpoint (bounds g))
    (groups (@computeGridClusters Reference.runtime Examples.cellNodes
               Examples.cellPositions 160)).
Proof.
  apply Forall_forall. intros g Hg.
  exact (proj2 (proj2 (proj2
    (proj1 computeGridClusters_group_shape Reference.runtime Examples.cellNodes
       Examples.cellPositions 160%float g Hg)))).
Defined.

(** C9, amended. For a node list with distinct keys and positions whose
    padded boxes are finite: every node with a position is a member of the
    group of its floor-divided grid cell, to which [nodeToGroup] maps it;
    a key is a member of at most one group and at most once; the member
    counts add up to the number of nodes with positions; and a node without
    a position is a member of no group. *)
Theorem computeGridClusters_partition :
  forall (rt : JsRuntime) (ns : list NetworkNode) (positions : JsMap.t NodePos)
         (gridSize : float),
    NoDup (map key ns) ->
    (forall n p, In n ns -> JsMap.get positions (key n) = Some p -> finitePadded p = true) ->
    (forall n p,
        In n ns -> JsMap.get positions (key n) = Some p ->
        exists g,
          In g (groups (computeGridClusters ns positions gridSize)) /\
          gkey g = gridKey p gridSize /\
          In (key n) (members g) /\
          JsMap.get (nodeToGroup (computeGridClusters ns positions gridSize)) (key n)
          = Some (gkey g)) /\
    (forall g1 g2 k,
        In g1 (groups (computeGridClusters ns positions gridSize)) ->
        In g2 (groups (computeGridClusters ns positions gridSize)) ->
        In k (members g1) -> In k (members g2) -> g1 = g2) /\
    (forall g,
        In g (groups (computeGridClusters ns positions gridSize)) -> NoDup (members g)) /\
    list_sum (map (fun g => List.length (members g))
                (groups (computeGridClusters ns positions gridSize)))
    = List.length (filter (fun n => JsMap.has positions (key n)) ns) /\
    (forall n g,
        In n ns -> JsMap.get positions (key n) = None ->
        In g (groups (computeGridClusters ns positions gridSize)) ->
        ~ In (key n) (members g)).
Proof.
  intros rt ns positions gridSize Hnd Hfinite.
  assert (Hbox : forall gk, membersOf positions gridSize gk ns <> [] ->
                   finiteBounds (paddedBox positions (membersOf positions gridSize gk ns))
                   = true).
  { intros gk Hne. apply paddedBox_finite; [exact Hne|].
    intros k Hk. apply In_membersOf in Hk. destruct Hk as [n [p [Hn [Hk [Hp _]]]]].
    exists p. split; [exact Hp|]. apply (Hfinite n p Hn). now rewrite Hk. }
  split; [|split; [|split; [|split]]].
  - intros n p Hn Hp.
    assert (Hmem : In (key n) (membersOf positions gridSize (gridKey p gridSize) ns)).
    { apply In_membersOf. now exists n, p. }
    assert (Hne : membersOf positions gridSize (gridKey p gridSize) ns <> []).
    { intros E. rewrite E in Hmem. contradiction. }
    exists (mkGroup (gridKey p gridSize)
              (membersOf positions gridSize (gridKey p gridSize) ns)
              (paddedBox positions (membersOf positions gridSize (gridKey p gridSize) ns))
              (midpoint
                 (paddedBox positions
                    (membersOf positions gridSize (gridKey p gridSize) ns)))).
    split; [|split; [|split]].
    + apply In_groups.
      exists (gridKey p gridSize), (membersOf positions gridSize (gridKey p gridSize) ns).
      split; [reflexivity|]. split; [exact Hne|]. split; [now apply Hbox | reflexivity].
    + reflexivity.
    + exact Hmem.
    + simpl. rewrite nodeToGroup_spec.
      assert (Hhas : JsSet.has (map key ns) (key n) = true).
      { apply JsSetFacts.has_In. now apply in_map. }
      now rewrite Hhas, Hp.
  - intros g1 g2 k H1 H2 Hk1 Hk2. apply In_groups in H1, H2.
    destruct H1 as [gk1 [ms1 [Hms1 [_ [_ ->]]]]].
    destruct H2 as [gk2 [ms2 [Hms2 [_ [_ ->]]]]].
    simpl in Hk1, Hk2. subst ms1 ms2.
    apply In_membersOf in Hk1, Hk2.
    destruct Hk1 as [n1 [p1 [_ [_ [Hp1 Hg1]]]]].
    destruct Hk2 as [n2 [p2 [_ [_ [Hp2 Hg2]]]]].
    rewrite Hp1 in Hp2. injection Hp2 as <-. now rewrite <- Hg1, <- Hg2.
  - intros g Hg. apply In_groups in Hg. destruct Hg as [gk [ms [Hms [_ [_ ->]]]]].
    simpl. subst ms. unfold membersOf. now apply NoDup_map_filter.
  - unfold computeGridClusters. simpl.
    rewrite (list_sum_perm _ _ (Permutation_map _ (sortBy_perm _ _ _))).
    pose proof (fold_addToCluster_total positions gridSize ns ([], [])) as Htotal.
    unfold membersTotal, hasPosition in Htotal. simpl in Htotal. rewrite <- Htotal.
    assert (Hkept : forall gs : list ClusterGroup,
               (forall g, In g gs -> finiteBounds (bounds g) = true) ->
               map (fun g => List.length (members g))
                 (flat_map (fun g => match finalizeGroup g with
                                     | Some g' => [g'] | None => [] end) gs)
               = map (fun g => List.length (members g)) gs).
    { induction gs as [|g gs IH]; intros Hall; simpl; [reflexivity|].
      rewrite map_app, IH by (intros g' Hg'; apply Hall; now right).
      destruct (finalizeGroup g) as [g'|] eqn:E.
      - apply finalizeGroup_Some in E. destruct E as [_ ->]. reflexivity.
      - exfalso. assert (Hfin : finiteBounds (bounds g) = true) by (apply Hall; now left).
        assert (Hsome : finalizeGroup g
                        = Some (mkGroup (gkey g) (members g) (bounds g) (midpoint (bounds g))))
          by (apply finalizeGroup_Some; now split).
        congruence. }
    unfold finalizeGroups. rewrite Hkept; [reflexivity|].
    intros g Hg. unfold JsMap.values in Hg. apply in_map_iff in Hg.
    destruct Hg as [[gk g0] [Heq Hin]]. simpl in Heq. subst g0.
    apply In_get in Hin; [|apply fold_addToCluster_NoDup; constructor].
    rewrite groupsMap_spec in Hin. unfold groupFor in Hin.
    destruct (membersOf positions gridSize gk ns) as [|m ms] eqn:Em; [discriminate|].
    injection Hin as <-. simpl. rewrite <- Em. apply Hbox. rewrite Em. discriminate.
  - intros n g Hn Hp Hg Hmem. apply In_groups in Hg.
    destruct Hg as [gk [ms [Hms [_ [_ ->]]]]]. simpl in Hmem. subst ms.
    apply In_membersOf in Hmem. destruct Hmem as [n' [p [_ [_ [Hp' _]]]]]. congruence.
Qed.

Lemma computeGridClusters_partition_witness :
  list_sum (map (fun g => List.length (members g))
              (groups (@computeGridClusters Reference.runtime Examples.cellNodes
                         Examples.cellPositions 160)))
  = List.length (filter (fun n => JsMap.has Examples.cellPositions (key n)) Examples.cellNodes).
Proof.
  refine (proj1 (proj2 (proj2 (proj2
    (computeGridClusters_partition Reference.runtime Examples.cellNodes
       Examples.cellPositions 160%float _ _))))).
  - simpl. repeat constructor; simpl; intuition discriminate.
  - intros n p Hn Hp. simpl in Hn.
    repeat (destruct Hn as [<-|Hn]; [injection Hp as <-; vm_compute; reflexivity|]).
    contradiction.
Defined.

(** C9 as stated fails for a position that is not a finite point: the
    node has a position, [nodeToGroup] names its cell, but the group of
    that cell has no finite bounds and is not emitted. *)
Lemma computeGridClusters_partition_counterexample :
  NoDup (map key [Examples.node "a"]) /\
  JsMap.get [("a", mkPos nan 0)] "a" = Some (mkPos nan 0) /\
  groups (@computeGridClusters Reference.runtime [Examples.node "a"]
            [("a", mkPos nan 0)] 160) = [] /\
  nodeToGroup (@computeGridClusters Reference.runtime [Examples.node "a"]
                 [("a", mkPos nan 0)] 160) = [("a", "G:NaN,0")] /\
  list_sum (map (fun g => List.length (members g))
              (groups (@computeGridClusters Reference.runtime [Examples.node "a"]
                         [("a", mkPos nan 0)] 160)))
  <> List.length (filter (fun n => JsMap.has [("a", mkPos nan 0)] (key n))
                    [Examples.node "a"]).
Proof.
  repeat split; try (vm_compute; reflexivity).
  - repeat constructor. simpl. tauto.
  - vm_compute. discriminate.
Qed.

(* ------------------------------------------------------------------ *)
(** ** The radial layout *)

(** C1, the code at a failing input. On the chain c - n1 - ... - n6 with
    maxDepth 7 every node has a LevelInfo entry, but the simple layout
    places depths 0 to 3 only (its loop runs over the depths 2 and 3) and
    the advanced layout depths 0, 1, 6 and 7 only (its loop runs over 6 and
    7): n4, n5, n6, respectively n2 to n5, get no position. The focus is at
    the origin in both. *)
Theorem radial_layout_misses_levels :
  forall rt : JsRuntime,
    JsMap.keys (computeTreeLevels Examples.chainNodes Examples.chainEdges "c" 7)
    = ["c"; "n1"; "n2"; "n3"; "n4"; "n5"; "n6"] /\
    option_map (@JsMap.keys NodePos) (computeRadialLayoutAdaptive Examples.chainSimple)
    = Some ["c"; "n1"; "n2"; "n3"] /\
    option_map (@JsMap.keys NodePos) (computeRadialLayoutAdaptive Examples.chainAdvanced)
    = Some ["c"; "n1"; "n6"] /\
    option_map (fun m => JsMap.get m "c") (computeRadialLayoutAdaptive Examples.chainSimple)
    = Some (Some origin) /\
    option_map (fun m => JsMap.get m "c") (computeRadialLayoutAdaptive Examples.chainAdvanced)
    = Some (Some origin).
Proof.
  intros rt. repeat split; vm_compute; reflexivity.
Qed.

(** *** More on the level resolver: keys and depths of the entries *)

Section LevelBounds.
Import JsMap.

Lemma bfs_queueInvariant (U : list string) (adj : t (list string)) (maxD : nat) :
  (forall cur, incl (neighbours adj cur) U) ->
  forall fuel q res,
    queueInvariant U q res ->
    queueInvariant U (fst (bfs fuel adj maxD q res)) (snd (bfs fuel adj maxD q res)).
Proof.
  intros Hadj. induction fuel as [|fuel IH]; intros q res Hinv; simpl; [exact Hinv|].
  destruct q as [|cur q'].
  - simpl. destruct Hinv as [_ [H1 H2]]. repeat split; try assumption. intros k [].
  - destruct (get res cur) as [curInfo|]; [|exact Hinv].
    assert (Hq' : queueInvariant U q' res).
    { destruct Hinv as [Hq [H1 H2]]. repeat split; try assumption.
      intros k Hk. apply Hq. now right. }
    destruct (maxD <=? depth curInfo)%nat; [now apply IH|].
    apply IH.
    now apply (fold_visit_queueInvariant U cur (depth curInfo) _ (Hadj cur) (q', res)).
Qed.

(** The entries of the level map are distinct node keys. *)
Lemma computeTreeLevels_keys (ns : list NetworkNode) (es : list NetworkEdge)
  (c : string) (maxD : nat) :
  incl (keys (computeTreeLevels ns es c maxD)) (map key ns) /\
  NoDup (keys (computeTreeLevels ns es c maxD)).
Proof.
  unfold computeTreeLevels, treeLevelsRun.
  destruct (JsSet.has (map key ns) c) eqn:E; simpl.
  - apply JsSetFacts.has_In in E.
    pose proof (bfs_queueInvariant (map key ns) (buildAdjacency ns es) maxD
                  (neighbours_in_nodes ns es) (S (List.length ns)) [c]
                  (set [] c (mkInfo 0 None)) (initial_queueInvariant _ c E)) as H.
    destruct H as [_ [H1 H2]]. now split.
  - split; [intros a [] | constructor].
Qed.

Definition depthsBelow (maxD : nat) (res : t InternalNodeInfo) : Prop :=
  forall k info, get res k = Some info -> depth info <= maxD.

Lemma fold_visit_depthsBelow (maxD : nat) (cur : string) (d : nat) (nbs : list string) :
  d < maxD ->
  forall st : list string * t InternalNodeInfo,
    depthsBelow maxD (snd st) ->
    depthsBelow maxD (snd (fold_left (visit cur d) nbs st)).
Proof.
  intros Hd st Hst.
  apply (fold_left_invariant _ _ (fun s => depthsBelow maxD (snd s))); [exact Hst|].
  intros s nb Hs _ k info. unfold visit.
  destruct (has (snd s) nb); [apply Hs|]. simpl. rewrite get_set.
  destruct (String.eqb nb k); [|apply Hs].
  intros [= <-]. simpl. lia.
Qed.

Lemma bfs_depthsBelow (adj : t (list string)) (maxD : nat) (fuel : nat) :
  forall q res, depthsBelow maxD res -> depthsBelow maxD (snd (bfs fuel adj maxD q res)).
Proof.
  induction fuel as [|fuel IH]; intros q res Hres; simpl; [exact Hres|].
  destruct q as [|cur q']; [exact Hres|].
  destruct (get res cur) as [curInfo|]; [|exact Hres].
  destruct (Nat.leb_spec maxD (depth curInfo)); [now apply IH|].
  apply IH. now apply (fold_visit_depthsBelow maxD cur (depth curInfo) _ H (q', res)).
Qed.

(** No entry of the level map is deeper than [maxDepth]. *)
Lemma computeTreeLevels_depths (ns : list NetworkNode) (es : list NetworkEdge)
  (c : string) (maxD : nat) :
  depthsBelow maxD (computeTreeLevels ns es c maxD).
Proof.
  unfold computeTreeLevels, treeLevelsRun.
  destruct (JsSet.has (map key ns) c); cbn [negb].
  - apply bfs_depthsBelow. intros k info H. simpl in H.
    destruct (String.eqb c k); [|discriminate]. injection H as <-. simpl. lia.
  - intros k info H. discriminate H.
Qed.

End LevelBounds.

(** *** The table of keys by depth *)

Section ByDepthFacts.
Import JsMap.

Definition atDepth (levels : t InternalNodeInfo) (d : nat) (n : NetworkNode) : bool :=
  match get levels (key n) with
  | Some info => (depth info =? d)%nat
  | None => false
  end.

Definition keysAtDepth (levels : t InternalNodeInfo) (d : nat) (ns : list NetworkNode)
  : list string :=
  map key (filter (atDepth levels d) ns).

Lemma nth_updateAt (A : Type) (l : list A) (i j : nat) (v dflt : A) :
  i < List.length l ->
  nth j (updateAt l i v) dflt = if (j =? i)%nat then v else nth j l dflt.
Proof.
  revert i j. induction l as [|a l IH]; intros i j Hi; simpl in Hi; [lia|].
  destruct i as [|i]; destruct j as [|j]; simpl; try reflexivity.
  apply IH. lia.
Qed.

Lemma length_updateAt (A : Type) (l : list A) (i : nat) (v : A) :
  List.length (updateAt l i v) = List.length l.
Proof.
  revert i. induction l as [|a l IH]; intros i; simpl; [reflexivity|].
  destruct i; simpl; [reflexivity | now rewrite IH].
Qed.

Lemma keysAtDepth_app (levels : t InternalNodeInfo) (d : nat)
  (done : list NetworkNode) (n : NetworkNode) :
  keysAtDepth levels d (done ++ [n])
  = keysAtDepth levels d done ++ (if atDepth levels d n then [key n] else []).
Proof.
  unfold keysAtDepth. rewrite filter_app, map_app. simpl. now destruct (atDepth levels d n).
Qed.

Lemma groupByDepth_fold (levels : t InternalNodeInfo) (rest : list NetworkNode) :
  (forall n info, In n rest -> get levels (key n) = Some info -> depth info < 8) ->
  forall (done : list NetworkNode) (tbl : list (list string)),
    List.length tbl = 8 ->
    (forall d, d < 8 -> nth d tbl [] = keysAtDepth levels d done) ->
    exists tbl',
      fold_left
        (fun acc n =>
           match acc with
           | None => None
           | Some tbl =>
               match get levels (key n) with
               | None => Some tbl
               | Some info => byDepthPush tbl (depth info) (key n)
               end
           end)
        rest (Some tbl) = Some tbl' /\
      List.length tbl' = 8 /\
      forall d, d < 8 -> nth d tbl' [] = keysAtDepth levels d (done ++ rest).
Proof.
  induction rest as [|n rest IH]; intros Hdepth done tbl Hlen Htbl; simpl.
  - exists tbl. rewrite app_nil_r. now repeat split.
  - replace (done ++ n :: rest) with ((done ++ [n]) ++ rest)
      by (rewrite <- app_assoc; reflexivity).
    assert (Hrest : forall n' info, In n' rest -> get levels (key n') = Some info ->
                                    depth info < 8).
    { intros n' info Hn'. apply Hdepth. now right. }
    destruct (get levels (key n)) as [info|] eqn:E.
    + assert (Hd : depth info < 8) by (apply (Hdepth n); [now left | exact E]).
      unfold byDepthPush.
      destruct (nth_error tbl (depth info)) as [l|] eqn:El.
      * apply (IH Hrest); [now rewrite length_updateAt|].
        intros d Hlt. rewrite nth_updateAt by lia. rewrite keysAtDepth_app.
        unfold atDepth. rewrite E. rewrite (Nat.eqb_sym d (depth info)).
        destruct (Nat.eqb_spec (depth info) d) as [Heq|Hne].
        -- subst d. rewrite <- (Htbl (depth info) Hlt).
           now rewrite (nth_error_nth tbl (depth info) [] El).
        -- rewrite app_nil_r. now apply Htbl.
      * apply nth_error_None in El. lia.
    + apply (IH Hrest); [exact Hlen|].
      intros d Hlt. rewrite keysAtDepth_app. unfold atDepth. rewrite E.
      rewrite app_nil_r. now apply Htbl.
Qed.

(** With every depth below 8 the table is built, and its row [d] lists the
    keys of the nodes at depth [d], in the order of the node list. *)
Lemma groupByDepth_spec (ns : list NetworkNode) (levels : t InternalNodeInfo) :
  depthsBelow 7 levels ->
  exists tbl,
    groupByDepth ns levels = Some tbl /\
    forall d, d < 8 -> nth d tbl [] = keysAtDepth levels d ns.
Proof.
  intros Hdepth. unfold groupByDepth.
  destruct (groupByDepth_fold levels ns) with (done := @nil NetworkNode) (tbl := byDepthInit)
    as [tbl [Hfold [_ Hnth]]].
  - intros n info _ Hget. apply Hdepth in Hget. lia.
  - reflexivity.
  - intros d Hd. unfold byDepthInit, keysAtDepth. simpl.
    do 8 (destruct d as [|d]; [reflexivity|]). lia.
  - exists tbl. now split.
Qed.

Lemma In_keysAtDepth (ns : list NetworkNode) (levels : t InternalNodeInfo)
  (d : nat) (k : string) :
  In k (keysAtDepth levels d ns) <->
  In k (map key ns) /\ exists info, get levels k = Some info /\ depth info = d.
Proof.
  unfold keysAtDepth. rewrite in_map_iff. split.
  - intros [n [Hk Hn]]. apply filter_In in Hn. destruct Hn as [Hn Hd].
    unfold atDepth in Hd. rewrite Hk in Hd.
    destruct (get levels k) as [info|]; [|discriminate].
    apply Nat.eqb_eq in Hd. split.
    + rewrite <- Hk. now apply in_map.
    + now exists info.
  - intros [Hin [info [Hget Hd]]]. apply in_map_iff in Hin.
    destruct Hin as [n [Hk Hn]]. exists n. split; [exact Hk|].
    apply filter_In. split; [exact Hn|]. unfold atDepth. rewrite Hk, Hget.
    now apply Nat.eqb_eq.
Qed.

End ByDepthFacts.

(** *** Placement loops *)

Section PlacementFold.
Import JsMap.

(** A loop whose body either leaves the position map as it is or sets the
    position of the item's key; [placed] tells which. *)
Variables (I : Type) (keyOf : I -> string) (placed : I -> bool).
Variable step : t NodePos -> I -> t NodePos.
Hypothesis step_skip : forall pos i, placed i = false -> step pos i = pos.
Hypothesis step_place :
  forall pos i, placed i = true -> exists v, step pos i = set pos (keyOf i) v.

Lemma fold_step_has (items : list I) :
  forall pos a,
    has (fold_left step items pos) a
    = has pos a || JsSet.has (map keyOf (filter placed items)) a.
Proof.
  induction items as [|i items IH]; intros pos a; simpl.
  - now rewrite orb_false_r.
  - rewrite IH. destruct (placed i) eqn:E.
    + destruct (step_place pos i E) as [v ->]. rewrite has_set. simpl.
      rewrite (String.eqb_sym a (keyOf i)).
      now destruct (has pos a); destruct (String.eqb (keyOf i) a).
    + now rewrite (step_skip pos i E).
Qed.

Lemma fold_step_frame (items : list I) :
  forall pos a,
    JsSet.has (map keyOf (filter placed items)) a = false ->
    get (fold_left step items pos) a = get pos a.
Proof.
  induction items as [|i items IH]; intros pos a Ha; simpl; [reflexivity|].
  simpl in Ha. destruct (placed i) eqn:E.
  - simpl in Ha. apply orb_false_iff in Ha. destruct Ha as [Hne Ha].
    rewrite (IH _ _ Ha). destruct (step_place pos i E) as [v ->].
    rewrite get_set, (String.eqb_sym (keyOf i) a). now rewrite Hne.
  - rewrite (IH _ _ Ha). now rewrite (step_skip pos i E).
Qed.

End PlacementFold.

Lemma map_snd_indexed (A : Type) (l : list A) : map snd (indexed l) = l.
Proof.
  unfold indexed. generalize 0. induction l as [|a l IH]; intros n; simpl; [reflexivity|].
  now rewrite IH.
Qed.

Lemma filter_all (A : Type) (l : list A) : filter (fun _ => true) l = l.
Proof. induction l as [|a l IH]; simpl; [reflexivity | now rewrite IH]. Qed.

Section LayoutFacts.
Import JsMap.
Context {rt : JsRuntime}.

(** The keys the depth loops place: those with a level entry that names a
    parent. *)
Definition placeable (levels : t InternalNodeInfo) (k : string) : bool :=
  match get levels k with
  | Some info => truthy (parent info)
  | None => false
  end.

Lemma placeCircle_has (r1 : float) (lvl1 : list string) (pos : t NodePos) (a : string) :
  has (placeCircle r1 lvl1 pos) a = has pos a || JsSet.has lvl1 a.
Proof.
  unfold placeCircle.
  rewrite (fold_step_has (nat * string) snd (fun _ => true)).
  - now rewrite filter_all, map_snd_indexed.
  - discriminate.
  - intros p i _. eexists. reflexivity.
Qed.

Lemma placeCircle_frame (r1 : float) (lvl1 : list string) (pos : t NodePos) (a : string) :
  JsSet.has lvl1 a = false -> get (placeCircle r1 lvl1 pos) a = get pos a.
Proof.
  intros Ha. unfold placeCircle.
  apply (fold_step_frame (nat * string) snd (fun _ => true)).
  - discriminate.
  - intros p i _. eexists. reflexivity.
  - now rewrite filter_all, map_snd_indexed.
Qed.

Lemma placeRing_has (ring : float) (sc : option float) (hw hh : float)
  (ks : list string) (pos : t NodePos) (a : string) :
  has (placeRing ring sc hw hh ks pos) a = has pos a || JsSet.has ks a.
Proof.
  unfold placeRing.
  rewrite (fold_step_has (nat * string) snd (fun _ => true)).
  - now rewrite filter_all, map_snd_indexed.
  - discriminate.
  - intros p i _. eexists. reflexivity.
Qed.

Lemma placeRing_frame (ring : float) (sc : option float) (hw hh : float)
  (ks : list string) (pos : t NodePos) (a : string) :
  JsSet.has ks a = false -> get (placeRing ring sc hw hh ks pos) a = get pos a.
Proof.
  intros Ha. unfold placeRing.
  apply (fold_step_frame (nat * string) snd (fun _ => true)).
  - discriminate.
  - intros p i _. eexists. reflexivity.
  - now rewrite filter_all, map_snd_indexed.
Qed.

(** The two loop bodies skip a key that is not placeable and set the
    position of one that is. *)
Lemma placeOnArc_skip (params : LayoutParams) (levels : t InternalNodeInfo)
  (cbp : t (list string)) (d : nat) (pos : t NodePos) (k : string) :
  placeable levels k = false -> placeOnArc params levels cbp d pos k = pos.
Proof.
  unfold placeable, placeOnArc. destruct (get levels k) as [info|]; [|reflexivity].
  now intros ->.
Qed.

Lemma placeOnArc_place (params : LayoutParams) (levels : t InternalNodeInfo)
  (cbp : t (list string)) (d : nat) (pos : t NodePos) (k : string) :
  placeable levels k = true ->
  exists v, placeOnArc params levels cbp d pos k = set pos k v.
Proof.
  unfold placeable, placeOnArc. destruct (get levels k) as [info|]; [|discriminate].
  intros H. rewrite H. simpl. destruct (parent info) as [p|]; [|discriminate].
  eexists. reflexivity.
Qed.

Lemma placeAdvanced_skip (params : LayoutParams) (levels : t InternalNodeInfo)
  (nodeByKey : t NetworkNode) (isExp : NetworkNode -> bool)
  (cbp : t (list string)) (d : nat) (pos : t NodePos) (k : string) :
  placeable levels k = false ->
  placeAdvanced params levels nodeByKey isExp cbp d pos k = pos.
Proof.
  unfold placeable, placeAdvanced. destruct (get levels k) as [info|]; [|reflexivity].
  now intros ->.
Qed.

Lemma placeAdvanced_place (params : LayoutParams) (levels : t InternalNodeInfo)
  (nodeByKey : t NetworkNode) (isExp : NetworkNode -> bool)
  (cbp : t (list string)) (d : nat) (pos : t NodePos) (k : string) :
  placeable levels k = true ->
  exists v, placeAdvanced params levels nodeByKey isExp cbp d pos k = set pos k v.
Proof.
  unfold placeable, placeAdvanced. destruct (get levels k) as [info|]; [|discriminate].
  intros H. rewrite H. simpl. destruct (parent info) as [p|]; [|discriminate].
  destruct (level1Layout params) as [[[|] lhw lhh lor lis]|].
  - eexists. reflexivity.
  - destruct (expandableKey nodeByKey isExp p); eexists; reflexivity.
  - eexists. reflexivity.
Qed.

(** The keys the loop over [depths] places. *)
Definition placedAt (levels : t InternalNodeInfo) (depths : list nat) (maxD : nat)
  (byDepth : list (list string)) (a : string) : bool :=
  existsb
    (fun d => negb (maxD <? d)%nat
              && JsSet.has (filter (placeable levels) (nth d byDepth [])) a)
    depths.

Lemma placeDepths_has (levels : t InternalNodeInfo) (maxD : nat)
  (byDepth : list (list string))
  (place : nat -> t NodePos -> string -> t NodePos) :
  (forall d pos k, placeable levels k = false -> place d pos k = pos) ->
  (forall d pos k, placeable levels k = true -> exists v, place d pos k = set pos k v) ->
  forall (depths : list nat) (pos : t NodePos) (a : string),
    has (placeDepths depths maxD byDepth place pos) a
    = has pos a || placedAt levels depths maxD byDepth a.
Proof.
  intros Hskip Hplace. unfold placeDepths, placedAt.
  induction depths as [|d depths IH]; intros pos a; simpl.
  - now rewrite orb_false_r.
  - rewrite IH. destruct (maxD <? d)%nat; simpl; [reflexivity|].
    rewrite (fold_step_has string (fun k => k) (placeable levels) (place d)
               (Hskip d) (Hplace d)).
    rewrite map_id. now rewrite orb_assoc.
Qed.

Lemma placeDepths_frame (levels : t InternalNodeInfo) (maxD : nat)
  (byDepth : list (list string))
  (place : nat -> t NodePos -> string -> t NodePos) :
  (forall d pos k, placeable levels k = false -> place d pos k = pos) ->
  (forall d pos k, placeable levels k = true -> exists v, place d pos k = set pos k v) ->
  forall (depths : list nat) (pos : t NodePos) (a : string),
    placedAt levels depths maxD byDepth a = false ->
    get (placeDepths depths maxD byDepth place pos) a = get pos a.
Proof.
  intros Hskip Hplace. unfold placeDepths, placedAt.
  induction depths as [|d depths IH]; intros pos a Ha; simpl; [reflexivity|].
  simpl in Ha. apply orb_false_iff in Ha. destruct Ha as [Hd Ha].
  rewrite (IH _ _ Ha). destruct (maxD <? d)%nat; simpl in Hd; [reflexivity|].
  apply (fold_step_frame string (fun k => k) (placeable levels) (place d)
           (Hskip d) (Hplace d)).
  now rewrite map_id.
Qed.

End LayoutFacts.

Section LayoutKeys.
Import JsMap.
Context {rt : JsRuntime}.

Lemma JsSet_has_ext (l1 l2 : list string) (a : string) :
  (In a l1 <-> In a l2) -> JsSet.has l1 a = JsSet.has l2 a.
Proof.
  intros H. destruct (JsSet.has l2 a) eqn:E.
  - apply JsSetFacts.has_In. apply H. now apply JsSetFacts.has_In.
  - apply JsSetFacts.has_false. intros Hin. apply JsSetFacts.has_false in E.
    apply E, H, Hin.
Qed.

Lemma In_fillOuter (oc : float) (rest : list string) :
  forall (acc : list string) (a : string),
    (In a acc -> In a (fillOuter oc acc rest)) /\
    (In a (fillOuter oc acc rest) -> In a acc \/ In a rest).
Proof.
  induction rest as [|k rest IH]; intros acc a; simpl; [tauto|].
  destruct (PrimFloat.leb oc (ofNat (List.length acc))); [tauto|].
  destruct (IH (acc ++ [k]) a) as [H1 H2]. split.
  - intros H. apply H1. apply in_or_app. now left.
  - intros H. apply H2 in H. rewrite in_app_iff in H. simpl in H. tauto.
Qed.

(** The two rings take exactly the depth-1 keys. *)
Lemma placeRectRings_has (params : LayoutParams) (l1 : Level1Layout)
  (nodeByKey : t NetworkNode) (isExp : NetworkNode -> bool)
  (lvl1 : list string) (pos : t NodePos) (a : string) :
  has (placeRectRings params l1 lvl1
         (filter (expandableKey nodeByKey isExp) lvl1)
         (filter (fun k => negb (expandableKey nodeByKey isExp k)) lvl1) pos) a
  = has pos a || JsSet.has lvl1 a.
Proof.
  unfold placeRectRings. rewrite !placeRing_has.
  set (outerKeys := fillOuter _ _ _).
  rewrite <- orb_assoc. f_equal.
  destruct (JsSet.has outerKeys a) eqn:Eo; simpl.
  - symmetry. apply JsSetFacts.has_In. apply JsSetFacts.has_In in Eo.
    apply In_fillOuter in Eo. destruct Eo as [H | H]; apply filter_In in H; tauto.
  - apply JsSet_has_ext. rewrite filter_In. split; [tauto|].
    intros H. split; [exact H|]. unfold JsSet.has in Eo.
    change (negb (JsSet.has outerKeys a) = true). unfold JsSet.has. now rewrite Eo.
Qed.

Lemma placeRectRings_frame (params : LayoutParams) (l1 : Level1Layout)
  (nodeByKey : t NetworkNode) (isExp : NetworkNode -> bool)
  (lvl1 : list string) (pos : t NodePos) (a : string) :
  JsSet.has lvl1 a = false ->
  get (placeRectRings params l1 lvl1
         (filter (expandableKey nodeByKey isExp) lvl1)
         (filter (fun k => negb (expandableKey nodeByKey isExp k)) lvl1) pos) a
  = get pos a.
Proof.
  intros Ha. apply JsSetFacts.has_false in Ha. unfold placeRectRings.
  rewrite !placeRing_frame; [reflexivity | |].
  - apply JsSetFacts.has_false. intros H. apply In_fillOuter in H.
    destruct H as [H | H]; apply filter_In in H; tauto.
  - apply JsSetFacts.has_false. intros H. apply filter_In in H. tauto.
Qed.

(** The keys a layout with depth loop [depths] gives a position: the
    focus, the depth-1 keys and the placeable keys of the depths of the
    loop. *)
Definition positioned (params : LayoutParams) (depths : list nat)
  (byDepth : list (list string)) (a : string) : bool :=
  String.eqb (centerKey params) a
  || JsSet.has (nth 1 byDepth []) a
  || placedAt
       (computeTreeLevels (nodes params) (edges params) (centerKey params) (maxDepth params))
       depths (maxDepth params) byDepth a.

Definition isByDepth (params : LayoutParams) (byDepth : list (list string)) : Prop :=
  forall d, d < 8 ->
    nth d byDepth []
    = keysAtDepth
        (computeTreeLevels (nodes params) (edges params) (centerKey params) (maxDepth params))
        d (nodes params).

Lemma levels_depthsBelow7 (params : LayoutParams) :
  maxDepth params <= 7 ->
  depthsBelow 7
    (computeTreeLevels (nodes params) (edges params) (centerKey params) (maxDepth params)).
Proof.
  intros H k info Hget. apply computeTreeLevels_depths in Hget. lia.
Qed.

Lemma computeRadialLayout_positioned (params : LayoutParams) :
  maxDepth params <= 7 ->
  exists positions byDepth,
    computeRadialLayout params = Some positions /\
    isByDepth params byDepth /\
    forall a, has positions a = positioned params [2; 3] byDepth a.
Proof.
  intros Hmax. unfold computeRadialLayout.
  destruct (groupByDepth_spec (nodes params) _ (levels_depthsBelow7 params Hmax))
    as [byDepth [-> Hnth]].
  eexists. exists byDepth. split; [reflexivity|]. split; [exact Hnth|].
  intros a. unfold positioned.
  rewrite (placeDepths_has _ _ _ _ (placeOnArc_skip params _ _) (placeOnArc_place params _ _)).
  rewrite placeCircle_has, has_set. unfold has at 1. simpl. now rewrite orb_false_r.
Qed.

Lemma computeRadialLayoutAdvanced_positioned (params : LayoutParams) :
  maxDepth params <= 7 ->
  exists positions byDepth,
    computeRadialLayoutAdvanced params = Some positions /\
    isByDepth params byDepth /\
    forall a, has positions a = positioned params [6; 7] byDepth a.
Proof.
  intros Hmax. unfold computeRadialLayoutAdvanced.
  destruct (groupByDepth_spec (nodes params) _ (levels_depthsBelow7 params Hmax))
    as [byDepth [-> Hnth]].
  eexists. exists byDepth. split; [reflexivity|]. split; [exact Hnth|].
  intros a. unfold positioned.
  rewrite (placeDepths_has _ _ _ _
             (placeAdvanced_skip params _ _ _ _) (placeAdvanced_place params _ _ _ _)).
  f_equal.
  assert (Hsorted : JsSet.has (sortBy strCompare (nth 1 byDepth [])) a
                    = JsSet.has (nth 1 byDepth []) a).
  { apply JsSet_has_ext. apply In_sortBy. }
  destruct (l1type (orElse (level1Layout params) (mkLevel1Layout circle None None None None))).
  - rewrite placeCircle_has, has_set, Hsorted. unfold has at 1. simpl.
    now rewrite orb_false_r.
  - rewrite placeRectRings_has, has_set, Hsorted. unfold has at 1. simpl.
    now rewrite orb_false_r.
Qed.

(** Every key with a position is the focus, a depth-1 key or a key the
    loop placed as the child of a parent. *)
Lemma positioned_inv (params : LayoutParams) (depths : list nat)
  (byDepth : list (list string)) (a : string) :
  isByDepth params byDepth ->
  (forall d, In d depths -> d < 8) ->
  positioned params depths byDepth a = true ->
  a = centerKey params \/
  exists info,
    get (computeTreeLevels (nodes params) (edges params) (centerKey params) (maxDepth params)) a
    = Some info /\
    (depth info = 1 \/ (In (depth info) depths /\ truthy (parent info) = true)).
Proof.
  intros Hnth Hdepths. unfold positioned, placedAt. rewrite !orb_true_iff.
  intros [[H | H] | H].
  - left. apply String.eqb_eq in H. now symmetry.
  - right. apply JsSetFacts.has_In in H. rewrite Hnth in H by lia.
    apply In_keysAtDepth in H. destruct H as [_ [info [Hget Hd]]].
    exists info. split; [exact Hget | now left].
  - right. apply existsb_exists in H. destruct H as [d [Hd H]].
    apply andb_true_iff in H. destruct H as [_ H]. apply JsSetFacts.has_In in H.
    apply filter_In in H. destruct H as [Hin Hpl].
    rewrite Hnth in Hin by (now apply Hdepths).
    apply In_keysAtDepth in Hin. destruct Hin as [_ [info [Hget Hdi]]].
    exists info. split; [exact Hget|]. right. unfold placeable in Hpl.
    rewrite Hget in Hpl. subst d. now split.
Qed.

End LayoutKeys.

Section MissingParent.
Import JsMap.
Context {rt : JsRuntime}.

(** With no position for the parent, the loop body of the simple layout
    places the child as it would with the parent at the origin. *)
Lemma placeOnArc_origin_fallback (params : LayoutParams) (levels : t InternalNodeInfo)
  (cbp : t (list string)) (d : nat) (pos : t NodePos)
  (k : string) (info : InternalNodeInfo) (p : string) :
  get levels k = Some info -> parent info = Some p -> p <> "" ->
  get pos p = None ->
  has (placeOnArc params levels cbp d pos k) k = true /\
  get (placeOnArc params levels cbp d pos k) k
  = get (placeOnArc params levels cbp d (set pos p origin) k) k.
Proof.
  intros Hget Hparent Hp Hnone. unfold placeOnArc, has. rewrite Hget, Hparent.
  apply String.eqb_neq in Hp. simpl. rewrite Hp. simpl.
  rewrite Hnone, !get_set_same. now split.
Qed.

(** The same for the loop body of the advanced layout. *)
Lemma placeAdvanced_origin_fallback (params : LayoutParams) (levels : t InternalNodeInfo)
  (nodeByKey : t NetworkNode) (isExp : NetworkNode -> bool)
  (cbp : t (list string)) (d : nat) (pos : t NodePos)
  (k : string) (info : InternalNodeInfo) (p : string) :
  get levels k = Some info -> parent info = Some p -> p <> "" ->
  get pos p = None ->
  has (placeAdvanced params levels nodeByKey isExp cbp d pos k) k = true /\
  get (placeAdvanced params levels nodeByKey isExp cbp d pos k) k
  = get (placeAdvanced params levels nodeByKey isExp cbp d (set pos p origin) k) k.
Proof.
  intros Hget Hparent Hp Hnone. unfold placeAdvanced, has. rewrite Hget, Hparent.
  apply String.eqb_neq in Hp. simpl. rewrite Hp. simpl.
  rewrite Hnone, (get_set_same _ pos p origin).
  destruct (level1Layout params) as [[[|] lhw lhh lor lis]|].
  - rewrite !get_set_same. now split.
  - destruct (expandableKey nodeByKey isExp p); rewrite !get_set_same; now split.
  - rewrite !get_set_same. now split.
Qed.

End MissingParent.

Section ChildPlacement.
Import JsMap.
Context {rt : JsRuntime}.

(** A key at one of the depths of the loop, with a level entry that names
    a parent, is among the keys the loop places. *)
Lemma placedAt_child (params : LayoutParams) (depths : list nat)
  (byDepth : list (list string)) (k : string) (info : InternalNodeInfo) :
  maxDepth params <= 7 ->
  isByDepth params byDepth ->
  get (computeTreeLevels (nodes params) (edges params) (centerKey params) (maxDepth params)) k
  = Some info ->
  truthy (parent info) = true ->
  In (depth info) depths ->
  placedAt
    (computeTreeLevels (nodes params) (edges params) (centerKey params) (maxDepth params))
    depths (maxDepth params) byDepth k = true.
Proof.
  intros Hmax Hnth Hget Hparent Hd. unfold placedAt.
  apply existsb_exists. exists (depth info). split; [exact Hd|].
  pose proof (computeTreeLevels_depths _ _ _ _ _ _ Hget) as Hle.
  assert (Hlt : (maxDepth params <? depth info)%nat = false) by (apply Nat.ltb_ge; lia).
  rewrite Hlt. simpl. apply JsSetFacts.has_In. apply filter_In. split.
  - rewrite Hnth by lia. apply In_keysAtDepth. split.
    + apply (proj1 (computeTreeLevels_keys (nodes params) (edges params)
                      (centerKey params) (maxDepth params))).
      now apply get_Some_keys in Hget.
    + now exists info.
  - unfold placeable. now rewrite Hget.
Qed.

(** The table of the layouts is the table of the keys by depth. *)
Lemma groupByDepth_isByDepth (params : LayoutParams) (byDepth : list (list string)) :
  maxDepth params <= 7 ->
  groupByDepth (nodes params)
    (computeTreeLevels (nodes params) (edges params) (centerKey params) (maxDepth params))
  = Some byDepth ->
  isByDepth params byDepth.
Proof.
  intros Hmax Hg.
  destruct (groupByDepth_spec (nodes params) _ (levels_depthsBelow7 params Hmax))
    as [tbl [Htbl Hnth]].
  rewrite Hg in Htbl. injection Htbl as <-. exact Hnth.
Qed.

(** A loop body that skips or sets the key it is given leaves the other
    keys alone. *)
Lemma place_frame (levels : t InternalNodeInfo) (place : t NodePos -> string -> t NodePos)
  (pos : t NodePos) (k a : string) :
  (placeable levels k = false -> place pos k = pos) ->
  (placeable levels k = true -> exists v, place pos k = set pos k v) ->
  a <> k -> get (place pos k) a = get pos a.
Proof.
  intros Hskip Hplace Hne. destruct (placeable levels k).
  - destruct (Hplace eq_refl) as [v ->]. now apply get_set_other.
  - now rewrite Hskip.
Qed.

End ChildPlacement.

(** C4, amended. For maxDepth up to 7 both layouts return a map, and a
    node is not skipped for want of a parent position:
    - the body of the depth loop, in the simple and in the advanced
      layout, gives a key whose level entry names a non-empty parent a
      position, from any position map; when the parent has no entry in the
      map, the position is the one computed with the parent at the origin
      (0, 0);
    - so the depth loop, over whatever depths it runs, places every key of
      those depths that names a non-empty parent;
    - the body skips a key only when its level entry names no parent (none,
      or the empty key), and it never changes another key.
    Nothing is placed on behalf of a parent without children: every key of
    the returned maps other than the focus and the depth-1 keys is a key at
    depth 2 or more whose level entry names a non-empty parent. *)
Theorem radial_layout_places_children :
  forall (rt : JsRuntime) (params : LayoutParams),
    maxDepth params <= 7 ->
    let levels :=
      computeTreeLevels (nodes params) (edges params) (centerKey params) (maxDepth params) in
    exists simple advanced,
      computeRadialLayout params = Some simple /\
      computeRadialLayoutAdvanced params = Some advanced /\
      (forall cbp nodeByKey isExp d pos k info p,
          JsMap.get levels k = Some info -> parent info = Some p -> p <> "" ->
          JsMap.has (placeOnArc params levels cbp d pos k) k = true /\
          JsMap.has (placeAdvanced params levels nodeByKey isExp cbp d pos k) k = true /\
          (JsMap.get pos p = None ->
           JsMap.get (placeOnArc params levels cbp d pos k) k
           = JsMap.get (placeOnArc params levels cbp d (JsMap.set pos p origin) k) k /\
           JsMap.get (placeAdvanced params levels nodeByKey isExp cbp d pos k) k
           = JsMap.get (placeAdvanced params levels nodeByKey isExp cbp d
                          (JsMap.set pos p origin) k) k)) /\
      (forall cbp nodeByKey isExp depths byDepth pos k info,
          groupByDepth (nodes params) levels = Some byDepth ->
          JsMap.get levels k = Some info -> truthy (parent info) = true ->
          In (depth info) depths ->
          JsMap.has (placeDepths depths (maxDepth params) byDepth
                       (placeOnArc params levels cbp) pos) k = true /\
          JsMap.has (placeDepths depths (maxDepth params) byDepth
                       (placeAdvanced params levels nodeByKey isExp cbp) pos) k = true) /\
      (forall cbp nodeByKey isExp d pos k,
          (forall info, JsMap.get levels k = Some info -> truthy (parent info) = false) ->
          placeOnArc params levels cbp d pos k = pos /\
          placeAdvanced params levels nodeByKey isExp cbp d pos k = pos) /\
      (forall cbp nodeByKey isExp d pos k a,
          a <> k ->
          JsMap.get (placeOnArc params levels cbp d pos k) a = JsMap.get pos a /\
          JsMap.get (placeAdvanced params levels nodeByKey isExp cbp d pos k) a
          = JsMap.get pos a) /\
      (forall a,
          JsMap.has simple a = true \/ JsMap.has advanced a = true ->
          a = centerKey params \/
          exists info,
            JsMap.get levels a = Some info /\
            (depth info = 1 \/ (2 <= depth info /\ truthy (parent info) = true))).
Proof.
  intros rt params Hmax levels.
  destruct (computeRadialLayout_positioned params Hmax) as [simple [bd1 [Hs [Hb1 Hhas1]]]].
  destruct (computeRadialLayoutAdvanced_positioned params Hmax)
    as [advanced [bd2 [Ha [Hb2 Hhas2]]]].
  exists simple, advanced. split; [exact Hs|]. split; [exact Ha|].
  split; [|split; [|split; [|split]]].
  - intros cbp nodeByKey isExp d pos k info p Hget Hparent Hp.
    assert (Hpl : placeable levels k = true).
    { unfold placeable. rewrite Hget, Hparent. simpl.
      apply negb_true_iff. now apply String.eqb_neq. }
    split; [|split].
    + destruct (placeOnArc_place params levels cbp d pos k Hpl) as [v ->].
      unfold JsMap.has. now rewrite get_set_same.
    + destruct (placeAdvanced_place params levels nodeByKey isExp cbp d pos k Hpl) as [v ->].
      unfold JsMap.has. now rewrite get_set_same.
    + intros Hnone. split.
      * apply (placeOnArc_origin_fallback params levels cbp d pos k info p
                 Hget Hparent Hp Hnone).
      * apply (placeAdvanced_origin_fallback params levels nodeByKey isExp cbp d pos k info p
                 Hget Hparent Hp Hnone).
  - intros cbp nodeByKey isExp depths byDepth pos k info Hg Hget Hparent Hd.
    pose proof (groupByDepth_isByDepth params byDepth Hmax Hg) as Hnth.
    pose proof (placedAt_child params depths byDepth k info Hmax Hnth Hget Hparent Hd) as Hpl.
    fold levels in Hpl. split.
    + rewrite (placeDepths_has levels (maxDepth params) byDepth
                 (placeOnArc params levels cbp)
                 (placeOnArc_skip params levels cbp)
                 (placeOnArc_place params levels cbp)).
      rewrite Hpl. apply orb_true_r.
    + rewrite (placeDepths_has levels (maxDepth params) byDepth
                 (placeAdvanced params levels nodeByKey isExp cbp)
                 (placeAdvanced_skip params levels nodeByKey isExp cbp)
                 (placeAdvanced_place params levels nodeByKey isExp cbp)).
      rewrite Hpl. apply orb_true_r.
  - intros cbp nodeByKey isExp d pos k Hk.
    assert (Hpl : placeable levels k = false).
    { unfold placeable. destruct (JsMap.get levels k) as [info|] eqn:E; [|reflexivity].
      now apply Hk. }
    split; [now apply placeOnArc_skip | now apply placeAdvanced_skip].
  - intros cbp nodeByKey isExp d pos k a Hne. split.
    + apply (place_frame levels (placeOnArc params levels cbp d) pos k a); [| |exact Hne].
      * apply placeOnArc_skip.
      * apply placeOnArc_place.
    + apply (place_frame levels (placeAdvanced params levels nodeByKey isExp cbp d) pos k a);
        [| |exact Hne].
      * apply placeAdvanced_skip.
      * apply placeAdvanced_place.
  - assert (Hdeep : forall depths bd a,
               isByDepth params bd -> (forall d, In d depths -> 2 <= d < 8) ->
               positioned params depths bd a = true ->
               a = centerKey params \/
               exists info,
                 JsMap.get levels a = Some info /\
                 (depth info = 1 \/ (2 <= depth info /\ truthy (parent info) = true))).
    { intros depths bd a Hb Hdepths H.
      destruct (positioned_inv params depths bd a Hb) as [Hc | [info [Hget Hd]]];
        [intros d Hd; apply Hdepths in Hd; lia | exact H | now left |].
      right. exists info. split; [exact Hget|].
      destruct Hd as [Hd | [Hd Hp]]; [now left | right].
      split; [apply Hdepths in Hd; lia | exact Hp]. }
    intros a [H | H].
    + rewrite Hhas1 in H. apply (Hdeep [2; 3] bd1 a Hb1); [|exact H].
      simpl. intros d Hd. lia.
    + rewrite Hhas2 in H. apply (Hdeep [6; 7] bd2 a Hb2); [|exact H].
      simpl. intros d Hd. lia.
Qed.

Lemma radial_layout_places_children_witness :
  exists simple,
    @computeRadialLayout Reference.runtime Examples.skippedParent = Some simple /\
    JsMap.get simple "a" = None /\ JsMap.has simple "b" = true.
Proof.
  pose proof (radial_layout_places_children Reference.runtime Examples.skippedParent
                ltac:(simpl; lia)) as H.
  cbv zeta in H. destruct H as (simple & advanced & Hs & _ & _ & Hloop & _).
  exists simple. split; [exact Hs|].
  assert (E : simple
              = placeDepths [2; 3] 3
                  [["c"]; [""]; ["a"]; ["b"]; []; []; []; []]
                  (@placeOnArc Reference.runtime Examples.skippedParent
                     (computeTreeLevels Examples.skippedParentNodes
                        Examples.skippedParentEdges "c" 3)
                     (groupChildren
                        (computeTreeLevels Examples.skippedParentNodes
                           Examples.skippedParentEdges "c" 3)))
                  (@placeCircle Reference.runtime 100 [""] [("c", origin)])).
  { apply (f_equal (fun o => match o with Some m => m | None => [] end)) in Hs.
    simpl in Hs. rewrite <- Hs. reflexivity. }
  split.
  - rewrite E. vm_compute. reflexivity.
  - rewrite E.
    apply (proj1 (Hloop _ (@nil (string * NetworkNode)) (fun _ => false) [2; 3] _ _ "b"
                    (mkInfo 3 (Some "a")) eq_refl eq_refl eq_refl
                    (or_intror (or_introl eq_refl)))).
Defined.

(** C4 as stated fails: b is at depth 3 and its parent a has no position,
    neither when b is placed nor in the returned map (a names the empty key
    as its parent and is skipped); b is not skipped but placed around the
    origin. *)
Lemma missing_parent_counterexample :
  JsMap.get (computeTreeLevels Examples.skippedParentNodes Examples.skippedParentEdges "c" 3)
    "b"
  = Some (mkInfo 3 (Some "a")) /\
  option_map (fun m => JsMap.get m "a")
    (@computeRadialLayout Reference.runtime Examples.skippedParent)
  = Some None /\
  option_map (fun m => JsMap.get m "b")
    (@computeRadialLayout Reference.runtime Examples.skippedParent)
  = Some (Some (@arcPoint Reference.runtime origin
                  (@Math_atan2 Reference.runtime 0 0) (degToRad 80) 0 100)) /\
  ~ (option_map (fun m => JsMap.has m "b")
       (@computeRadialLayout Reference.runtime Examples.skippedParent)
     = Some false).
Proof.
  repeat split; try (vm_compute; reflexivity).
  vm_compute. discriminate.
Qed.

(* ------------------------------------------------------------------ *)
(** ** Further properties of the engine *)

Section FocusFacts.
Import JsMap.
Context {rt : JsRuntime}.

(** The focus has no level entry (it is no node key) or the entry of
    depth 0 without parent. *)
Lemma focus_level (ns : list NetworkNode) (es : list NetworkEdge) (c : string) (maxD : nat) :
  get (computeTreeLevels ns es c maxD) c = None \/
  get (computeTreeLevels ns es c maxD) c = Some (mkInfo 0 None).
Proof.
  destruct (JsSet.has (map key ns) c) eqn:E.
  - right. apply JsSetFacts.has_In in E.
    apply (computeTreeLevels_levelInvariant ns es c maxD E).
  - left. unfold computeTreeLevels, treeLevelsRun. now rewrite E.
Qed.

(** The loops place no key on the focus. *)
Lemma focus_not_placed (params : LayoutParams) (depths : list nat)
  (byDepth : list (list string)) :
  isByDepth params byDepth ->
  JsSet.has (nth 1 byDepth []) (centerKey params) = false /\
  placedAt
    (computeTreeLevels (nodes params) (edges params) (centerKey params) (maxDepth params))
    depths (maxDepth params) byDepth (centerKey params) = false.
Proof.
  intros Hnth.
  pose proof (focus_level (nodes params) (edges params) (centerKey params) (maxDepth params))
    as Hc.
  split.
  - apply JsSetFacts.has_false. rewrite Hnth by lia. intros H.
    apply In_keysAtDepth in H. destruct H as [_ [info [Hget Hd]]].
    destruct Hc as [Hc | Hc]; rewrite Hc in Hget; [discriminate|].
    injection Hget as <-. discriminate Hd.
  - unfold placedAt. induction depths as [|d depths IH]; simpl; [reflexivity|].
    rewrite IH, orb_false_r.
    assert (Hpl : JsSet.has
                    (filter (placeable (computeTreeLevels (nodes params) (edges params)
                                          (centerKey params) (maxDepth params)))
                       (nth d byDepth [])) (centerKey params) = false).
    { apply JsSetFacts.has_false. intros H. apply filter_In in H. destruct H as [_ H].
      unfold placeable in H. destruct Hc as [Hc | Hc]; rewrite Hc in H; discriminate H. }
    rewrite Hpl. apply andb_false_r.
Qed.

Lemma computeRadialLayout_focus (params : LayoutParams) (positions : t NodePos) :
  maxDepth params <= 7 ->
  computeRadialLayout params = Some positions ->
  get positions (centerKey params) = Some origin.
Proof.
  intros Hmax. unfold computeRadialLayout.
  destruct (groupByDepth_spec (nodes params) _ (levels_depthsBelow7 params Hmax))
    as [byDepth [-> Hnth]].
  intros H. cbv zeta in H.
  match type of H with Some ?m = Some _ => assert (Hm : positions = m) by congruence end.
  rewrite Hm. clear H Hm.
  destruct (focus_not_placed params [2; 3] byDepth Hnth) as [H1 H2].
  rewrite (placeDepths_frame _ _ _ _ (placeOnArc_skip params _ _)
             (placeOnArc_place params _ _) _ _ _ H2).
  rewrite (placeCircle_frame _ _ _ _ H1). apply get_set_same.
Qed.

Lemma computeRadialLayoutAdvanced_focus (params : LayoutParams) (positions : t NodePos) :
  maxDepth params <= 7 ->
  computeRadialLayoutAdvanced params = Some positions ->
  get positions (centerKey params) = Some origin.
Proof.
  intros Hmax. unfold computeRadialLayoutAdvanced.
  destruct (groupByDepth_spec (nodes params) _ (levels_depthsBelow7 params Hmax))
    as [byDepth [-> Hnth]].
  intros H. cbv zeta in H.
  match type of H with Some ?m = Some _ => assert (Hm : positions = m) by congruence end.
  rewrite Hm. clear H Hm.
  destruct (focus_not_placed params [6; 7] byDepth Hnth) as [H1 H2].
  rewrite (placeDepths_frame _ _ _ _ (placeAdvanced_skip params _ _ _ _)
             (placeAdvanced_place params _ _ _ _) _ _ _ H2).
  assert (Hsorted : JsSet.has (sortBy strCompare (nth 1 byDepth [])) (centerKey params)
                    = false).
  { rewrite <- H1. apply JsSet_has_ext. apply In_sortBy. }
  destruct (l1type (orElse (level1Layout params) (mkLevel1Layout circle None None None None))).
  - rewrite (placeCircle_frame _ _ _ _ Hsorted). apply get_set_same.
  - rewrite (placeRectRings_frame _ _ _ _ _ _ _ Hsorted). apply get_set_same.
Qed.

(** A key with a level entry of depth 0 or 1 is given a position by a
    layout with any depth loop. *)
Lemma positioned_near (params : LayoutParams) (depths : list nat)
  (byDepth : list (list string)) (k : string) (info : InternalNodeInfo) :
  isByDepth params byDepth ->
  get (computeTreeLevels (nodes params) (edges params) (centerKey params) (maxDepth params)) k
  = Some info ->
  depth info <= 1 ->
  positioned params depths byDepth k = true.
Proof.
  intros Hnth Hget Hd. unfold positioned.
  assert (Hin : In k (map key (nodes params))).
  { apply (proj1 (computeTreeLevels_keys (nodes params) (edges params)
                    (centerKey params) (maxDepth params))).
    now apply get_Some_keys in Hget. }
  destruct (depth info) as [|[|d]] eqn:E; [| |lia].
  - assert (Hc : In (centerKey params) (map key (nodes params))).
    { destruct (JsSet.has (map key (nodes params)) (centerKey params)) eqn:Ec;
        [now apply JsSetFacts.has_In|].
      unfold computeTreeLevels, treeLevelsRun in Hget. rewrite Ec in Hget.
      discriminate Hget. }
    rewrite (depth_zero_focus (nodes params) (edges params) (centerKey params)
               (maxDepth params) k info Hc Hget E), String.eqb_refl.
    reflexivity.
  - assert (H1 : JsSet.has (nth 1 byDepth []) k = true).
    { apply JsSetFacts.has_In. rewrite Hnth by lia. apply In_keysAtDepth.
      split; [exact Hin | now exists info]. }
    rewrite H1. now rewrite orb_true_r.
Qed.

End FocusFacts.

(** X1. For maxDepth up to 7 the adaptive layout returns a map in which the
    focus key is at the origin and every key with a level entry of depth 0
    or 1 has a position. *)
Theorem computeRadialLayoutAdaptive_focus_and_ring :
  forall (rt : JsRuntime) (params : LayoutParams),
    maxDepth params <= 7 ->
    exists positions,
      computeRadialLayoutAdaptive params = Some positions /\
      JsMap.get positions (centerKey params) = Some origin /\
      forall k info,
        JsMap.get (computeTreeLevels (nodes params) (edges params) (centerKey params)
                     (maxDepth params)) k = Some info ->
        depth info <= 1 -> JsMap.has positions k = true.
Proof.
  intros rt params Hmax. unfold computeRadialLayoutAdaptive.
  destruct (PrimFloat.ltb _ _).
  - destruct (computeRadialLayout_positioned params Hmax) as [positions [bd [Hs [Hb Hhas]]]].
    exists positions. split; [exact Hs|]. split.
    + now apply computeRadialLayout_focus.
    + intros k info Hget Hd. rewrite Hhas.
      now apply (positioned_near params [2; 3] bd k info).
  - destruct (computeRadialLayoutAdvanced_positioned params Hmax)
      as [positions [bd [Hs [Hb Hhas]]]].
    exists positions. split; [exact Hs|]. split.
    + now apply computeRadialLayoutAdvanced_focus.
    + intros k info Hget Hd. rewrite Hhas.
      now apply (positioned_near params [6; 7] bd k info).
Qed.

Lemma computeRadialLayoutAdaptive_focus_and_ring_witness :
  exists positions,
    @computeRadialLayoutAdaptive Reference.runtime Examples.ringParams = Some positions /\
    JsMap.get positions "c" = Some origin.
Proof.
  destruct (computeRadialLayoutAdaptive_focus_and_ring Reference.runtime Examples.ringParams)
    as [positions [H1 [H2 _]]].
  - simpl. lia.
  - exists positions. now split.
Defined.

(** X2. The visibility invariant: both endpoints of a visible edge are visible
    nodes, and every node key of the path is a visible node. *)
Theorem visibility_invariant :
  forall (ns : list NetworkNode) (es : list NetworkEdge) (path : list string),
    Forall (fun e => In (from e) (map key (visibleNodes ns es path)) /\
                     In (to e) (map key (visibleNodes ns es path)))
      (visibleEdges ns es path) /\
    Forall (fun k => In k (map key ns) -> In k (map key (visibleNodes ns es path))) path.
Proof.
  intros ns es path. split.
  - apply Forall_forall. intros e He. unfold visibleEdges in He.
    apply filter_In in He. destruct He as [_ He]. apply andb_true_iff in He.
    destruct He as [H1 H2]. split; now apply JsSetFacts.has_In.
  - apply Forall_forall. intros k Hk Hin. unfold visibleNodes.
    destruct path as [|a path]; [contradiction|].
    change (List.length (a :: path) =? 0)%nat with false. cbv iota.
    apply in_map_iff in Hin. destruct Hin as [n [Hkey Hn]].
    apply in_map_iff. exists n. split; [exact Hkey|].
    apply filter_In. split; [exact Hn|]. rewrite Hkey.
    apply JsSetFacts.has_In. unfold visibleKeys.
    assert (Hpath : In k (fold_left JsSet.add (a :: path) [])).
    { apply JsSetFacts.In_fold_add. now left. }
    destruct (lastOf (a :: path)) as [f|]; [|exact Hpath].
    destruct (JsMap.get (nodeConnectionsMap ns es) f) as [conn|]; [|exact Hpath].
    apply JsSetFacts.In_fold_add. now right.
Qed.

(** X3. The level map: empty for a focus that is no node key; its entries are
    distinct node keys, none deeper than maxDepth. *)
Theorem computeTreeLevels_entries :
  forall (ns : list NetworkNode) (es : list NetworkEdge) (c : string) (maxD : nat),
    (JsSet.has (map key ns) c = false -> computeTreeLevels ns es c maxD = []) /\
    Forall (fun entry => In (fst entry) (map key ns) /\ depth (snd entry) <= maxD)
      (computeTreeLevels ns es c maxD) /\
    NoDup (JsMap.keys (computeTreeLevels ns es c maxD)).
Proof.
  intros ns es c maxD. split; [|split].
  - intros H. unfold computeTreeLevels, treeLevelsRun. now rewrite H.
  - apply Forall_forall. intros [k info] Hin. simpl.
    destruct (computeTreeLevels_keys ns es c maxD) as [Hincl Hnd]. split.
    + apply Hincl. unfold JsMap.keys. change k with (fst (k, info)). now apply in_map.
    + apply (computeTreeLevels_depths ns es c maxD k info). now apply In_get.
  - apply computeTreeLevels_keys.
Qed.

(** X4. The scenario of the specification: levels from CENTER with maxDepth 2;
    the path [CENTER] shows CENTER, A, B; drilling into A gives the path
    [CENTER; A], which shows CENTER, A, C and hides one child of CENTER. *)
Theorem expansion_scenario :
  computeTreeLevels Examples.scenarioNodes Examples.scenarioEdges "CENTER" 2
  = [("CENTER", mkInfo 0 None); ("A", mkInfo 1 (Some "CENTER"));
     ("B", mkInfo 1 (Some "CENTER")); ("C", mkInfo 2 (Some "A"))] /\
  map key (visibleNodes Examples.scenarioNodes Examples.scenarioEdges ["CENTER"])
  = ["CENTER"; "A"; "B"] /\
  onExpandClick "CENTER" Examples.scenarioNodes Examples.scenarioEdges ["CENTER"] "A"
  = ["CENTER"; "A"] /\
  map key (visibleNodes Examples.scenarioNodes Examples.scenarioEdges ["CENTER"; "A"])
  = ["CENTER"; "A"; "C"] /\
  collapsedNodeInfo Examples.scenarioNodes Examples.scenarioEdges ["CENTER"; "A"]
  = [("CENTER", mkCollapsed 2 1)].
Proof.
  repeat split; vm_compute; reflexivity.
Qed.

(** X5. The drill-down transition: the expansion action on a node other than
    the root that an edge joins to the focus appends it to the path. *)
Theorem drill_down_appends :
  forall (rootKey : string) (ns : list NetworkNode) (es : list NetworkEdge)
         (path : list string) (f n : string),
    n <> rootKey -> lastOf path = Some f -> In f (map key ns) -> joined es f n ->
    onExpandClick rootKey ns es path n = path ++ [n].
Proof.
  intros rootKey ns es path f n Hn Hlast Hf Hj.
  exact (onExpandClick_direct_child rootKey ns es path f n Hn Hlast Hf Hj).
Qed.

Lemma drill_down_appends_witness :
  onExpandClick "CENTER" Examples.scenarioNodes Examples.scenarioEdges ["CENTER"] "B"
  = ["CENTER"] ++ ["B"].
Proof.
  refine (drill_down_appends "CENTER" Examples.scenarioNodes Examples.scenarioEdges
            ["CENTER"] "CENTER" "B" _ eq_refl _ _).
  - discriminate.
  - simpl. tauto.
  - exists (mkEdge "CENTER" "B"). simpl. tauto.
Defined.

(** X6. The aggregated-edge exclusion, for every input: the two groups of an
    emitted aggregated edge differ, and their sizes (1 when the size map
    has none) are not both 1. *)
Theorem aggregated_edge_exclusion :
  forall (es : list NetworkEdge) (n2g : JsMap.t string) (groupSizes : JsMap.t nat),
    Forall (fun a => gfrom a <> gto a /\
                     ~ (sizeOf groupSizes (gfrom a) = 1 /\ sizeOf groupSizes (gto a) = 1))
      (computeAggregatedEdges es n2g groupSizes).
Proof.
  intros es n2g groupSizes. apply Forall_forall. intros [gF gT c] Ha. simpl.
  assert (Hempty : distinctKeys []).
  { split; [constructor | intros g inner H; discriminate H]. }
  unfold computeAggregatedEdges in Ha.
  destruct (fold_countEdge n2g groupSizes es [] gF gT Hempty) as [Hd Hc].
  apply (In_aggregated _ gF gT c Hd) in Ha. rewrite Hc in Ha.
  destruct (filter (countedFor n2g groupSizes gF gT) es) as [|e l] eqn:E;
    [discriminate Ha|].
  assert (He : In e (filter (countedFor n2g groupSizes gF gT) es)) by (rewrite E; now left).
  apply filter_In in He. destruct He as [_ He]. unfold countedFor, countedPair in He.
  destruct (JsMap.get n2g (from e)) as [a|]; [|discriminate].
  destruct (JsMap.get n2g (to e)) as [b|]; [|discriminate].
  destruct (negb (truthy (Some a)) || negb (truthy (Some b))); [discriminate|].
  destruct (String.eqb_spec a b) as [|Hne]; [discriminate|].
  destruct ((sizeOf groupSizes a =? 1)%nat && (sizeOf groupSizes b =? 1)%nat) eqn:Es;
    [discriminate|].
  apply andb_true_iff in He. destruct He as [Ha' Hb'].
  apply String.eqb_eq in Ha', Hb'. subst a b. split; [exact Hne|].
  intros [H1 H2]. rewrite H1, H2 in Es. discriminate Es.
Qed.


(** ** The XML escape *)

Section EscapeFacts.

Lemma append_assoc (a b c : string) : ((a ++ b) ++ c = a ++ (b ++ c))%string.
Proof. induction a as [|x a IH]; simpl; [reflexivity | now rewrite IH]. Qed.

Lemma chars_app (a b : string) :
  list_ascii_of_string (a ++ b)%string = list_ascii_of_string a ++ list_ascii_of_string b.
Proof. induction a as [|x a IH]; simpl; [reflexivity | now rewrite IH]. Qed.

(** What [escapeXml] writes for one character. *)
Definition entityOf (c : ascii) : string :=
  if Ascii.eqb c "&"%char then "&amp;"
  else if Ascii.eqb c "<"%char then "&lt;"
  else if Ascii.eqb c ">"%char then "&gt;"
  else if Ascii.eqb c "034"%char then "&quot;"
  else if Ascii.eqb c "'"%char then "&apos;"
  else String c EmptyString.

Lemma replaceAll_app (a b : string) (c : ascii) (r : string) :
  replaceAll (a ++ b)%string c r = (replaceAll a c r ++ replaceAll b c r)%string.
Proof.
  induction a as [|x a IH]; simpl; [reflexivity|].
  destruct (Ascii.eqb x c); simpl; rewrite IH; [|reflexivity].
  now rewrite append_assoc.
Qed.

Lemma escapeXml_app (a b : string) :
  escapeXml (a ++ b)%string = (escapeXml a ++ escapeXml b)%string.
Proof. unfold escapeXml. now rewrite !replaceAll_app. Qed.

(** The five passes amount to one pass that writes [entityOf c] for every
    character [c]: the first pass is the only one that meets an ampersand of
    the input, and no later pass rewrites a character of an entity. *)
Lemma escapeXml_cons (c : ascii) (s : string) :
  escapeXml (String c s) = (entityOf c ++ escapeXml s)%string.
Proof.
  change (String c s) with (String c EmptyString ++ s)%string.
  rewrite escapeXml_app. f_equal.
  unfold escapeXml, entityOf. simpl.
  destruct (Ascii.eqb_spec c "&"%char) as [->|H1]; [reflexivity|].
  simpl.
  destruct (Ascii.eqb_spec c "<"%char) as [->|H2]; [reflexivity|].
  simpl.
  destruct (Ascii.eqb_spec c ">"%char) as [->|H3]; [reflexivity|].
  simpl.
  destruct (Ascii.eqb_spec c "034"%char) as [->|H4]; [reflexivity|].
  simpl.
  destruct (Ascii.eqb_spec c "'"%char) as [->|H5]; [reflexivity|].
  reflexivity.
Qed.

Lemma entityOf_plain (c : ascii) : isMarkup c = false -> entityOf c = String c EmptyString.
Proof.
  unfold isMarkup, entityOf. rewrite !orb_false_iff.
  intros [[[[-> ->] ->] ->] ->]. reflexivity.
Qed.

Lemma entityOf_markup (c : ascii) :
  isMarkup c = true ->
  exists tail, entityOf c = String "&"%char tail /\
               forall d, In d (list_ascii_of_string tail) ->
                         isMarkup d = false.
Proof.
  unfold isMarkup, entityOf. intros H.
  destruct (Ascii.eqb c "&"%char);
    [|destruct (Ascii.eqb c "<"%char);
      [|destruct (Ascii.eqb c ">"%char);
        [|destruct (Ascii.eqb c "034"%char);
          [|destruct (Ascii.eqb c "'"%char); [|discriminate H]]]]];
    eexists; (split; [reflexivity|]); simpl; intros d Hd;
    repeat (destruct Hd as [<-|Hd]; [reflexivity|]); contradiction.
Qed.

(** Every character of the output is an ampersand or a character that is
    not rewritten. *)
Lemma escapeXml_chars (s : string) (d : ascii) :
  In d (list_ascii_of_string (escapeXml s)) -> d = "&"%char \/ isMarkup d = false.
Proof.
  induction s as [|c s IH]; [intros []|].
  rewrite escapeXml_cons, chars_app, in_app_iff. intros [H|H]; [|now apply IH].
  destruct (isMarkup c) eqn:E.
  - destruct (entityOf_markup c E) as (tail & Heq & Htail).
    rewrite Heq in H. simpl in H. destruct H as [<-|H]; [now left | right; now apply Htail].
  - rewrite (entityOf_plain c E) in H. simpl in H.
    destruct H as [<-|[]]. now right.
Qed.

Lemma escapeXml_plain (s : string) : hasMarkup s = false -> escapeXml s = s.
Proof.
  unfold hasMarkup. induction s as [|c s IH]; [reflexivity|].
  intros H. simpl in H. rewrite orb_false_iff in H. destruct H as [Hc Hs].
  rewrite escapeXml_cons, (entityOf_plain c Hc), (IH Hs). reflexivity.
Qed.

Lemma string_length_app (a b : string) :
  String.length (a ++ b)%string = String.length a + String.length b.
Proof. induction a as [|x a IH]; simpl; [reflexivity | now rewrite IH]. Qed.

Lemma escapeXml_length (s : string) : String.length s <= String.length (escapeXml s).
Proof.
  induction s as [|c s IH]; [apply Nat.le_refl|].
  rewrite escapeXml_cons, string_length_app.
  assert (1 <= String.length (entityOf c)).
  { unfold entityOf.
    repeat match goal with |- context [if ?b then _ else _] => destruct b end; simpl; lia. }
  simpl. lia.
Qed.

Lemma escapeXml_grows (s : string) :
  hasMarkup s = true -> String.length s < String.length (escapeXml s).
Proof.
  unfold hasMarkup. induction s as [|c s IH]; [discriminate|].
  intros H. simpl in H. rewrite escapeXml_cons, string_length_app.
  pose proof (escapeXml_length s) as Hlen.
  destruct (isMarkup c) eqn:E.
  - assert (2 <= String.length (entityOf c)); [|simpl; lia].
    revert E. unfold isMarkup, entityOf.
    repeat match goal with |- context [if ?b then _ else _] => destruct b end;
      simpl; intros E; try lia; discriminate E.
  - simpl in H. rewrite (entityOf_plain c E). simpl. specialize (IH H). lia.
Qed.

Lemma escapeXml_fixed (s : string) : escapeXml s = s <-> hasMarkup s = false.
Proof.
  split; [|apply escapeXml_plain].
  intros H. destruct (hasMarkup s) eqn:E; [|reflexivity].
  apply escapeXml_grows in E. rewrite H in E. lia.
Qed.

Lemma hasMarkup_escapeXml (s : string) : hasMarkup (escapeXml s) = hasMarkup s.
Proof.
  unfold hasMarkup. induction s as [|c s IH]; [reflexivity|].
  rewrite escapeXml_cons, chars_app, existsb_app, IH. simpl. f_equal.
  destruct (isMarkup c) eqn:E.
  - destruct (entityOf_markup c E) as (tail & -> & _). reflexivity.
  - rewrite (entityOf_plain c E). simpl. now rewrite E.
Qed.

Lemma entityOf_inj (c d : ascii) (a b : string) :
  (entityOf c ++ a)%string = (entityOf d ++ b)%string -> c = d /\ a = b.
Proof.
  unfold entityOf.
  destruct (Ascii.eqb_spec c "&"%char) as [->|C1];
    [|destruct (Ascii.eqb_spec c "<"%char) as [->|C2];
      [|destruct (Ascii.eqb_spec c ">"%char) as [->|C3];
        [|destruct (Ascii.eqb_spec c "034"%char) as [->|C4];
          [|destruct (Ascii.eqb_spec c "'"%char) as [->|C5]]]]];
  (destruct (Ascii.eqb_spec d "&"%char) as [->|D1];
    [|destruct (Ascii.eqb_spec d "<"%char) as [->|D2];
      [|destruct (Ascii.eqb_spec d ">"%char) as [->|D3];
        [|destruct (Ascii.eqb_spec d "034"%char) as [->|D4];
          [|destruct (Ascii.eqb_spec d "'"%char) as [->|D5]]]]]);
  simpl; intros H; try discriminate H;
  try (injection H as H; try discriminate; split; [reflexivity | congruence]);
  try (injection H as H1 H2; try congruence; split; congruence).
Qed.

Lemma entityOf_nonempty (c : ascii) (a : string) : (entityOf c ++ a)%string <> EmptyString.
Proof.
  unfold entityOf.
  repeat match goal with |- context [if ?b then _ else _] => destruct b end;
    simpl; discriminate.
Qed.

Lemma escapeXml_inj (a : string) : forall b, escapeXml a = escapeXml b -> a = b.
Proof.
  induction a as [|c a IH]; intros [|d b] H.
  - reflexivity.
  - rewrite escapeXml_cons in H. symmetry in H. now apply entityOf_nonempty in H.
  - rewrite escapeXml_cons in H. now apply entityOf_nonempty in H.
  - rewrite !escapeXml_cons in H. apply entityOf_inj in H as [-> H].
    f_equal. now apply IH.
Qed.

End EscapeFacts.

(** X7. The output of [escapeXml] has none of the characters <, >, double
    quote and apostrophe; it is the input exactly when the input has none of
    the five rewritten characters, and escaping twice is escaping once only
    in that case. *)
Theorem escapeXml_removes_markup :
  forall s : string,
    (forall d, In d (list_ascii_of_string (escapeXml s)) ->
               d <> "<"%char /\ d <> ">"%char /\ d <> "034"%char /\ d <> "'"%char) /\
    (escapeXml s = s <-> hasMarkup s = false) /\
    (escapeXml (escapeXml s) = escapeXml s <-> hasMarkup s = false).
Proof.
  intros s. split; [|split].
  - intros d Hd. apply escapeXml_chars in Hd as [->|Hd].
    + repeat split; discriminate.
    + unfold isMarkup in Hd. rewrite !orb_false_iff in Hd.
      destruct Hd as [[[[_ H1] H2] H3] H4].
      repeat split; intros ->; discriminate.
  - apply escapeXml_fixed.
  - rewrite escapeXml_fixed. now rewrite hasMarkup_escapeXml.
Qed.

(** X8. [escapeXml] is injective and distributes over concatenation. *)
Theorem escapeXml_injective :
  forall a b : string,
    escapeXml (a ++ b)%string = (escapeXml a ++ escapeXml b)%string /\
    (escapeXml a = escapeXml b -> a = b) /\
    String.length a <= String.length (escapeXml a).
Proof.
  intros a b. split; [apply escapeXml_app|]. split; [apply escapeXml_inj|].
  apply escapeXml_length.
Qed.

(** ** Actions on the expansion path *)

Section PathFacts.
Import JsMap.

Lemma indexOf_Some (l : list string) (k : string) (i : nat) :
  indexOf l k = Some i -> i < List.length l /\ nth_error l i = Some k.
Proof.
  revert i. induction l as [|a l IH]; simpl; intros i H; [discriminate|].
  destruct (String.eqb_spec a k) as [->|Hne].
  - injection H as <-. split; [lia | reflexivity].
  - destruct (indexOf l k) as [j|]; [|discriminate]. injection H as <-.
    destruct (IH j eq_refl) as [Hlt Hnth]. split; [lia | exact Hnth].
Qed.

Lemma indexOf_In (l : list string) (k : string) :
  In k l -> exists i, indexOf l k = Some i.
Proof.
  induction l as [|a l IH]; simpl; [intros []|]. intros H.
  destruct (String.eqb_spec a k) as [->|Hne]; [now exists 0|].
  destruct H as [H|H]; [contradiction|].
  destruct (IH H) as [i ->]. now exists (S i).
Qed.

Lemma indexOf_None (l : list string) (k : string) : indexOf l k = None -> ~ In k l.
Proof.
  intros H Hin. apply indexOf_In in Hin as [i Hi]. congruence.
Qed.

Lemma lastOf_firstn (l : list string) (i : nat) (k : string) :
  nth_error l i = Some k -> lastOf (firstn (i + 1) l) = Some k.
Proof.
  intros H. unfold lastOf.
  assert (Hlt : i < List.length l) by (apply nth_error_Some; congruence).
  rewrite length_firstn, Nat.min_l by lia.
  replace (i + 1 - 1) with i by lia.
  rewrite nth_error_firstn.
  destruct (Nat.ltb_spec i (i + 1)); [exact H | lia].
Qed.

Lemma hd_firstn (A : Type) (l : list A) (i : nat) : hd_error (firstn (i + 1) l) = hd_error l.
Proof. rewrite Nat.add_1_r. now destruct l. Qed.

Lemma hd_app (A : Type) (l : list A) (a : A) : l <> [] -> hd_error (l ++ [a]) = hd_error l.
Proof. destruct l; [congruence | reflexivity]. Qed.

(** The prefix of the path that a cut keeps. *)
Lemma cut_prefix (l : list string) (k : string) (i : nat) :
  indexOf l k = Some i ->
  exists rest, l = firstn (i + 1) l ++ rest /\
               lastOf (firstn (i + 1) l) = Some k /\
               List.length (firstn (i + 1) l) = i + 1.
Proof.
  intros H. apply indexOf_Some in H as [Hlt Hnth].
  exists (skipn (i + 1) l). split; [now rewrite firstn_skipn|].
  split; [now apply lastOf_firstn|]. rewrite length_firstn. lia.
Qed.

Lemma onExpandClick_cases (rootKey : string) (ns : list NetworkNode) (es : list NetworkEdge)
  (path : list string) (n : string) :
  onExpandClick rootKey ns es path n = path \/
  (exists f, lastOf path = Some f /\ In f (map key ns) /\ joined es f n /\
             n <> rootKey /\
             onExpandClick rootKey ns es path n = path ++ [n]) \/
  (exists i, indexOf path n = Some i /\
             onExpandClick rootKey ns es path n = firstn (i + 1) path).
Proof.
  unfold onExpandClick.
  destruct (String.eqb_spec n rootKey) as [|Hroot]; simpl; [now left|].
  destruct (lastOf path) as [f|] eqn:Ef.
  - pose proof (nodeConnectionsMap_spec ns es f) as Hspec.
    destruct (get (nodeConnectionsMap ns es) f) as [s|].
    + destruct Hspec as [Hf Hs].
      destruct (JsSet.has s n) eqn:En.
      * right. left. exists f. repeat split; try assumption.
        apply Hs. now apply JsSetFacts.has_In.
      * destruct (indexOf path n) as [i|]; [|now left].
        right. right. now exists i.
    + destruct (indexOf path n) as [i|]; [|now left].
      right. right. now exists i.
  - destruct (indexOf path n) as [i|]; [|now left].
    right. right. now exists i.
Qed.

Lemma isWalk_app (ns : list NetworkNode) (es : list NetworkEdge) (p : list string)
  (f n : string) :
  isWalk ns es p -> lastOf p = Some f -> In f (map key ns) -> joined es f n ->
  isWalk ns es (p ++ [n]).
Proof.
  induction p as [|a p IH]; [intros _ H; discriminate H|].
  intros Hw Hl Hf Hj. destruct p as [|b p].
  - unfold lastOf in Hl. simpl in Hl. injection Hl as ->. simpl. auto.
  - simpl in Hw. destruct Hw as (Ha & Hab & Hw).
    change ((a :: b :: p) ++ [n]) with (a :: b :: (p ++ [n])).
    simpl. split; [exact Ha|]. split; [exact Hab|].
    apply IH; try assumption.
    unfold lastOf in *. simpl in *. now rewrite Nat.sub_0_r in *.
Qed.

Lemma isWalk_prefix (ns : list NetworkNode) (es : list NetworkEdge) (p rest : list string) :
  isWalk ns es (p ++ rest) -> isWalk ns es p.
Proof.
  induction p as [|a p IH]; [intros _; exact I|].
  destruct p as [|b p]; [intros _; exact I|].
  simpl. intros (Ha & Hab & Hw). split; [exact Ha|]. split; [exact Hab|].
  apply IH. exact Hw.
Qed.

End PathFacts.

(** X9. One expand click: the path is unchanged, or gets the clicked key
    appended, or is cut after the clicked key's first occurrence. *)
Theorem onExpandClick_preserves_root :
  forall (rootKey : string) (ns : list NetworkNode) (es : list NetworkEdge)
         (path : list string) (n : string),
    onExpandClick rootKey ns es path rootKey = path /\
    (onExpandClick rootKey ns es path n = [] <-> path = []) /\
    hd_error (onExpandClick rootKey ns es path n) = hd_error path /\
    (onExpandClick rootKey ns es path n = path \/
     lastOf (onExpandClick rootKey ns es path n) = Some n) /\
    incl (onExpandClick rootKey ns es path n) (path ++ [n]) /\
    List.length (onExpandClick rootKey ns es path n) <= List.length path + 1.
Proof.
  intros rootKey ns es path n.
  split.
  { unfold onExpandClick. now rewrite String.eqb_refl. }
  destruct (onExpandClick_cases rootKey ns es path n)
    as [->|[(f & Hl & Hf & Hj & _ & ->)|(i & Hi & ->)]].
  - split; [reflexivity|]. split; [reflexivity|]. split; [now left|].
    split; [apply incl_appl, incl_refl | lia].
  - assert (Hne : path <> []) by (intros ->; discriminate Hl).
    split; [split; [intros H; now apply app_eq_nil in H | congruence]|].
    split; [now apply hd_app|]. split; [right; apply lastOf_app|].
    split; [apply incl_refl | rewrite length_app; simpl; lia].
  - destruct (cut_prefix path n i Hi) as (rest & Hsplit & Hlast & Hlen).
    assert (Hne : path <> []).
    { intros ->. discriminate Hi. }
    split.
    { split; [intros H; rewrite H in Hlen; simpl in Hlen; lia | congruence]. }
    split; [apply hd_firstn|]. split; [now right|].
    split.
    + intros a Ha. apply in_or_app. left. rewrite Hsplit. apply in_or_app. now left.
    + rewrite length_firstn. lia.
Qed.

Section PathInvariant.
Variables (rootKey : string) (ns : list NetworkNode) (es : list NetworkEdge).

(** The invariant of the expansion path: it starts with the root, the root
    occurs nowhere else, and it is a walk. *)
Definition pathInvariant (p : list string) : Prop :=
  exists rest, p = rootKey :: rest /\ ~ In rootKey rest /\ isWalk ns es p.

Lemma pathInvariant_cut (p : list string) (i : nat) :
  pathInvariant p -> pathInvariant (firstn (i + 1) p).
Proof.
  intros (rest & -> & Hroot & Hw). rewrite Nat.add_1_r. simpl.
  exists (firstn i rest). split; [reflexivity|]. split.
  - intros H. apply Hroot. rewrite <- (firstn_skipn i rest). apply in_or_app. now left.
  - apply isWalk_prefix with (rest := skipn i rest).
    change ((rootKey :: firstn i rest) ++ skipn i rest)
      with (rootKey :: (firstn i rest ++ skipn i rest)).
    now rewrite firstn_skipn.
Qed.

Lemma pathInvariant_step (p : list string) (a : PathAction) :
  pathInvariant p -> pathInvariant (pathStep rootKey ns es p a).
Proof.
  intros Hp. destruct a as [n|n]; simpl.
  - destruct (onExpandClick_cases rootKey ns es p n)
      as [->|[(f & Hl & Hf & Hj & Hn & ->)|(i & Hi & ->)]].
    + exact Hp.
    + destruct Hp as (rest & -> & Hroot & Hw).
      exists (rest ++ [n]). split; [reflexivity|]. split.
      * rewrite in_app_iff. intros [H|[H|[]]]; [now apply Hroot | congruence].
      * now apply (isWalk_app ns es (rootKey :: rest) f n).
    + now apply pathInvariant_cut.
  - unfold onCollapsedBadgeClick. destruct (indexOf p n) as [i|]; [|exact Hp].
    now apply pathInvariant_cut.
Qed.

Lemma pathInvariant_after (actions : list PathAction) :
  pathInvariant (pathAfter rootKey ns es actions).
Proof.
  unfold pathAfter.
  apply (fold_left_invariant _ _ pathInvariant).
  - exists []. split; [reflexivity|]. split; [intros [] | exact I].
  - intros p a Hp _. now apply pathInvariant_step.
Qed.

End PathInvariant.

(** X10. Whatever the user clicks, the expansion path starts with the root
    key, holds the root nowhere else, and is a walk of the graph. *)
Theorem expansion_path_invariant :
  forall (rootKey : string) (ns : list NetworkNode) (es : list NetworkEdge)
         (actions : list PathAction),
    exists rest,
      pathAfter rootKey ns es actions = rootKey :: rest /\
      ~ In rootKey rest /\
      isWalk ns es (pathAfter rootKey ns es actions).
Proof. intros. apply pathInvariant_after. Qed.

Section CollapsedFacts.
Import JsMap.

Lemma NoDup_add (s : JsSet.t) (k : string) : NoDup s -> NoDup (JsSet.add s k).
Proof.
  intros H. unfold JsSet.add. destruct (JsSet.has s k) eqn:E; [exact H|].
  apply JsSetFacts.has_false in E.
  apply NoDup_app; [exact H | repeat constructor; intros [] | ].
  intros a Ha [<-|[]]. exact (E Ha).
Qed.

Lemma nodeConnectionsMap_NoDup (ns : list NetworkNode) (es : list NetworkEdge)
  (k : string) (s : JsSet.t) :
  get (nodeConnectionsMap ns es) k = Some s -> NoDup s.
Proof.
  revert k s. unfold nodeConnectionsMap.
  apply (fold_left_invariant _ _
           (fun m : t JsSet.t => forall k s, get m k = Some s -> NoDup s)).
  - intros k s H. rewrite emptyConnections_get in H.
    destruct (JsSet.has (map key ns) k); [|discriminate].
    injection H as <-. constructor.
  - intros m e Hm _ k s H.
    rewrite !addConnection_get in H.
    destruct (get m k) as [s0|] eqn:E; [|discriminate].
    injection H as <-. specialize (Hm k s0 E).
    destruct (String.eqb (to e) k), (String.eqb (from e) k);
      repeat apply NoDup_add; exact Hm.
Qed.

(** The entry [collapsedNodeInfo] computes for one key. *)
Definition collapsedEntry (ns : list NetworkNode) (es : list NetworkEdge)
  (path : list string) (k : string) : option CollapsedInfo :=
  match get (nodeConnectionsMap ns es) k with
  | None => None
  | Some connections =>
      let children := filter (fun c => negb (String.eqb c k)) connections in
      let hidden :=
        filter (fun c => negb (JsSet.has (map key (visibleNodes ns es path)) c)) children in
      if (0 <? List.length hidden)%nat
      then Some (mkCollapsed (List.length children) (List.length hidden))
      else None
  end.

Lemma fold_entries (V : Type) (f : string -> option V) (l : list string) :
  forall (m : t V) (k : string),
    get (fold_left (fun m k => match f k with Some v => set m k v | None => m end) l m) k
    = if JsSet.has l k
      then match f k with Some v => Some v | None => get m k end
      else get m k.
Proof.
  induction l as [|a l IH]; intros m k; [reflexivity|].
  simpl. rewrite IH. rewrite (String.eqb_sym k a).
  destruct (String.eqb_spec a k) as [->|Hne]; simpl.
  - destruct (f k) as [v|]; [|now destruct (JsSet.has l k)].
    rewrite get_set_same. now destruct (JsSet.has l k).
  - destruct (f a) as [v|]; [|reflexivity].
    rewrite get_set_other by congruence. reflexivity.
Qed.

Lemma fold_left_ext (A B : Type) (f g : A -> B -> A) (l : list B) :
  (forall a b, f a b = g a b) -> forall a, fold_left f l a = fold_left g l a.
Proof.
  intros H. induction l as [|b l IH]; intros a; [reflexivity|].
  simpl. now rewrite H, IH.
Qed.

Lemma collapsedNodeInfo_get (ns : list NetworkNode) (es : list NetworkEdge)
  (path : list string) (k : string) :
  get (collapsedNodeInfo ns es path) k
  = if JsSet.has (removelast path) k then collapsedEntry ns es path k else None.
Proof.
  unfold collapsedNodeInfo.
  rewrite (fold_left_ext _ _ _
             (fun info nodeKey =>
                match collapsedEntry ns es path nodeKey with
                | Some v => set info nodeKey v
                | None => info
                end)).
  - rewrite fold_entries. simpl.
    destruct (JsSet.has (removelast path) k); [|reflexivity].
    now destruct (collapsedEntry ns es path k).
  - intros info nodeKey. unfold collapsedEntry.
    destruct (get (nodeConnectionsMap ns es) nodeKey) as [c|]; [|reflexivity].
    cbv zeta.
    now destruct (0 <? _)%nat.
Qed.

Lemma length_filter_le (A : Type) (f : A -> bool) (l : list A) :
  List.length (filter f l) <= List.length l.
Proof.
  induction l as [|a l IH]; simpl; [lia|]. destruct (f a); simpl; lia.
Qed.

Lemma filter_nonempty (A : Type) (f : A -> bool) (l : list A) :
  0 < List.length (filter f l) <-> exists a, In a l /\ f a = true.
Proof.
  split.
  - destruct (filter f l) as [|a r] eqn:E; simpl; [lia|]. intros _.
    exists a. apply filter_In. rewrite E. now left.
  - intros (a & Ha & Hf).
    assert (H : In a (filter f l)) by (apply filter_In; now split).
    destruct (filter f l); [destruct H | simpl; lia].
Qed.

End CollapsedFacts.

Section CollapsedEntries.

Lemma collapsedNodeInfo_has (ns : list NetworkNode) (es : list NetworkEdge)
  (path : list string) (k : string) :
  JsMap.has (collapsedNodeInfo ns es path) k = true <->
  In k (removelast path) /\ In k (map key ns) /\
  exists a, joined es k a /\ a <> k /\ ~ In a (map key (visibleNodes ns es path)).
Proof.
  unfold JsMap.has. rewrite collapsedNodeInfo_get. unfold collapsedEntry.
  pose proof (nodeConnectionsMap_spec ns es k) as Hspec.
  destruct (JsSet.has (removelast path) k) eqn:Ep.
  + apply JsSetFacts.has_In in Ep.
    destruct (JsMap.get (nodeConnectionsMap ns es) k) as [conns|].
    * destruct Hspec as [Hk Hconns]. cbv zeta.
      destruct (Nat.ltb_spec 0
                  (List.length
                     (filter (fun c => negb (JsSet.has (map key (visibleNodes ns es path)) c))
                        (filter (fun c => negb (String.eqb c k)) conns)))) as [Hlt|Hge].
      -- split; [intros _|reflexivity]. split; [exact Ep|]. split; [exact Hk|].
         apply filter_nonempty in Hlt as (a & Ha & Hvis).
         apply filter_In in Ha as [Ha Hne].
         exists a. split; [now apply Hconns|]. split.
         ++ intros ->. now rewrite String.eqb_refl in Hne.
         ++ apply JsSetFacts.has_false. now destruct (JsSet.has _ a).
      -- split; [discriminate|]. intros (_ & _ & a & Hj & Hne & Hvis).
         exfalso. apply (Nat.lt_irrefl 0). eapply Nat.lt_le_trans; [|exact Hge].
         apply filter_nonempty. exists a. split.
         ++ apply filter_In. split; [now apply Hconns|].
            destruct (String.eqb_spec a k); [contradiction | reflexivity].
         ++ apply JsSetFacts.has_false in Hvis. now rewrite Hvis.
    * split; [discriminate|]. intros (_ & Hk & _). contradiction.
  + split; [discriminate|]. intros (Hin & _).
    apply JsSetFacts.has_In in Hin. congruence.
Qed.

Lemma collapsedNodeInfo_counts (ns : list NetworkNode) (es : list NetworkEdge)
  (path : list string) (k : string) (ci : CollapsedInfo) :
  JsMap.get (collapsedNodeInfo ns es path) k = Some ci ->
  1 <= hiddenChildren ci <= totalChildren ci /\
  exists conns,
    NoDup conns /\ (forall a, In a conns <-> joined es k a) /\
    totalChildren ci
    = List.length (filter (fun c => negb (String.eqb c k)) conns) /\
    hiddenChildren ci
    = List.length
        (filter (fun c => negb (JsSet.has (map key (visibleNodes ns es path)) c))
           (filter (fun c => negb (String.eqb c k)) conns)).
Proof.
  rewrite collapsedNodeInfo_get. unfold collapsedEntry.
  destruct (JsSet.has (removelast path) k); [|discriminate].
  pose proof (nodeConnectionsMap_spec ns es k) as Hspec.
  destruct (JsMap.get (nodeConnectionsMap ns es) k) as [conns|] eqn:Ec; [|discriminate].
  destruct Hspec as [Hk Hconns]. cbv zeta.
  destruct (Nat.ltb_spec 0
              (List.length
                 (filter (fun c => negb (JsSet.has (map key (visibleNodes ns es path)) c))
                    (filter (fun c => negb (String.eqb c k)) conns)))) as [Hlt|Hge];
    [|discriminate].
  intros H. injection H as <-. simpl. split.
  + split; [exact Hlt | apply length_filter_le].
  + exists conns. split; [now apply (nodeConnectionsMap_NoDup ns es k)|].
    split; [exact Hconns|]. split; reflexivity.
Qed.

End CollapsedEntries.

(** X11. [collapsedNodeInfo] has an entry for a key exactly when the key is on
    the path before its last place, is a node key, and is joined to a key
    other than itself that is not visible; the entry counts the keys joined
    to it (itself apart) and the hidden ones among them. *)
Theorem collapsedNodeInfo_entries :
  forall (ns : list NetworkNode) (es : list NetworkEdge) (path : list string) (k : string),
    (JsMap.has (collapsedNodeInfo ns es path) k = true <->
     In k (removelast path) /\ In k (map key ns) /\
     exists a, joined es k a /\ a <> k /\
               ~ In a (map key (visibleNodes ns es path))) /\
    (forall ci,
        JsMap.get (collapsedNodeInfo ns es path) k = Some ci ->
        1 <= hiddenChildren ci <= totalChildren ci /\
        exists conns,
          NoDup conns /\ (forall a, In a conns <-> joined es k a) /\
          totalChildren ci
          = List.length (filter (fun c => negb (String.eqb c k)) conns) /\
          hiddenChildren ci
          = List.length
              (filter (fun c => negb (JsSet.has (map key (visibleNodes ns es path)) c))
                 (filter (fun c => negb (String.eqb c k)) conns))).
Proof.
  intros ns es path k. split.
  - apply collapsedNodeInfo_has.
  - intros ci. apply collapsedNodeInfo_counts.
Qed.

Section BadgeFacts.

Lemma indexOf_removelast (l : list string) (k : string) :
  In k (removelast l) -> exists i, indexOf l k = Some i /\ i + 1 < List.length l.
Proof.
  induction l as [|a l IH]; [intros []|].
  intros H. destruct l as [|b l]; [destruct H|].
  change (removelast (a :: b :: l)) with (a :: removelast (b :: l)) in H.
  change (indexOf (a :: b :: l) k)
    with (if String.eqb a k then Some 0
          else match indexOf (b :: l) k with Some i => Some (S i) | None => None end).
  destruct (String.eqb_spec a k) as [->|Hne].
  - exists 0. split; [reflexivity | simpl; lia].
  - destruct H as [H|H]; [contradiction|].
    destruct (IH H) as (i & Hi & Hlt). rewrite Hi.
    exists (S i). split; [reflexivity | simpl in *; lia].
Qed.

End BadgeFacts.

(** X12. A click on the count badge of a collapsed node makes that node the
    focus and strictly shortens the path, of which the new path is a
    prefix. *)
Theorem badge_click_refocuses :
  forall (ns : list NetworkNode) (es : list NetworkEdge) (path : list string) (k : string),
    JsMap.has (collapsedNodeInfo ns es path) k = true ->
    lastOf (onCollapsedBadgeClick path k) = Some k /\
    List.length (onCollapsedBadgeClick path k) < List.length path /\
    exists rest, path = onCollapsedBadgeClick path k ++ rest.
Proof.
  intros ns es path k H.
  apply collapsedNodeInfo_has in H as (Hin & _).
  apply indexOf_removelast in Hin as (i & Hi & Hlt).
  unfold onCollapsedBadgeClick. rewrite Hi.
  destruct (cut_prefix path k i Hi) as (rest & Hsplit & Hlast & Hlen).
  split; [exact Hlast|]. split; [lia | now exists rest].
Qed.

Lemma badge_click_refocuses_witness :
  lastOf (onCollapsedBadgeClick ["CENTER"; "A"] "CENTER") = Some "CENTER".
Proof.
  exact (proj1 (badge_click_refocuses Examples.scenarioNodes Examples.scenarioEdges
                  ["CENTER"; "A"] "CENTER" eq_refl)).
Defined.

(** ** Connections and visibility *)

Section VisibleFacts.
Import JsMap.

Lemma In_visibleKeys_gen (ns : list NetworkNode) (es : list NetworkEdge)
  (path : list string) (f a : string) :
  lastOf path = Some f ->
  (In a (visibleKeys ns es path) <->
   In a path \/ (In f (map key ns) /\ joined es f a)).
Proof.
  intros Hl. unfold visibleKeys. rewrite Hl.
  pose proof (nodeConnectionsMap_spec ns es f) as Hspec.
  destruct (get (nodeConnectionsMap ns es) f) as [s|].
  - destruct Hspec as [Hf Hs]. rewrite !JsSetFacts.In_fold_add. rewrite Hs. simpl. tauto.
  - rewrite JsSetFacts.In_fold_add. simpl. tauto.
Qed.

Lemma In_visibleNodes (ns : list NetworkNode) (es : list NetworkEdge)
  (path : list string) (f : string) (n : NetworkNode) :
  lastOf path = Some f ->
  (In n (visibleNodes ns es path) <->
   In n ns /\ (In (key n) path \/ (In f (map key ns) /\ joined es f (key n)))).
Proof.
  intros Hl. unfold visibleNodes.
  destruct path as [|p0 path]; [discriminate Hl|].
  change (List.length (p0 :: path) =? 0)%nat with false. cbv iota zeta.
  rewrite filter_In, JsSetFacts.has_In, (In_visibleKeys_gen ns es _ f) by exact Hl.
  reflexivity.
Qed.

Lemma In_visibleEdges (ns : list NetworkNode) (es : list NetworkEdge)
  (path : list string) (e : NetworkEdge) :
  In e (visibleEdges ns es path) <->
  In e es /\ In (from e) (map key (visibleNodes ns es path))
  /\ In (to e) (map key (visibleNodes ns es path)).
Proof.
  unfold visibleEdges. rewrite filter_In, andb_true_iff, !JsSetFacts.has_In. reflexivity.
Qed.

End VisibleFacts.

(** X13. The connection map is defined on the node keys; the set of a node key
    holds, once each, the keys an edge joins to it in either direction. *)
Theorem nodeConnectionsMap_characterised :
  forall (ns : list NetworkNode) (es : list NetworkEdge) (k : string),
    (JsMap.has (nodeConnectionsMap ns es) k = true <-> In k (map key ns)) /\
    (forall s,
        JsMap.get (nodeConnectionsMap ns es) k = Some s ->
        NoDup s /\ forall a, In a s <-> joined es k a) /\
    (forall a s s',
        JsMap.get (nodeConnectionsMap ns es) k = Some s ->
        JsMap.get (nodeConnectionsMap ns es) a = Some s' ->
        (In a s <-> In k s')).
Proof.
  intros ns es k. split; [|split].
  - unfold JsMap.has. pose proof (nodeConnectionsMap_spec ns es k) as H.
    destruct (JsMap.get (nodeConnectionsMap ns es) k).
    + split; [intros _; apply H | reflexivity].
    + split; [discriminate | intros Hk; contradiction].
  - intros s Hs. split.
    + now apply (nodeConnectionsMap_NoDup ns es k).
    + pose proof (nodeConnectionsMap_spec ns es k) as H. rewrite Hs in H. apply H.
  - intros a s s' Hs Hs'.
    pose proof (nodeConnectionsMap_spec ns es k) as H. rewrite Hs in H.
    pose proof (nodeConnectionsMap_spec ns es a) as H'. rewrite Hs' in H'.
    destruct H as [_ H], H' as [_ H']. rewrite H, H'.
    split; apply joined_sym.
Qed.

(** X14. With an empty path every node is visible. Otherwise the visible nodes
    are, in the order of the node list, the nodes whose key is on the path
    or joined by an edge to the focus, when the focus is a node key; the
    visible edges are the edges between keys of visible nodes. *)
Theorem visible_nodes_characterised :
  forall (ns : list NetworkNode) (es : list NetworkEdge) (path : list string),
    (path = [] -> visibleNodes ns es path = ns) /\
    (exists keep, visibleNodes ns es path = filter keep ns) /\
    (forall f n,
        lastOf path = Some f ->
        (In n (visibleNodes ns es path) <->
         In n ns /\
         (In (key n) path \/ (In f (map key ns) /\ joined es f (key n))))) /\
    (forall e,
        In e (visibleEdges ns es path) <->
        In e es /\ In (from e) (map key (visibleNodes ns es path))
        /\ In (to e) (map key (visibleNodes ns es path))).
Proof.
  intros ns es path. split; [|split; [|split]].
  - intros ->. reflexivity.
  - unfold visibleNodes. destruct (List.length path =? 0)%nat.
    + exists (fun _ => true). now rewrite filter_all.
    + now eexists.
  - intros f n Hl. now apply In_visibleNodes.
  - apply In_visibleEdges.
Qed.

(** ** Levels the layouts cannot hold *)

Section ThrowFacts.
Import JsMap.

Definition deepNode (levels : t InternalNodeInfo) (n : NetworkNode) : bool :=
  match get levels (key n) with
  | Some info => (7 <? depth info)%nat
  | None => false
  end.

Lemma tooDeep_existsb (ns : list NetworkNode) (levels : t InternalNodeInfo) :
  tooDeep ns levels <-> existsb (deepNode levels) ns = true.
Proof.
  rewrite existsb_exists. unfold tooDeep, deepNode. split.
  - intros (n & info & Hn & Hg & Hd). exists n. split; [exact Hn|].
    rewrite Hg. now apply Nat.ltb_lt.
  - intros (n & Hn & Hd). destruct (get levels (key n)) as [info|] eqn:E; [|discriminate].
    exists n, info. repeat split; try assumption. now apply Nat.ltb_lt.
Qed.

Lemma byDepthPush_length (tbl tbl' : list (list string)) (d : nat) (k : string) :
  byDepthPush tbl d k = Some tbl' -> List.length tbl' = List.length tbl.
Proof.
  unfold byDepthPush. destruct (nth_error tbl d); [|discriminate].
  intros H. injection H as <-. apply length_updateAt.
Qed.

Lemma groupByDepth_throws (levels : t InternalNodeInfo) (rest : list NetworkNode) :
  forall acc : option (list (list string)),
    (forall tbl, acc = Some tbl -> List.length tbl = 8) ->
    acc = None \/ existsb (deepNode levels) rest = true ->
    fold_left
      (fun acc n =>
         match acc with
         | None => None
         | Some tbl =>
             match get levels (key n) with
             | None => Some tbl
             | Some info => byDepthPush tbl (depth info) (key n)
             end
         end)
      rest acc = None.
Proof.
  induction rest as [|n rest IH]; intros acc Hlen H.
  - destruct H as [H|H]; [exact H | discriminate H].
  - simpl. apply IH.
    + intros tbl' Ht. destruct acc as [tbl|]; [|discriminate].
      destruct (get levels (key n)) as [info|].
      * rewrite (byDepthPush_length _ _ _ _ Ht). now apply Hlen.
      * injection Ht as <-. now apply Hlen.
    + destruct acc as [tbl|]; [|now left].
      destruct H as [H|H]; [discriminate|].
      simpl in H. apply orb_true_iff in H as [H|H]; [|now right].
      left. unfold deepNode in H.
      destruct (get levels (key n)) as [info|]; [|discriminate].
      apply Nat.ltb_lt in H. unfold byDepthPush.
      assert (Hn : nth_error tbl (depth info) = None).
      { apply nth_error_None. rewrite (Hlen tbl eq_refl). lia. }
      now rewrite Hn.
Qed.

Lemma groupByDepth_None (ns : list NetworkNode) (levels : t InternalNodeInfo) :
  groupByDepth ns levels = None <-> tooDeep ns levels.
Proof.
  rewrite tooDeep_existsb. split.
  - intros H. destruct (existsb (deepNode levels) ns) eqn:E; [reflexivity|].
    exfalso.
    destruct (groupByDepth_fold levels ns) with (done := @nil NetworkNode) (tbl := byDepthInit)
      as (tbl' & Htbl & _).
    + intros n info Hn Hg.
      assert (Hd : deepNode levels n = false).
      { destruct (deepNode levels n) eqn:Ed; [|reflexivity].
        assert (existsb (deepNode levels) ns = true)
          by (apply existsb_exists; now exists n).
        congruence. }
      unfold deepNode in Hd. rewrite Hg in Hd. apply Nat.ltb_ge in Hd. lia.
    + reflexivity.
    + intros d Hd. unfold keysAtDepth. simpl.
      do 8 (destruct d as [|d]; [reflexivity|]). lia.
    + unfold groupByDepth in H. congruence.
  - intros H. apply groupByDepth_throws; [|now right].
    intros tbl Ht. injection Ht as <-. reflexivity.
Qed.

End ThrowFacts.

(** X15. The three layouts throw exactly when some node's level is deeper
    than 7, which no [maxDepth] up to 7 allows. *)
Theorem layouts_throw_iff_too_deep :
  forall (rt : JsRuntime) (params : LayoutParams),
    let levels :=
      computeTreeLevels (nodes params) (edges params) (centerKey params) (maxDepth params) in
    (computeRadialLayout params = None <-> tooDeep (nodes params) levels) /\
    (computeRadialLayoutAdvanced params = None <-> tooDeep (nodes params) levels) /\
    (computeRadialLayoutAdaptive params = None <-> tooDeep (nodes params) levels) /\
    (maxDepth params <= 7 -> ~ tooDeep (nodes params) levels).
Proof.
  intros rt params levels.
  assert (H1 : computeRadialLayout params = None <-> tooDeep (nodes params) levels).
  { rewrite <- groupByDepth_None. unfold computeRadialLayout. fold levels.
    destruct (groupByDepth (nodes params) levels); split; congruence. }
  assert (H2 : computeRadialLayoutAdvanced params = None <-> tooDeep (nodes params) levels).
  { rewrite <- groupByDepth_None. unfold computeRadialLayoutAdvanced. fold levels.
    destruct (groupByDepth (nodes params) levels); split; congruence. }
  split; [exact H1|]. split; [exact H2|]. split.
  - unfold computeRadialLayoutAdaptive.
    destruct (PrimFloat.ltb _ _); assumption.
  - intros Hmax (n & info & _ & Hg & Hd).
    pose proof (computeTreeLevels_depths (nodes params) (edges params) (centerKey params)
                  (maxDepth params) (key n) info Hg).
    lia.
Qed.

(** ** The cluster memos *)

Section LookupFacts.
Import JsMap.
Variables (I V : Type) (kf : I -> string) (vf : I -> V).

(** A map built by [set] from a list of items in which items of equal key
    have equal values. *)
Lemma fold_set_get_gen (l : list I) (i : I) :
  (forall j, In j l -> kf j = kf i -> vf j = vf i) ->
  forall m : t V,
    get m (kf i) = Some (vf i) \/ In i l ->
    get (fold_left (fun m i => set m (kf i) (vf i)) l m) (kf i) = Some (vf i).
Proof.
  induction l as [|a l IH]; intros Huniq m H.
  - destruct H as [H|[]]. exact H.
  - simpl. apply IH; [intros j Hj; apply Huniq; now right|].
    destruct H as [H|[->|H]].
    + left. rewrite get_set. destruct (String.eqb_spec (kf a) (kf i)) as [E|_]; [|exact H].
      f_equal. apply Huniq; [now left | exact E].
    + left. apply get_set_same.
    + now right.
Qed.

Lemma fold_set_get_unique (l : list I) (i : I) :
  (forall j, In j l -> kf j = kf i -> vf j = vf i) -> In i l ->
  get (fold_left (fun m i => set m (kf i) (vf i)) l []) (kf i) = Some (vf i).
Proof. intros Huniq Hin. apply fold_set_get_gen; [exact Huniq | now right]. Qed.

Lemma fold_set_has_gen (l : list I) (k : string) :
  forall m : t V,
    has (fold_left (fun m i => set m (kf i) (vf i)) l m) k = true <->
    has m k = true \/ In k (map kf l).
Proof.
  induction l as [|a l IH]; intros m; simpl; [tauto|].
  rewrite IH, has_set, orb_true_iff, String.eqb_eq. tauto.
Qed.

Lemma fold_set_has (l : list I) (k : string) :
  has (fold_left (fun m i => set m (kf i) (vf i)) l []) k = true <-> In k (map kf l).
Proof.
  rewrite fold_set_has_gen. split; [intros [H|H]; [discriminate H | exact H] | now right].
Qed.

End LookupFacts.

Section PipelineFacts.
Import JsMap.
Context {rt : JsRuntime}.
Variables (ns : list NetworkNode) (positions : t NodePos) (gridSize : float).

Lemma groups_same_key (g1 g2 : ClusterGroup) :
  In g1 (groups (computeGridClusters ns positions gridSize)) ->
  In g2 (groups (computeGridClusters ns positions gridSize)) ->
  gkey g1 = gkey g2 -> g1 = g2.
Proof.
  intros H1 H2 Hk.
  apply In_groups in H1 as (k1 & ms1 & <- & _ & _ & ->).
  apply In_groups in H2 as (k2 & ms2 & <- & _ & _ & ->).
  simpl in Hk. now subst k2.
Qed.

Lemma In_emitted (g : ClusterGroup) :
  In g (finalizeGroups (fst (fold_left (addToCluster positions gridSize) ns ([], []))))
  <-> In g (groups (computeGridClusters ns positions gridSize)).
Proof. unfold computeGridClusters. simpl. now rewrite In_sortBy. Qed.

Lemma gridKey_nonempty (p : NodePos) : gridKey p gridSize <> "".
Proof. unfold gridKey. discriminate. Qed.

Lemma nodeToGroup_nonempty (k g : string) :
  get (nodeToGroup (computeGridClusters ns positions gridSize)) k = Some g -> g <> "".
Proof.
  unfold computeGridClusters. simpl. rewrite nodeToGroup_spec.
  destruct (JsSet.has (map key ns) k); [|discriminate].
  destruct (get positions k) as [p|]; [|discriminate].
  simpl. intros [= <-]. apply gridKey_nonempty.
Qed.

Lemma NoDup_gkeys_finalize (m : t ClusterGroup) :
  NoDup (keys m) -> (forall k g, In (k, g) m -> gkey g = k) ->
  NoDup (map gkey (finalizeGroups m)).
Proof.
  unfold finalizeGroups, values.
  induction m as [|[k g] m IH]; intros Hnd Hk; [constructor|].
  simpl in *. inversion Hnd as [|? ? Hnotin Hnd']; subst.
  assert (IH' : NoDup (map gkey (flat_map
                 (fun g => match finalizeGroup g with Some g' => [g'] | None => [] end)
                 (map snd m)))).
  { apply IH; [exact Hnd'|]. intros k' g' H. apply Hk. now right. }
  destruct (finalizeGroup g) as [g'|] eqn:Ef; [|exact IH'].
  simpl. constructor; [|exact IH'].
  apply finalizeGroup_Some in Ef as [_ ->]. simpl.
  rewrite (Hk k g (or_introl eq_refl)).
  intros Hin. apply Hnotin.
  apply in_map_iff in Hin as (g2 & Hk2 & Hin).
  apply in_flat_map in Hin as (g3 & Hg3 & Hin).
  destruct (finalizeGroup g3) as [g4|] eqn:E3; [|destruct Hin].
  destruct Hin as [<-|[]]. apply finalizeGroup_Some in E3 as [_ ->]. simpl in Hk2.
  apply in_map_iff in Hg3 as ([k3 g3'] & Heq & Hin3). simpl in Heq. subst g3'.
  rewrite (Hk k3 g3) in Hk2 by now right. subst k3.
  apply in_map_iff. now exists (k, g3).
Qed.

Lemma NoDup_group_keys :
  NoDup (map gkey (groups (computeGridClusters ns positions gridSize))).
Proof.
  unfold computeGridClusters. simpl.
  eapply Permutation_NoDup.
  - apply Permutation_map. apply Permutation_sym. apply sortBy_perm.
  - apply NoDup_gkeys_finalize.
    + apply fold_addToCluster_NoDup. constructor.
    + intros k g Hin.
      apply In_get in Hin; [|apply fold_addToCluster_NoDup; constructor].
      rewrite groupsMap_spec in Hin. unfold groupFor in Hin.
      destruct (membersOf positions gridSize k ns); [discriminate|].
      now injection Hin as <-.
Qed.

Lemma groupSizes_get (g : ClusterGroup) :
  In g (groups (computeGridClusters ns positions gridSize)) ->
  get (groupSizes (groups (computeGridClusters ns positions gridSize))) (gkey g)
  = Some (List.length (members g)).
Proof.
  intros Hg. unfold groupSizes.
  apply (fold_set_get_unique _ _ gkey (fun g => List.length (members g))); [|exact Hg].
  intros j Hj Hk. now rewrite (groups_same_key j g Hj Hg Hk).
Qed.

Lemma groupSizes_positive (gk : string) (n : nat) :
  get (groupSizes (groups (computeGridClusters ns positions gridSize))) gk = Some n ->
  1 <= n.
Proof.
  intros H.
  assert (Hin : In gk (map gkey (groups (computeGridClusters ns positions gridSize)))).
  { apply (fold_set_has _ _ gkey (fun g => List.length (members g))).
    unfold has. fold (groupSizes (groups (computeGridClusters ns positions gridSize))).
    now rewrite H. }
  apply in_map_iff in Hin as (g & <- & Hg).
  rewrite (groupSizes_get g Hg) in H. injection H as <-.
  apply In_groups in Hg as (k & ms & _ & Hne & _ & ->). simpl.
  destruct ms; [congruence | simpl; lia].
Qed.

End PipelineFacts.

(** X16. Every emitted group is found under its key: [groupPositions] gives
    its centre, [groupBounds] its bounds, [groupSizes] its number of members
    and [nodeToGroup] its key for each of its members; the keys of the
    groups are pairwise distinct. *)
Theorem cluster_lookups :
  forall (rt : JsRuntime) (ns : list NetworkNode) (positions : JsMap.t NodePos)
         (gridSize : float),
    let c := computeGridClusters ns positions gridSize in
    NoDup (map gkey (groups c)) /\
    Forall (fun g =>
              JsMap.get (groupPositions c) (gkey g) = Some (center g) /\
              JsMap.get (groupBounds c) (gkey g) = Some (bounds g) /\
              JsMap.get (groupSizes (groups c)) (gkey g) = Some (List.length (members g)) /\
              Forall (fun k => JsMap.get (nodeToGroup c) k = Some (gkey g)) (members g))
      (groups c) /\
    (forall gk, JsMap.has (groupPositions c) gk = true <-> In gk (map gkey (groups c))) /\
    (forall gk, JsMap.has (groupBounds c) gk = true <-> In gk (map gkey (groups c))).
Proof.
  intros rt ns positions gridSize c.
  split; [apply NoDup_group_keys|]. split; [|split].
  - apply Forall_forall. intros g Hg.
    assert (Huniq : forall j,
               In j (finalizeGroups
                       (fst (fold_left (addToCluster positions gridSize) ns ([], [])))) ->
               gkey j = gkey g -> j = g).
    { intros j Hj Hk. apply In_emitted in Hj. now apply (groups_same_key ns positions gridSize). }
    split; [|split; [|split]].
    + apply (fold_set_get_unique _ _ gkey center); [|now apply In_emitted].
      intros j Hj Hk. now rewrite (Huniq j Hj Hk).
    + apply (fold_set_get_unique _ _ gkey bounds); [|now apply In_emitted].
      intros j Hj Hk. now rewrite (Huniq j Hj Hk).
    + now apply groupSizes_get.
    + apply Forall_forall. intros k Hk.
      apply In_groups in Hg as (gk & ms & <- & _ & _ & ->). simpl in *.
      apply In_membersOf in Hk as (n & p & Hn & Hkey & Hp & Hgk).
      unfold c, computeGridClusters. simpl. rewrite nodeToGroup_spec.
      assert (Hhas : JsSet.has (map key ns) k = true).
      { apply JsSetFacts.has_In. rewrite <- Hkey. now apply in_map. }
      rewrite Hhas, Hp. simpl. now rewrite Hgk.
  - intros gk. unfold c, computeGridClusters. simpl.
    rewrite (fold_set_has _ _ gkey center).
    rewrite !in_map_iff. split; intros (g & Hk & Hg); exists g; (split; [exact Hk|]).
    + now apply In_sortBy.
    + now apply In_sortBy in Hg.
  - intros gk. unfold c, computeGridClusters. simpl.
    rewrite (fold_set_has _ _ gkey bounds).
    rewrite !in_map_iff. split; intros (g & Hk & Hg); exists g; (split; [exact Hk|]).
    + now apply In_sortBy.
    + now apply In_sortBy in Hg.
Qed.

(** X17. In cluster mode the aggregated edges of the component are counted
    with the sizes of the emitted groups: an aggregated edge (gF, gT, n) is
    drawn exactly when n > 0 edges go from a node of cell gF to a node of a
    different cell gT, one of the two cells being an emitted group of more
    than one member. Outside cluster mode there are neither groups nor
    aggregated edges. *)
Theorem aggregatedEdges_of_clusters :
  forall (rt : JsRuntime) (ns : list NetworkNode) (positions : JsMap.t NodePos)
         (es : list NetworkEdge),
    let c := cluster true ns positions in
    (forall gF gT n,
        In (mkAgg gF gT n) (aggregatedEdges true es c) <->
        n = List.length
              (filter (countsToward (nodeToGroup c) (groupSizes (groups c)) gF gT) es)
        /\ 0 < n) /\
    (forall gk,
        sizeOf (groupSizes (groups c)) gk
        = match find (fun g => String.eqb (gkey g) gk) (groups c) with
          | Some g => List.length (members g)
          | None => 1
          end) /\
    groups (cluster false ns positions) = [] /\
    aggregatedEdges false es (cluster false ns positions) = [].
Proof.
  intros rt ns positions es c. split; [|split; [|split; reflexivity]].
  - intros gF gT n. unfold aggregatedEdges, c, cluster. cbn [negb].
    set (n2g := nodeToGroup (computeGridClusters ns positions CLUSTER_GRID_SIZE)).
    set (sizes := groupSizes (groups (computeGridClusters ns positions CLUSTER_GRID_SIZE))).
    assert (Hempty : distinctKeys []).
    { split; [constructor | intros g inner H; discriminate H]. }
    unfold computeAggregatedEdges.
    destruct (fold_countEdge n2g sizes es [] gF gT Hempty) as [Hd Hc].
    rewrite (In_aggregated _ gF gT n Hd), Hc.
    rewrite (filter_ext _ _ (fun e => countedFor_countsToward n2g sizes gF gT e
                                        (nodeToGroup_nonempty ns positions CLUSTER_GRID_SIZE)
                                        (groupSizes_positive ns positions CLUSTER_GRID_SIZE))).
    unfold countAt. simpl.
    destruct (List.length (filter (countsToward n2g sizes gF gT) es)) as [|m]; simpl.
    + split; [discriminate | lia].
    + split; [intros [= <-]; lia | intros [-> _]; reflexivity].
  - intros gk. unfold sizeOf, c, cluster. cbn [negb].
    destruct (find (fun g => String.eqb (gkey g) gk)
                (groups (computeGridClusters ns positions CLUSTER_GRID_SIZE))) as [g|] eqn:E.
    + apply find_some in E as [Hg Hk]. apply String.eqb_eq in Hk. subst gk.
      now rewrite (groupSizes_get ns positions CLUSTER_GRID_SIZE g Hg).
    + destruct (JsMap.get _ gk) as [m|] eqn:Eg; [|reflexivity].
      exfalso.
      assert (Hin : In gk (map gkey (groups (computeGridClusters ns positions
                                                CLUSTER_GRID_SIZE)))).
      { apply (fold_set_has _ _ gkey (fun g => List.length (members g))).
        unfold JsMap.has.
        fold (groupSizes (groups (computeGridClusters ns positions CLUSTER_GRID_SIZE))).
        now rewrite Eg. }
      apply in_map_iff in Hin as (g & Hk & Hg).
      pose proof (find_none _ _ E g Hg) as Hn. simpl in Hn.
      rewrite Hk, String.eqb_refl in Hn. discriminate.
Qed.

(** ** The ring of the simple layout *)

Section RingFacts.
Import JsMap.
Context {rt : JsRuntime}.

Lemma In_indexed (A : Type) (l : list A) (i : nat) (a : A) :
  In (i, a) (indexed l) <-> nth_error l i = Some a.
Proof.
  unfold indexed.
  assert (H : forall off, In (i, a) (combine (seq off (List.length l)) l)
                          <-> off <= i /\ nth_error l (i - off) = Some a).
  { induction l as [|b l IH]; intros off; simpl.
    - split; [intros [] | intros [_ H]; destruct (i - off); discriminate H].
    - rewrite IH. split.
      + intros [H|[Hle Hn]].
        * injection H as <- <-. split; [lia|]. now rewrite Nat.sub_diag.
        * split; [lia|]. replace (i - off) with (S (i - S off)) by lia. exact Hn.
      + intros [Hle Hn]. destruct (i - off) as [|j] eqn:E.
        * left. simpl in Hn. injection Hn as <-. f_equal. lia.
        * right. split; [lia|]. simpl in Hn. replace (i - S off) with j by lia. exact Hn. }
  rewrite H, Nat.sub_0_r. split; [intros [_ H']; exact H' | intros H'; split; [lia | exact H']].
Qed.

Lemma placeCircle_get (r1 : float) (lvl1 : list string) (pos : t NodePos)
  (i : nat) (k : string) :
  NoDup lvl1 -> nth_error lvl1 i = Some k ->
  get (placeCircle r1 lvl1 pos) k
  = Some (let a := ((ofNat i / Math_max 1 (ofNat (List.length lvl1))) * Math_PI * 2)%float in
          mkPos (Math_cos a * r1) (Math_sin a * r1)).
Proof.
  intros Hnd Hi. unfold placeCircle.
  apply (fold_set_get_gen _ _ (fun ik : nat * string => snd ik)
           (fun ik : nat * string =>
              let a := ((ofNat (fst ik) / Math_max 1 (ofNat (List.length lvl1)))
                        * Math_PI * 2)%float in
              mkPos (Math_cos a * r1) (Math_sin a * r1))
           (indexed lvl1) (i, k)).
  - intros [j k'] Hj Hk. simpl in Hk. subst k'.
    apply In_indexed in Hj.
    assert (j = i); [|now subst j].
    apply (proj1 (NoDup_nth_error lvl1) Hnd); [|congruence].
    apply nth_error_Some. congruence.
  - right. now apply In_indexed.
Qed.

Lemma ring_not_placed (levels : t InternalNodeInfo) (ns : list NetworkNode)
  (depths : list nat) (maxD : nat) (byDepth : list (list string)) (k : string)
  (info : InternalNodeInfo) :
  (forall d, d < 8 -> nth d byDepth [] = keysAtDepth levels d ns) ->
  (forall d, In d depths -> d < 8 /\ d <> depth info) ->
  get levels k = Some info ->
  placedAt levels depths maxD byDepth k = false.
Proof.
  intros Hnth Hdepths Hk. unfold placedAt.
  destruct (existsb _ depths) eqn:E; [|reflexivity].
  apply existsb_exists in E as (d & Hd & H).
  apply andb_true_iff in H as [_ H]. apply JsSetFacts.has_In in H.
  apply filter_In in H as [H _].
  destruct (Hdepths d Hd) as [Hlt Hne].
  rewrite (Hnth d Hlt) in H. apply In_keysAtDepth in H as (_ & info' & Hk' & Hd').
  rewrite Hk in Hk'. injection Hk' as <-. congruence.
Qed.

End RingFacts.

(** X18. The simple layout puts the depth-1 nodes on the circle of radius
    [radii[1]] at equal angles, in the order of the node list: for distinct
    node keys and [maxDepth] up to 7, the i-th of the n nodes of depth 1 is
    at angle 2 pi i / n. *)
Theorem computeRadialLayout_ring :
  forall (rt : JsRuntime) (params : LayoutParams),
    maxDepth params <= 7 ->
    NoDup (map key (nodes params)) ->
    let levels :=
      computeTreeLevels (nodes params) (edges params) (centerKey params) (maxDepth params) in
    let lvl1 :=
      map key
        (filter (fun n => match JsMap.get levels (key n) with
                          | Some info => (depth info =? 1)%nat
                          | None => false
                          end)
           (nodes params)) in
    exists positions,
      computeRadialLayout params = Some positions /\
      forall i k,
        nth_error lvl1 i = Some k ->
        JsMap.get positions k
        = Some (let a := ((ofNat i / Math_max 1 (ofNat (List.length lvl1)))
                          * Math_PI * 2)%float in
                mkPos (Math_cos a * radii params 1) (Math_sin a * radii params 1))%float.
Proof.
  intros rt params Hmax Hnd levels lvl1. unfold computeRadialLayout. fold levels.
  destruct (groupByDepth_spec (nodes params) levels (levels_depthsBelow7 params Hmax))
    as [byDepth [-> Hnth]].
  eexists. split; [reflexivity|]. intros i k Hi.
  assert (Hlvl1 : nth 1 byDepth [] = lvl1) by (apply Hnth; lia).
  assert (Hk : exists info, JsMap.get levels k = Some info /\ depth info = 1).
  { apply nth_error_In in Hi. apply (In_keysAtDepth (nodes params) levels 1 k) in Hi.
    apply Hi. }
  destruct Hk as (info & Hk & Hd).
  rewrite (placeDepths_frame levels _ _ _ (placeOnArc_skip params levels _)
             (placeOnArc_place params levels _)).
  - rewrite Hlvl1. apply placeCircle_get; [|exact Hi].
    apply NoDup_map_filter. exact Hnd.
  - apply (ring_not_placed levels (nodes params) [2; 3] _ byDepth k info Hnth); [|exact Hk].
    intros d [<-|[<-|[]]]; lia.
Qed.

Lemma computeRadialLayout_ring_witness :
  exists positions,
    @computeRadialLayout Reference.runtime Examples.ringParams = Some positions /\
    JsMap.has positions "k2" = true.
Proof.
  assert (Hnd : NoDup (map key (nodes Examples.ringParams))).
  { repeat constructor; simpl; intuition discriminate. }
  pose proof (computeRadialLayout_ring Reference.runtime Examples.ringParams
                ltac:(simpl; lia) Hnd) as H.
  cbv zeta in H. destruct H as (positions & Hs & Hget).
  exists positions. split; [exact Hs|].
  unfold JsMap.has. now rewrite (Hget 1 "k2" eq_refl).
Defined.

(** ** The base layout *)

Section TrailFacts.
Import JsMap.
Local Open Scope float_scope.

(** The position of the trail for the path key at index [j]. *)
Definition crumbAt (len j : nat) : NodePos :=
  if (0 <? len - j - 1)%nat then mkPos (180 * ofNat (len - j - 1)) (-400) else origin.

Lemma trail_get (len : nat) (l : list string) :
  forall (off : nat) (res : t NodePos) (k : string),
    get (fold_left
           (fun res ik =>
              if has res (snd ik) then res
              else
                let distanceFromFocus := (len - fst ik - 1)%nat in
                if (0 <? distanceFromFocus)%nat
                then set res (snd ik) (mkPos (180 * ofNat distanceFromFocus) (-400))
                else set res (snd ik) origin)
           (combine (seq off (List.length l)) l) res) k
    = match get res k with
      | Some p => Some p
      | None =>
          match indexOf l k with
          | Some i => Some (crumbAt len (off + i))
          | None => None
          end
      end.
Proof.
  induction l as [|a l IH]; intros off res k.
  - simpl. now destruct (get res k).
  - simpl. rewrite IH. unfold has at 1.
    destruct (String.eqb_spec a k) as [->|Hne].
    + destruct (get res k) as [p|] eqn:E.
      * now rewrite E.
      * cbv zeta. rewrite Nat.add_0_r. unfold crumbAt.
        destruct (0 <? len - off - 1)%nat; now rewrite get_set_same.
    + destruct (get res a) as [p|] eqn:E.
      * destruct (get res k); [reflexivity|].
        destruct (indexOf l k); [|reflexivity]. now rewrite Nat.add_succ_r.
      * cbv zeta.
        assert (Hg : forall v, get (set res a v) k = get res k)
          by (intros v; apply get_set_other; congruence).
        destruct (0 <? len - off - 1)%nat; rewrite Hg;
          (destruct (get res k); [reflexivity|]);
          (destruct (indexOf l k); [|reflexivity]); now rewrite Nat.add_succ_r.
Qed.

Lemma breadcrumbTrail_get (path : list string) (res : t NodePos) (k : string) :
  get (breadcrumbTrail path res) k
  = match get res k with
    | Some p => Some p
    | None =>
        match indexOf path k with
        | Some i => Some (crumbAt (List.length path) i)
        | None => None
        end
    end.
Proof. unfold breadcrumbTrail, indexed. now rewrite trail_get. Qed.

End TrailFacts.

Section BaseLayoutFacts.
Import JsMap.
Context {rt : JsRuntime}.

Lemma adaptive_focus (params : LayoutParams) :
  maxDepth params <= 7 ->
  exists positions,
    computeRadialLayoutAdaptive params = Some positions /\
    get positions (centerKey params) = Some origin.
Proof.
  intros Hmax. unfold computeRadialLayoutAdaptive.
  destruct (PrimFloat.ltb _ _).
  - destruct (computeRadialLayout_positioned params Hmax) as (positions & bd & Hs & _).
    exists positions. split; [exact Hs | now apply computeRadialLayout_focus].
  - destruct (computeRadialLayoutAdvanced_positioned params Hmax)
      as (positions & bd & Hs & _).
    exists positions. split; [exact Hs | now apply computeRadialLayoutAdvanced_focus].
Qed.

End BaseLayoutFacts.

(** X19. For [maxDepth] up to 7 the base layout is the adaptive layout of the
    visible graph around the focus, completed along the expansion path: it
    keeps every position of the layout, the focus is at the origin, every
    key of the path has a position, and a key the layout left out is a key
    of the path before the focus, placed at (180 d, -400) where d is the
    number of steps from its first place in the path to the focus. *)
Theorem baseLayout_covers_path :
  forall (rt : JsRuntime) (rootKey : string) (measuredWidth measuredHeight : float)
         (configMaxDepth : nat) (radii : nat -> float) (configChildSpreadDeg : float)
         (vns : list NetworkNode) (ves : list NetworkEdge)
         (ancestors : list string) (focus : string),
    configMaxDepth <= 7 ->
    exists layout res,
      computeRadialLayoutAdaptive
        (baseLayoutParams rootKey measuredWidth measuredHeight configMaxDepth radii
           configChildSpreadDeg vns ves focus) = Some layout /\
      baseLayout rootKey measuredWidth measuredHeight configMaxDepth radii
        configChildSpreadDeg vns ves ancestors focus = Some res /\
      (forall k p, JsMap.get layout k = Some p -> JsMap.get res k = Some p) /\
      JsMap.get res focus = Some origin /\
      (forall k, In k (ancestors ++ [focus]) -> JsMap.has res k = true) /\
      (forall k p,
          JsMap.get res k = Some p -> JsMap.get layout k = None ->
          exists i,
            indexOf ancestors k = Some i /\
            p = mkPos (180 * ofNat (List.length ancestors - i)) (-400)).
Proof.
  intros rt rootKey mw mh maxD radii spread vns ves ancestors focus Hmax.
  destruct (adaptive_focus
              (baseLayoutParams rootKey mw mh maxD radii spread vns ves focus) Hmax)
    as (layout & Hlayout & Hfocus).
  simpl in Hfocus.
  exists layout, (breadcrumbTrail (ancestors ++ [focus]) layout).
  split; [exact Hlayout|]. split; [unfold baseLayout; now rewrite Hlayout|].
  split; [|split; [|split]].
  - intros k p Hk. now rewrite breadcrumbTrail_get, Hk.
  - now rewrite breadcrumbTrail_get, Hfocus.
  - intros k Hk. unfold JsMap.has. rewrite breadcrumbTrail_get.
    destruct (JsMap.get layout k); [reflexivity|].
    apply indexOf_In in Hk as [i ->]. reflexivity.
  - intros k p Hres Hnone. rewrite breadcrumbTrail_get, Hnone in Hres.
    destruct (indexOf (ancestors ++ [focus]) k) as [i|] eqn:Ei; [|discriminate].
    injection Hres as <-.
    assert (Hk : k <> focus) by (intros ->; congruence).
    assert (Hi : indexOf ancestors k = Some i).
    { clear - Ei Hk. revert i Ei. induction ancestors as [|a l IH]; simpl; intros i Ei.
      - destruct (String.eqb_spec focus k); [congruence | discriminate].
      - destruct (String.eqb a k); [exact Ei|].
        destruct (indexOf (l ++ [focus]) k) as [j|]; [|discriminate].
        injection Ei as <-. now rewrite (IH j eq_refl). }
    exists i. split; [exact Hi|].
    apply indexOf_Some in Hi as [Hlt _].
    unfold crumbAt. rewrite length_app. simpl.
    replace (List.length ancestors + 1 - i - 1) with (List.length ancestors - i) by lia.
    destruct (Nat.ltb_spec 0 (List.length ancestors - i)); [reflexivity | lia].
Qed.

Lemma baseLayout_covers_path_witness :
  exists res,
    @baseLayout Reference.runtime "CENTER" 800 600 2 (fun _ => 100%float) 80
      Examples.scenarioNodes Examples.scenarioEdges ["CENTER"] "A" = Some res /\
    JsMap.get res "A" = Some origin.
Proof.
  destruct (baseLayout_covers_path Reference.runtime "CENTER" 800 600 2
              (fun _ => 100%float) 80 Examples.scenarioNodes Examples.scenarioEdges
              ["CENTER"] "A" ltac:(lia))
    as (layout & res & _ & Hres & _ & Hfocus & _).
  exists res. split; [exact Hres | exact Hfocus].
Defined.

(** ** The dynamic radial layout *)

Section DynamicFacts.
Import JsMap.
Context {rt : JsRuntime}.
Variables (es : list NetworkEdge) (baseRadii : nat -> option float).

Definition childrenOf (k : string) : list string :=
  map to (filter (fun e => String.eqb (from e) k) es).

Lemma pushTo_get (adj : t (list string)) (k v k' : string) :
  get (pushTo adj k v) k'
  = match get adj k' with
    | Some l => Some (if String.eqb k k' then l ++ [v] else l)
    | None => None
    end.
Proof.
  unfold pushTo. destruct (get adj k) as [l|] eqn:E.
  - rewrite get_set. destruct (String.eqb_spec k k') as [<-|Hne].
    + now rewrite E.
    + now destruct (get adj k').
  - destruct (String.eqb_spec k k') as [<-|Hne]; [now rewrite E|].
    now destruct (get adj k').
Qed.

Lemma buildChildrenMap_fold (rest : list NetworkEdge) :
  forall (m : t (list string)) (done : list NetworkEdge),
    (forall k, match get m k with Some l => l | None => [] end
               = map to (filter (fun e => String.eqb (from e) k) done)) ->
    forall k,
      match get (fold_left
                   (fun m e => pushTo (if has m (from e) then m else set m (from e) [])
                                 (from e) (to e))
                   rest m) k with
      | Some l => l
      | None => []
      end
      = map to (filter (fun e => String.eqb (from e) k) (done ++ rest)).
Proof.
  induction rest as [|e rest IH]; intros m done Hm k.
  - rewrite app_nil_r. apply Hm.
  - simpl. replace (done ++ e :: rest) with ((done ++ [e]) ++ rest)
      by (now rewrite <- app_assoc).
    apply IH. clear k. intros k.
    rewrite filter_app, map_app. simpl. rewrite <- Hm.
    rewrite pushTo_get. unfold has.
    destruct (get m (from e)) as [l0|] eqn:E0.
    + destruct (String.eqb_spec (from e) k) as [<-|Hne].
      * now rewrite E0.
      * simpl. rewrite app_nil_r. now destruct (get m k).
    + rewrite get_set.
      destruct (String.eqb_spec (from e) k) as [<-|Hne].
      * now rewrite E0.
      * simpl. rewrite app_nil_r. now destruct (get m k).
Qed.

Lemma buildChildrenMap_spec (k : string) :
  match get (buildChildrenMap es) k with Some l => l | None => [] end = childrenOf k.
Proof.
  unfold buildChildrenMap, childrenOf.
  apply (buildChildrenMap_fold es [] []). intros k'. reflexivity.
Qed.

Lemma In_childrenOf (k c : string) :
  In c (childrenOf k) <-> exists e, In e es /\ from e = k /\ to e = c.
Proof.
  unfold childrenOf. rewrite in_map_iff. split.
  - intros (e & Hc & He). apply filter_In in He as [He Hk].
    apply String.eqb_eq in Hk. now exists e.
  - intros (e & He & Hk & Hc). exists e. split; [exact Hc|].
    apply filter_In. split; [exact He | now apply String.eqb_eq].
Qed.

(** What a run of [layoutSubtree] from [parent] with [left] levels left does
    to the keys of the map. *)
Definition subtreeSpec (left : nat) (parent : string) (pos pos' : t NodePos) : Prop :=
  (forall k, has pos k = true -> has pos' k = true) /\
  (forall k n, 1 <= n <= left -> directedWalk es parent k n -> has pos' k = true) /\
  (forall k, has pos' k = true ->
             has pos k = true \/ exists n, 1 <= n <= left /\ directedWalk es parent k n) /\
  (forall k, (forall e, In e es -> to e <> k) -> get pos' k = get pos k).

Lemma directedWalk_first (a b : string) (n : nat) :
  directedWalk es a b (S n) ->
  exists c, In c (childrenOf a) /\ directedWalk es c b n.
Proof.
  intros H. inversion H as [|e b' n' He Hw]; subst.
  exists (to e). split; [|exact Hw]. apply In_childrenOf. now exists e.
Qed.

Lemma layoutSubtree_spec (left : nat) :
  forall (parent : string) (level : nat) (angle : float) (radius : option float)
         (pos : t NodePos),
    has pos parent = true ->
    exists pos',
      layoutSubtree left (buildChildrenMap es) baseRadii parent level angle radius pos
      = Some pos' /\
      subtreeSpec left parent pos pos'.
Proof.
  induction left as [|left IH]; intros parent level angle radius pos Hparent.
  - exists pos. split; [reflexivity|]. repeat split; auto; intros; lia.
  - cbn [layoutSubtree]. rewrite buildChildrenMap_spec.
    destruct (Nat.eqb_spec (List.length (childrenOf parent)) 0) as [Hzero|Hpos].
    + exists pos. split; [reflexivity|].
      assert (Hnone : forall k n, ~ directedWalk es parent k (S n)).
      { intros k n Hw. apply directedWalk_first in Hw as (c & Hc & _).
        destruct (childrenOf parent); [destruct Hc | discriminate]. }
      repeat split; auto.
      intros k n [Hn _] Hw. destruct n; [lia|]. now apply Hnone in Hw.
    + cbv zeta.
      set (step := fun (acc : option (t NodePos)) (ic : nat * string) => _).
      assert (Hfold : forall (ics : list (nat * string)) (pos0 : t NodePos),
                 has pos0 parent = true ->
                 (forall ic, In ic ics -> In (snd ic) (childrenOf parent)) ->
                 exists pos',
                   fold_left step ics (Some pos0) = Some pos' /\
                   (forall k, has pos0 k = true -> has pos' k = true) /\
                   (forall ic k n, In ic ics -> n <= left ->
                                   directedWalk es (snd ic) k n -> has pos' k = true) /\
                   (forall k, has pos' k = true ->
                              has pos0 k = true \/
                              exists ic n, In ic ics /\ n <= left /\
                                           directedWalk es (snd ic) k n) /\
                   (forall k, (forall e, In e es -> to e <> k) -> get pos' k = get pos0 k)).
      { induction ics as [|ic ics IHics]; intros pos0 Hp0 Hics.
        - exists pos0. split; [reflexivity|]. repeat split; auto; intros ic k n [].
        - change (fold_left step (ic :: ics) (Some pos0))
            with (fold_left step ics (step (Some pos0) ic)).
          unfold step at 2.
          destruct (get pos0 parent) as [parentPos|] eqn:Epar;
            [|unfold has in Hp0; rewrite Epar in Hp0; discriminate].
          match goal with
          | |- context [layoutSubtree left _ _ (snd ic) ?lv ?an ?ra ?ps] =>
              destruct (IH (snd ic) lv an ra ps) as (pos1 & Hrun & Hm1 & Hw1 & Hs1 & Hf1)
          end.
          { rewrite has_set, String.eqb_refl. reflexivity. }
          rewrite Hrun.
          assert (Hchild : has pos1 (snd ic) = true).
          { apply Hm1. rewrite has_set, String.eqb_refl. reflexivity. }
          assert (Hkeep : forall k, has pos0 k = true -> has pos1 k = true).
          { intros k Hk. apply Hm1. rewrite has_set, Hk. apply orb_true_r. }
          destruct (IHics pos1) as (pos' & Hfold & Hm & Hw & Hs & Hf).
          { now apply Hkeep. }
          { intros ic' Hic'. apply Hics. now right. }
          exists pos'. split; [exact Hfold|]. split; [|split; [|split]].
          + intros k Hk. apply Hm. now apply Hkeep.
          + intros ic' k n [<-|Hic'] Hn Hwalk.
            * apply Hm. destruct n as [|n].
              -- inversion Hwalk; subst. exact Hchild.
              -- apply (Hw1 k (S n)); [lia | exact Hwalk].
            * now apply (Hw ic' k n).
          + intros k Hk. apply Hs in Hk as [Hk|(ic' & n & Hic' & Hn & Hwalk)].
            * apply Hs1 in Hk as [Hk|(n & Hn & Hwalk)].
              -- rewrite has_set in Hk. apply orb_true_iff in Hk as [Hk|Hk].
                 ++ apply String.eqb_eq in Hk. subst k. right.
                    exists ic, 0. split; [now left|]. split; [lia | constructor].
                 ++ now left.
              -- right. exists ic, n. split; [now left|]. split; [lia | exact Hwalk].
            * right. exists ic', n. split; [now right|]. now split.
          + intros k Hk. rewrite Hf, Hf1 by exact Hk.
            apply get_set_other.
            pose proof (Hics ic (or_introl eq_refl)) as Hc.
            apply In_childrenOf in Hc as (e & He & _ & Hto).
            intros ->. now apply (Hk e He). }
      destruct (Hfold (indexed (childrenOf parent)) pos Hparent)
        as (pos' & Hrun & Hm & Hw & Hs & Hf).
      { intros ic Hic. rewrite <- (map_snd_indexed _ (childrenOf parent)).
        now apply in_map. }
      exists pos'. split; [exact Hrun|]. split; [exact Hm|]. split; [|split; [|exact Hf]].
      * intros k n [Hn1 Hn2] Hwalk. destruct n as [|n]; [lia|].
        apply directedWalk_first in Hwalk as (c & Hc & Hwalk).
        rewrite <- (map_snd_indexed _ (childrenOf parent)) in Hc.
        apply in_map_iff in Hc as (ic & <- & Hic).
        apply (Hw ic k n Hic); [lia | exact Hwalk].
      * intros k Hk. apply Hs in Hk as [Hk|(ic & n & Hic & Hn & Hwalk)]; [now left|].
        right. exists (S n). split; [lia|].
        assert (Hc : In (snd ic) (childrenOf parent)).
        { rewrite <- (map_snd_indexed _ (childrenOf parent)). now apply in_map. }
        apply In_childrenOf in Hc as (e & He & <- & Hto). rewrite <- Hto in Hwalk.
        now apply (@walk_step es e).
Qed.

End DynamicFacts.

(** X20. [computeRadialLayoutDynamic] never throws, and it gives a position
    to exactly the keys that a walk of at most [maxDepth] edges, each
    followed from source to target, reaches from the focus. *)
Theorem computeRadialLayoutDynamic_reach :
  forall (rt : JsRuntime) (es : list NetworkEdge) (centerKey : string)
         (baseRadii : nat -> option float) (maxDepth : nat),
    exists positions,
      computeRadialLayoutDynamic es centerKey baseRadii maxDepth = Some positions /\
      forall k,
        JsMap.has positions k = true <->
        exists n, n <= maxDepth /\ directedWalk es centerKey k n.
Proof.
  intros rt es centerKey baseRadii maxDepth. unfold computeRadialLayoutDynamic.
  destruct (layoutSubtree_spec es baseRadii maxDepth centerKey 1 0%float (baseRadii 1)
              (JsMap.set [] centerKey origin))
    as (positions & Hrun & Hm & Hw & Hs & _).
  { rewrite has_set, String.eqb_refl. reflexivity. }
  exists positions. split; [exact Hrun|]. intros k. split.
  - intros Hk. apply Hs in Hk as [Hk|(n & Hn & Hwalk)].
    + rewrite has_set in Hk. simpl in Hk. rewrite orb_false_r in Hk.
      apply String.eqb_eq in Hk. subst k. exists 0. split; [lia | constructor].
    + exists n. split; [lia | exact Hwalk].
  - intros (n & Hn & Hwalk). destruct n as [|n].
    + inversion Hwalk; subst. apply Hm. rewrite has_set, String.eqb_refl. reflexivity.
    + apply (Hw k (S n)); [lia | exact Hwalk].
Qed.

(** X21. The dynamic layout leaves the focus at the origin unless an edge
    leads to the focus; when the focus has no outgoing edge, or [maxDepth]
    is 0, the focus at the origin is the whole result. *)
Theorem computeRadialLayoutDynamic_focus :
  forall (rt : JsRuntime) (es : list NetworkEdge) (centerKey : string)
         (baseRadii : nat -> option float) (maxDepth : nat),
    ((forall e, In e es -> to e <> centerKey) ->
     option_map (fun positions => JsMap.get positions centerKey)
       (computeRadialLayoutDynamic es centerKey baseRadii maxDepth)
     = Some (Some origin)) /\
    (maxDepth = 0 \/ (forall e, In e es -> from e <> centerKey) ->
     computeRadialLayoutDynamic es centerKey baseRadii maxDepth
     = Some [(centerKey, origin)]).
Proof.
  intros rt es centerKey baseRadii maxDepth. split.
  - intros Hto. unfold computeRadialLayoutDynamic.
    destruct (layoutSubtree_spec es baseRadii maxDepth centerKey 1 0%float (baseRadii 1)
                (JsMap.set [] centerKey origin))
      as (positions & Hrun & _ & _ & _ & Hf).
    { rewrite has_set, String.eqb_refl. reflexivity. }
    rewrite Hrun. simpl. rewrite (Hf centerKey Hto). simpl.
    now rewrite String.eqb_refl.
  - intros [->|Hfrom]; [reflexivity|].
    unfold computeRadialLayoutDynamic. destruct maxDepth as [|left]; [reflexivity|].
    cbn [layoutSubtree]. rewrite buildChildrenMap_spec.
    assert (Hnone : childrenOf es centerKey = []).
    { unfold childrenOf.
      destruct (filter (fun e => String.eqb (from e) centerKey) es) as [|e l] eqn:E;
        [reflexivity|].
      assert (He : In e (filter (fun e => String.eqb (from e) centerKey) es))
        by (rewrite E; now left).
      apply filter_In in He as [He Hk]. apply String.eqb_eq in Hk.
      now apply Hfrom in He. }
    rewrite Hnone. reflexivity.
Qed.

(** ** The strict radial model generator *)

Section GeneratorFacts.
Import StrictRadialModel.
Variable rand : nat -> float.

Lemma natToString_inj (a b : nat) : natToString a = natToString b -> a = b.
Proof.
  unfold natToString. intros H.
  assert (H' : Some (Nat.to_uint a) = Some (Nat.to_uint b)).
  { rewrite <- !DecimalString.NilEmpty.usu. now rewrite H. }
  injection H' as H'. rewrite <- (DecimalNat.Unsigned.of_to a), <- (DecimalNat.Unsigned.of_to b). now rewrite H'.
Qed.

Definition radialKey (i : nat) : string := "R" ++ natToString (i + 1).

Definition radialNode (flag : nat -> bool) (i : nat) : NetworkNode :=
  mkNode (radialKey i) ("Radial " ++ natToString (i + 1)) (flag i).

Lemma radialKey_inj (i j : nat) : radialKey i = radialKey j -> i = j.
Proof.
  unfold radialKey. simpl. intros H. injection H as H.
  apply natToString_inj in H. lia.
Qed.

(** An edge between the centre and the radial node [i], in either
    direction. *)
Definition radialEdge (c : nat) (e : GeneratedEdge) : Prop :=
  exists i, i < c /\
            (endpoints e = mkEdge "CENTER" (radialKey i) \/
             endpoints e = mkEdge (radialKey i) "CENTER").

Lemma radialEdge_mono (c c' : nat) (e : GeneratedEdge) :
  c <= c' -> radialEdge c e -> radialEdge c' e.
Proof. intros Hc (i & Hi & H). exists i. split; [lia | exact H]. Qed.

Lemma addRadial_fold (c : nat) :
  forall (st : GeneratorState) (keys : list string),
  exists es',
    fold_left (addRadial rand) (seq 0 c) (st, keys)
    = (mkState (draws st + 2 * c)
         (gnodes st ++ map (radialNode (fun _ => false)) (seq 0 c))
         (gedges st ++ es'),
       keys ++ map radialKey (seq 0 c)) /\
    Forall (radialEdge c) es' /\ List.length es' <= c.
Proof.
  induction c as [|c IH]; intros st keys.
  - exists []. simpl. rewrite !app_nil_r, Nat.add_0_r. destruct st. now repeat split.
  - destruct (IH st keys) as (es' & Hfold & Hall & Hlen).
    rewrite seq_S, fold_left_app, Hfold. cbn [fold_left Nat.add].
    unfold addRadial. cbn [fst snd draws gnodes gedges].
    fold (radialKey c).
    assert (Hshape : forall new : list GeneratedEdge,
               Forall (radialEdge (S c)) new -> List.length new <= 1 ->
               exists es'',
                 (mkState (draws st + 2 * c + 2)
                    ((gnodes st ++ map (radialNode (fun _ => false)) (seq 0 c))
                     ++ [mkNode (radialKey c) ("Radial " ++ natToString (c + 1)) false])
                    ((gedges st ++ es') ++ new),
                  (keys ++ map radialKey (seq 0 c)) ++ [radialKey c])
                 = (mkState (draws st + 2 * S c)
                      (gnodes st ++ map (radialNode (fun _ => false)) (seq 0 c ++ [c]))
                      (gedges st ++ es''),
                    keys ++ map radialKey (seq 0 c ++ [c])) /\
                 Forall (radialEdge (S c)) es'' /\ List.length es'' <= S c).
    { intros new Hnew Hlen1. exists (es' ++ new). split; [|split].
      - rewrite !map_app, !app_assoc. simpl. f_equal. f_equal. lia.
      - apply Forall_app. split; [|exact Hnew].
        eapply Forall_impl; [|exact Hall]. intros e. apply radialEdge_mono. lia.
      - rewrite length_app. lia. }
    destruct (pick rand EDGE_DIRECTIONS (draws st + 2 * c)) as [[| |]|];
      apply Hshape; try (simpl; lia); repeat constructor;
      exists c; (split; [lia|]); simpl; auto.
Qed.

Definition mark (n : NetworkNode) : NetworkNode := mkNode (key n) (text n) true.

Lemma markExpandable_map (ns : list NetworkNode) (k : string) :
  NoDup (map key ns) ->
  markExpandable ns k = map (fun n => if String.eqb (key n) k then mark n else n) ns.
Proof.
  induction ns as [|n ns IH]; [reflexivity|].
  intros Hnd. simpl in *. inversion Hnd as [|? ? Hnotin Hnd']; subst.
  destruct (String.eqb_spec (key n) k) as [<-|Hne].
  - f_equal. symmetry. rewrite <- (map_id ns) at 2. apply map_ext_in.
    intros m Hm. destruct (String.eqb_spec (key m) (key n)) as [E|]; [|reflexivity].
    exfalso. apply Hnotin. rewrite <- E. now apply in_map.
  - f_equal. now apply IH.
Qed.

Lemma fold_markExpandable (ks : list string) :
  forall ns : list NetworkNode,
    NoDup (map key ns) ->
    fold_left markExpandable ks ns
    = map (fun n => if JsSet.has ks (key n) then mark n else n) ns.
Proof.
  induction ks as [|k ks IH]; intros ns Hnd.
  - simpl. now rewrite map_id.
  - simpl. rewrite (markExpandable_map ns k Hnd), IH.
    + rewrite map_map. apply map_ext. intros n.
      destruct (String.eqb (key n) k); simpl; [now destruct (JsSet.has ks (key n))|].
      reflexivity.
    + rewrite map_map.
      replace (map (fun n => key (if String.eqb (key n) k then mark n else n)) ns)
        with (map key ns); [exact Hnd|].
      apply map_ext. intros n. now destruct (String.eqb (key n) k).
Qed.

Lemma fold_left_id (A B : Type) (f : A -> B -> A) (l : list B) (a : A) :
  (forall b, f a b = a) -> fold_left f l a = a.
Proof.
  intros H. induction l as [|b l IH]; [reflexivity|]. simpl. now rewrite H.
Qed.

Lemma In_firstn (A : Type) (l : list A) (n : nat) (a : A) : In a (firstn n l) -> In a l.
Proof. intros H. rewrite <- (firstn_skipn n l). apply in_or_app. now left. Qed.

Lemma firstn_seq_min (k : nat) : forall a c, firstn k (seq a c) = seq a (Nat.min k c).
Proof.
  induction k as [|k IH]; intros a c; [reflexivity|].
  destruct c as [|c]; [reflexivity|]. simpl. now rewrite IH.
Qed.

Lemma NoDup_map_injective (A B : Type) (f : A -> B) (l : list A) :
  (forall a b, f a = f b -> a = b) -> NoDup l -> NoDup (map f l).
Proof.
  intros Hinj. induction 1 as [|a l Hnotin Hnd IH]; simpl; constructor; [|exact IH].
  intros H. apply in_map_iff in H as (b & Hb & Hin). apply Hinj in Hb. now subst b.
Qed.

Lemma NoDup_radialKeys (c : nat) : NoDup ("CENTER" :: map radialKey (seq 0 c)).
Proof.
  constructor.
  - intros H. apply in_map_iff in H as (i & H & _). discriminate H.
  - apply NoDup_map_injective; [|apply seq_NoDup].
    intros i j. apply radialKey_inj.
Qed.

Lemma generated_nodes (totalNodes : nat) :
  gnodes (generateStrictRadialModel rand totalNodes)
  = mkNode "CENTER" "Central Node" false
    :: map (radialNode (fun i => (i <? 6)%nat)) (seq 0 (clamp totalNodes 5 500 - 1)) /\
  exists es',
    gedges (generateStrictRadialModel rand totalNodes) = es' /\
    Forall (radialEdge (clamp totalNodes 5 500 - 1)) es' /\
    List.length es' <= clamp totalNodes 5 500 - 1.
Proof.
  unfold generateStrictRadialModel.
  set (n := clamp totalNodes 5 500).
  assert (Hn : 5 <= n <= 500) by (unfold n, clamp; lia).
  replace (clamp (n - 1) 1 (n - 1)) with (n - 1) by (unfold clamp; lia).
  destruct (addRadial_fold (n - 1) (mkState 0 [mkNode "CENTER" "Central Node" false] []) [])
    as (es' & Hfold & Hall & Hlen).
  set (c := n - 1) in *.
  simpl in Hfold. rewrite Hfold. cbn [fst snd draws gnodes gedges].
  set (ks := firstn 6 (map radialKey (seq 0 c))).
  set (nodes1 := mkNode "CENTER" "Central Node" false
                 :: map (radialNode (fun _ => false)) (seq 0 c)).
  assert (Hkeys1 : map key nodes1 = "CENTER" :: map radialKey (seq 0 c)).
  { unfold nodes1. simpl. f_equal. rewrite map_map. reflexivity. }
  assert (Hmarked : fold_left markExpandable ks nodes1
                    = mkNode "CENTER" "Central Node" false
                      :: map (radialNode (fun i => (i <? 6)%nat)) (seq 0 c)).
  { rewrite fold_markExpandable by (rewrite Hkeys1; apply NoDup_radialKeys).
    unfold nodes1. simpl map at 1.
    assert (Hc : JsSet.has ks "CENTER" = false).
    { apply JsSetFacts.has_false. intros H. apply In_firstn in H.
      apply in_map_iff in H as (i & H & _). discriminate H. }
    cbn [key]. rewrite Hc. f_equal.
    rewrite map_map. apply map_ext_in. intros i Hi. apply in_seq in Hi.
    unfold mark, radialNode. cbn [key text].
    destruct (Nat.ltb_spec i 6) as [Hlt|Hge].
    - assert (H : JsSet.has ks (radialKey i) = true).
      { apply JsSetFacts.has_In. unfold ks. rewrite firstn_map, firstn_seq_min.
        apply in_map. apply in_seq. lia. }
      now rewrite H.
    - assert (H : JsSet.has ks (radialKey i) = false).
      { apply JsSetFacts.has_false. unfold ks. rewrite firstn_map, firstn_seq_min.
        intros H. apply in_map_iff in H as (j & Hj & Hin).
        apply radialKey_inj in Hj. subst j. apply in_seq in Hin. lia. }
      now rewrite H. }
  rewrite Hmarked.
  rewrite fold_left_id.
  - cbn [fst gnodes gedges]. split; [reflexivity|]. exists es'. now repeat split.
  - intros ip. unfold addChildren. cbn [snd].
    assert (Hlen' : List.length
                      (mkNode "CENTER" "Central Node" false
                       :: map (radialNode (fun i => (i <? 6)%nat)) (seq 0 c)) = n).
    { simpl. rewrite length_map, length_seq. unfold c. lia. }
    rewrite Hlen', Nat.leb_refl. reflexivity.
Qed.

End GeneratorFacts.

(** X22. The strict radial generator returns, for every stream of random
    numbers, the centre and the radial nodes R1 ... R(n-1), where n is
    [totalNodes] clamped to 5..500, the first six of them expandable: the
    radial level takes every node the model may have, so no child node is
    ever created. The keys are pairwise distinct, and every edge joins the
    centre and a radial node, and there are at most as many edges as radial
    nodes. *)
Theorem generateStrictRadialModel_is_a_star :
  forall (rand : nat -> float) (totalNodes : nat),
    let m := StrictRadialModel.generateStrictRadialModel rand totalNodes in
    let c := StrictRadialModel.clamp totalNodes 5 500 - 1 in
    StrictRadialModel.gnodes m
    = mkNode "CENTER" "Central Node" false
      :: map (fun i => mkNode ("R" ++ natToString (i + 1))%string
                         ("Radial " ++ natToString (i + 1))%string (i <? 6)%nat)
           (seq 0 c) /\
    List.length (StrictRadialModel.gnodes m) = StrictRadialModel.clamp totalNodes 5 500 /\
    NoDup (map key (StrictRadialModel.gnodes m)) /\
    Forall (fun e =>
              exists i, i < c /\
                (StrictRadialModel.endpoints e
                 = mkEdge "CENTER" ("R" ++ natToString (i + 1))%string \/
                 StrictRadialModel.endpoints e
                 = mkEdge ("R" ++ natToString (i + 1))%string "CENTER"))
      (StrictRadialModel.gedges m) /\
    List.length (StrictRadialModel.gedges m) <= c.
Proof.
  intros rand totalNodes m c.
  destruct (generated_nodes rand totalNodes) as (Hnodes & es' & Hedges & Hall & Hlen).
  fold m in Hnodes, Hedges. fold c in Hnodes, Hall, Hlen.
  assert (Hc : 4 <= c) by (unfold c, StrictRadialModel.clamp; lia).
  split; [exact Hnodes|]. split; [|split; [|split]].
  - rewrite Hnodes. simpl. rewrite length_map, length_seq.
    unfold c in *. unfold StrictRadialModel.clamp in *. lia.
  - rewrite Hnodes. simpl. rewrite map_map. apply NoDup_radialKeys.
  - rewrite Hedges. exact Hall.
  - now rewrite Hedges.
Qed.

(* ------------------------------------------------------------------ *)
(** ** The order of binary64 *)

Section FloatOrder.
Local Open Scope Z_scope.

(** The place of a value that is not NaN in the order: its class (-2 for
    -infinity, -1 for a negative number, 0 for the zeros, 1 for a positive
    number, 2 for +infinity), then exponent and mantissa, negated for a
    negative number. *)
Definition rank (f : spec_float) : Z * Z * Z :=
  match f with
  | S754_zero _ => (0, 0, 0)
  | S754_infinity true => (-2, 0, 0)
  | S754_infinity false => (2, 0, 0)
  | S754_nan => (0, 0, 0)
  | S754_finite false m e => (1, e, Z.pos m)
  | S754_finite true m e => (-1, - e, Z.neg m)
  end.

Definition lexlt (a b : Z * Z * Z) : Prop :=
  fst (fst a) < fst (fst b) \/
  (fst (fst a) = fst (fst b) /\
   (snd (fst a) < snd (fst b) \/ (snd (fst a) = snd (fst b) /\ snd a < snd b))).

Definition lexeq (a b : Z * Z * Z) : Prop :=
  fst (fst a) = fst (fst b) /\ snd (fst a) = snd (fst b) /\ snd a = snd b.

Lemma SFcompare_rank (f1 f2 : spec_float) :
  f1 <> S754_nan -> f2 <> S754_nan ->
  exists c, SFcompare f1 f2 = Some c /\
            match c with
            | Lt => lexlt (rank f1) (rank f2)
            | Eq => lexeq (rank f1) (rank f2)
            | Gt => lexlt (rank f2) (rank f1)
            end.
Proof.
  intros H1 H2.
  destruct f1 as [s1|s1| |s1 m1 e1]; [| |congruence|];
    (destruct f2 as [s2|s2| |s2 m2 e2]; [| |congruence|]);
    try (destruct s1); try (destruct s2); simpl;
    try (eexists; split; [reflexivity|]; unfold lexlt, lexeq; simpl; lia).
  - destruct (Z.compare_spec e1 e2) as [->|Hlt|Hgt].
    + change (PosDef.Pos.compare_cont Eq m1 m2) with (Pos.compare m1 m2).
      destruct (Pos.compare_spec m1 m2) as [->|Hm|Hm]; simpl;
        (eexists; split; [reflexivity|]); unfold lexlt, lexeq; simpl; lia.
    + eexists; split; [reflexivity|]. unfold lexlt; simpl; lia.
    + eexists; split; [reflexivity|]. unfold lexlt; simpl; lia.
  - destruct (Z.compare_spec e1 e2) as [->|Hlt|Hgt].
    + change (PosDef.Pos.compare_cont Eq m1 m2) with (Pos.compare m1 m2).
      destruct (Pos.compare_spec m1 m2) as [->|Hm|Hm]; simpl;
        (eexists; split; [reflexivity|]); unfold lexlt, lexeq; simpl; lia.
    + eexists; split; [reflexivity|]. unfold lexlt; simpl; lia.
    + eexists; split; [reflexivity|]. unfold lexlt; simpl; lia.
Qed.

End FloatOrder.

Section FloatOrderFacts.
Local Open Scope float_scope.

Definition notNaN (a : float) : Prop := PrimFloat.is_nan a = false.

Lemma notNaN_spec (a : float) : notNaN a <-> Prim2SF a <> S754_nan.
Proof.
  unfold notNaN, PrimFloat.is_nan. rewrite FloatAxioms.eqb_spec. unfold SFeqb. split.
  - intros H E. rewrite E in H. discriminate H.
  - intros H. destruct (SFcompare_rank (Prim2SF a) (Prim2SF a) H H) as (c & -> & Hc).
    destruct c; [reflexivity| |]; exfalso; unfold lexlt in Hc; lia.
Qed.

Lemma ltb_rank (a b : float) :
  notNaN a -> notNaN b ->
  ((a <? b) = true <-> lexlt (rank (Prim2SF a)) (rank (Prim2SF b))).
Proof.
  intros Ha Hb. apply notNaN_spec in Ha, Hb.
  rewrite FloatAxioms.ltb_spec. unfold SFltb.
  destruct (SFcompare_rank _ _ Ha Hb) as (c & -> & Hc).
  destruct c; (split; [try discriminate; try (intros _; exact Hc) | intros H; try reflexivity]);
    exfalso; unfold lexlt, lexeq in *; lia.
Qed.

Lemma leb_rank (a b : float) :
  notNaN a -> notNaN b ->
  ((a <=? b) = true <-> ~ lexlt (rank (Prim2SF b)) (rank (Prim2SF a))).
Proof.
  intros Ha Hb. apply notNaN_spec in Ha, Hb.
  rewrite FloatAxioms.leb_spec. unfold SFleb.
  destruct (SFcompare_rank _ _ Ha Hb) as (c & -> & Hc).
  destruct c.
  - split; [intros _ H; unfold lexlt, lexeq in *; lia | reflexivity].
  - split; [intros _ H; unfold lexlt, lexeq in *; lia | reflexivity].
  - split; [discriminate | intros H; exfalso; apply H; exact Hc].
Qed.

Lemma leF_notNaN (a b : float) : leF a b -> notNaN a /\ notNaN b.
Proof.
  unfold leF. rewrite FloatAxioms.leb_spec. unfold SFleb. intros H.
  split; apply notNaN_spec; intros E; rewrite E in H; simpl in H;
    [|destruct (Prim2SF a)]; discriminate H.
Qed.

Lemma ltb_notNaN (a b : float) : (a <? b) = true -> notNaN a /\ notNaN b.
Proof.
  rewrite FloatAxioms.ltb_spec. unfold SFltb. intros H.
  split; apply notNaN_spec; intros E; rewrite E in H; simpl in H;
    [|destruct (Prim2SF a)]; discriminate H.
Qed.

Lemma leF_refl (a : float) : notNaN a -> leF a a.
Proof. intros Ha. apply leb_rank; [exact Ha | exact Ha|]. unfold lexlt. lia. Qed.

Lemma leF_trans (a b c : float) : leF a b -> leF b c -> leF a c.
Proof.
  intros Hab Hbc.
  destruct (leF_notNaN _ _ Hab) as [Ha Hb]. destruct (leF_notNaN _ _ Hbc) as [_ Hc].
  apply leb_rank in Hab; [|assumption..]. apply leb_rank in Hbc; [|assumption..].
  apply leb_rank; [assumption..|]. unfold lexlt in *. lia.
Qed.

Lemma ltb_leF (a b : float) : (a <? b) = true -> leF a b.
Proof.
  intros H. destruct (ltb_notNaN _ _ H) as [Ha Hb].
  apply ltb_rank in H; [|assumption..].
  apply leb_rank; [assumption..|]. unfold lexlt in *. lia.
Qed.

Lemma not_ltb_leF (a b : float) : notNaN a -> notNaN b -> (a <? b) = false -> leF b a.
Proof.
  intros Ha Hb H. apply leb_rank; [assumption..|].
  intros Hlt. apply ltb_rank in Hlt; [|assumption..]. congruence.
Qed.

(** [Math.min] and [Math.max] of two numbers that are not NaN: one of the
    two, below (above) both. *)
Lemma Math_min_spec (a b : float) :
  notNaN a -> notNaN b ->
  (Math_min a b = a \/ Math_min a b = b) /\
  leF (Math_min a b) a /\ leF (Math_min a b) b.
Proof.
  intros Ha Hb. unfold Math_min. rewrite Ha, Hb. simpl.
  destruct (a <? b) eqn:E1.
  - split; [now left|]. split; [now apply leF_refl | now apply ltb_leF].
  - destruct (b <? a) eqn:E2.
    + split; [now right|]. split; [now apply ltb_leF | now apply leF_refl].
    + destruct (PrimFloat.get_sign a).
      * split; [now left|]. split; [now apply leF_refl | now apply not_ltb_leF].
      * split; [now right|]. split; [now apply not_ltb_leF | now apply leF_refl].
Qed.

Lemma Math_max_spec (a b : float) :
  notNaN a -> notNaN b ->
  (Math_max a b = a \/ Math_max a b = b) /\
  leF a (Math_max a b) /\ leF b (Math_max a b).
Proof.
  intros Ha Hb. unfold Math_max. rewrite Ha, Hb. simpl.
  destruct (a <? b) eqn:E1.
  - split; [now right|]. split; [now apply ltb_leF | now apply leF_refl].
  - destruct (b <? a) eqn:E2.
    + split; [now left|]. split; [now apply leF_refl | now apply ltb_leF].
    + destruct (PrimFloat.get_sign a).
      * split; [now right|]. split; [now apply not_ltb_leF | now apply leF_refl].
      * split; [now left|]. split; [now apply leF_refl | now apply not_ltb_leF].
Qed.

Lemma Math_min_nan (a b : float) :
  PrimFloat.is_nan (Math_min a b) = PrimFloat.is_nan a || PrimFloat.is_nan b.
Proof.
  destruct (PrimFloat.is_nan a) eqn:Ea; [unfold Math_min; now rewrite Ea|].
  destruct (PrimFloat.is_nan b) eqn:Eb;
    [unfold Math_min; rewrite Ea, Eb; reflexivity|].
  destruct (Math_min_spec a b Ea Eb) as [[->| ->] _]; assumption.
Qed.

Lemma Math_max_nan (a b : float) :
  PrimFloat.is_nan (Math_max a b) = PrimFloat.is_nan a || PrimFloat.is_nan b.
Proof.
  destruct (PrimFloat.is_nan a) eqn:Ea; [unfold Math_max; now rewrite Ea|].
  destruct (PrimFloat.is_nan b) eqn:Eb;
    [unfold Math_max; rewrite Ea, Eb; reflexivity|].
  destruct (Math_max_spec a b Ea Eb) as [[->| ->] _]; assumption.
Qed.

End FloatOrderFacts.

Section FiniteFacts.
Local Open Scope float_scope.

Lemma isFinite_spec (a : float) :
  isFinite a = true <->
  match Prim2SF a with
  | S754_zero _ | S754_finite _ _ _ => True
  | _ => False
  end.
Proof.
  unfold isFinite, PrimFloat.is_nan, PrimFloat.is_infinity.
  rewrite !FloatAxioms.eqb_spec, FloatAxioms.abs_spec.
  change (Prim2SF infinity) with (S754_infinity false).
  destruct (Prim2SF a) as [s|s| |s m e]; simpl.
  - tauto.
  - destruct s; simpl; split; (discriminate || contradiction).
  - split; (discriminate || contradiction).
  - unfold SFeqb. simpl. rewrite Z.compare_refl.
    change (PosDef.Pos.compare_cont Eq m m) with (Pos.compare m m).
    rewrite Pos.compare_refl. destruct s; simpl; tauto.
Qed.

Lemma isFinite_notNaN (a : float) : isFinite a = true -> notNaN a.
Proof. apply isFinite_not_nan. Qed.

(** A number between two finite numbers is finite. *)
Lemma sandwich_finite (lo c hi : float) :
  isFinite lo = true -> isFinite hi = true -> leF lo c -> leF c hi -> isFinite c = true.
Proof.
  intros Hlo Hhi H1 H2.
  destruct (leF_notNaN _ _ H1) as [Nlo Nc]. destruct (leF_notNaN _ _ H2) as [_ Nhi].
  apply leb_rank in H1; [|assumption..]. apply leb_rank in H2; [|assumption..].
  apply isFinite_spec in Hlo, Hhi. apply isFinite_spec.
  apply notNaN_spec in Nc.
  destruct (Prim2SF c) as [s|s| |s m e]; [exact I| |congruence|exact I].
  exfalso.
  destruct (Prim2SF lo) as [sl|sl| |sl ml el]; try contradiction;
    destruct (Prim2SF hi) as [sh|sh| |sh mh eh]; try contradiction;
    destruct s; try destruct sl; try destruct sh;
    unfold lexlt in H1, H2; simpl in H1, H2; lia.
Qed.

Lemma fold_min_spec (vs : list float) :
  forall a,
    notNaN (fold_left Math_min vs a) ->
    leF (fold_left Math_min vs a) a /\
    forall v, In v vs -> leF (fold_left Math_min vs a) v.
Proof.
  induction vs as [|v vs IH]; intros a H; simpl in *.
  - split; [now apply leF_refl | intros v []].
  - destruct (IH _ H) as [Hm Hrest].
    destruct (leF_notNaN _ _ Hm) as [_ Hn].
    unfold notNaN in Hn. rewrite Math_min_nan in Hn. apply orb_false_iff in Hn as [Ha Hv].
    destruct (Math_min_spec a v Ha Hv) as (_ & Hma & Hmv).
    split; [now apply leF_trans with (Math_min a v)|].
    intros v' [<-|Hin]; [now apply leF_trans with (Math_min a v) | now apply Hrest].
Qed.

Lemma fold_max_spec (vs : list float) :
  forall a,
    notNaN (fold_left Math_max vs a) ->
    leF a (fold_left Math_max vs a) /\
    forall v, In v vs -> leF v (fold_left Math_max vs a).
Proof.
  induction vs as [|v vs IH]; intros a H; simpl in *.
  - split; [now apply leF_refl | intros v []].
  - destruct (IH _ H) as [Hm Hrest].
    destruct (leF_notNaN _ _ Hm) as [Hn _].
    unfold notNaN in Hn. rewrite Math_max_nan in Hn. apply orb_false_iff in Hn as [Ha Hv].
    destruct (Math_max_spec a v Ha Hv) as (_ & Hma & Hmv).
    split; [now apply leF_trans with (Math_max a v)|].
    intros v' [<-|Hin]; [now apply leF_trans with (Math_max a v) | now apply Hrest].
Qed.

Lemma fold_min_finite (vs : list float) :
  forall a,
    isFinite a = true -> (forall v, In v vs -> isFinite v = true) ->
    isFinite (fold_left Math_min vs a) = true.
Proof.
  induction vs as [|v vs IH]; intros a Ha Hvs; simpl; [exact Ha|].
  apply IH; [|intros v' Hv'; apply Hvs; now right].
  apply Math_min_finite; [exact Ha | apply Hvs; now left].
Qed.

Lemma fold_max_finite (vs : list float) :
  forall a,
    isFinite a = true -> (forall v, In v vs -> isFinite v = true) ->
    isFinite (fold_left Math_max vs a) = true.
Proof.
  induction vs as [|v vs IH]; intros a Ha Hvs; simpl; [exact Ha|].
  apply IH; [|intros v' Hv'; apply Hvs; now right].
  apply Math_max_finite; [exact Ha | apply Hvs; now left].
Qed.

Lemma fold_min_infinity_finite (vs : list float) :
  vs <> [] -> (forall v, In v vs -> isFinite v = true) ->
  isFinite (fold_left Math_min vs infinity) = true.
Proof.
  destruct vs as [|v vs]; [congruence|]. intros _ Hvs. simpl.
  rewrite Math_min_infinity by (apply isFinite_not_nan, Hvs; now left).
  apply fold_min_finite; [apply Hvs; now left | intros v' Hv'; apply Hvs; now right].
Qed.

Lemma fold_max_infinity_finite (vs : list float) :
  vs <> [] -> (forall v, In v vs -> isFinite v = true) ->
  isFinite (fold_left Math_max vs neg_infinity) = true.
Proof.
  destruct vs as [|v vs]; [congruence|]. intros _ Hvs. simpl.
  rewrite Math_max_neg_infinity by (apply isFinite_not_nan, Hvs; now left).
  apply fold_max_finite; [apply Hvs; now left | intros v' Hv'; apply Hvs; now right].
Qed.

End FiniteFacts.

(** X23. [clamp] of a number that is not NaN between bounds [lo <= hi] is one
    of the number and the two bounds, and lies between the bounds. *)
Theorem clamp_within_bounds :
  forall n lo hi : float,
    leF lo hi -> PrimFloat.is_nan n = false ->
    leF lo (clamp n lo hi) /\ leF (clamp n lo hi) hi /\
    (clamp n lo hi = n \/ clamp n lo hi = lo \/ clamp n lo hi = hi).
Proof.
  intros n lo hi Hlh Hn. unfold clamp.
  destruct (leF_notNaN _ _ Hlh) as [Nlo Nhi].
  destruct (Math_min_spec hi n Nhi Hn) as (Hsel & Hmh & Hmn).
  assert (Nm : notNaN (Math_min hi n)) by (apply (leF_notNaN _ _ Hmh)).
  destruct (Math_max_spec lo (Math_min hi n) Nlo Nm) as (Hsel' & Hlo & Hm).
  split; [exact Hlo|]. split.
  - destruct Hsel' as [-> | ->]; assumption.
  - destruct Hsel' as [-> | ->]; [now right; left|].
    destruct Hsel as [-> | ->]; [now right; right | now left].
Qed.

Lemma clamp_within_bounds_witness :
  leF 0.25 (clamp 5 0.25 3) /\ leF (clamp 5 0.25 3) 3.
Proof.
  destruct (clamp_within_bounds 5 0.25 3) as (H1 & H2 & _);
    [reflexivity | reflexivity | split; assumption].
Defined.

Section GraphBoundsFacts.
Import JsMap.
Local Open Scope float_scope.

(** The points [computeGraphBounds] grows the bounds by: two corners of the
    box of every node, then the icon centre of every node. *)
Definition boundsPoints (positions : t NodePos) : list (float * float) :=
  flat_map
    (fun p => [(x p - NODE_BOX_WIDTH / 2, y p - NODE_BOX_HEIGHT / 2);
               (x p + NODE_BOX_WIDTH / 2, y p + NODE_BOX_HEIGHT / 2)])
    (values positions)
  ++ map (fun p => (x (getNodeIconCenter p), y (getNodeIconCenter p))) (values positions).

Definition growPoints (b : ClusterBounds) (pts : list (float * float)) : ClusterBounds :=
  fold_left (fun b pt => grow b (fst pt) (snd pt)) pts b.

Lemma growPoints_boxes (ps : list NodePos) :
  forall b,
    fold_left
      (fun b p =>
         grow (grow b (x p - NODE_BOX_WIDTH / 2) (y p - NODE_BOX_HEIGHT / 2))
              (x p + NODE_BOX_WIDTH / 2) (y p + NODE_BOX_HEIGHT / 2))
      ps b
    = growPoints b
        (flat_map
           (fun p => [(x p - NODE_BOX_WIDTH / 2, y p - NODE_BOX_HEIGHT / 2);
                      (x p + NODE_BOX_WIDTH / 2, y p + NODE_BOX_HEIGHT / 2)])
           ps).
Proof.
  induction ps as [|p ps IH]; intros b; [reflexivity|].
  cbn [fold_left flat_map app]. rewrite IH. reflexivity.
Qed.

Lemma growPoints_centres (ps : list NodePos) :
  forall b,
    fold_left (fun b p => let c := getNodeIconCenter p in grow b (x c) (y c)) ps b
    = growPoints b (map (fun p => (x (getNodeIconCenter p), y (getNodeIconCenter p))) ps).
Proof.
  induction ps as [|p ps IH]; intros b; [reflexivity|].
  cbn [fold_left map]. rewrite IH. reflexivity.
Qed.

Lemma growPoints_components (pts : list (float * float)) :
  forall b,
    minX (growPoints b pts) = fold_left Math_min (map fst pts) (minX b) /\
    minY (growPoints b pts) = fold_left Math_min (map snd pts) (minY b) /\
    maxX (growPoints b pts) = fold_left Math_max (map fst pts) (maxX b) /\
    maxY (growPoints b pts) = fold_left Math_max (map snd pts) (maxY b).
Proof.
  induction pts as [|pt pts IH]; intros b; [now repeat split|].
  cbn [growPoints fold_left map]. fold (growPoints (grow b (fst pt) (snd pt)) pts).
  destruct (IH (grow b (fst pt) (snd pt))) as (H1 & H2 & H3 & H4).
  rewrite H1, H2, H3, H4. now repeat split.
Qed.

Lemma growPoints_app (b : ClusterBounds) (l1 l2 : list (float * float)) :
  growPoints (growPoints b l1) l2 = growPoints b (l1 ++ l2).
Proof. unfold growPoints. now rewrite fold_left_app. Qed.

Lemma computeGraphBounds_growPoints (positions : t NodePos) :
  computeGraphBounds positions
  = let b := growPoints emptyBounds (boundsPoints positions) in
    if finiteBounds b then Some b else None.
Proof.
  unfold computeGraphBounds, boundsPoints. cbv zeta.
  rewrite growPoints_boxes, growPoints_centres, growPoints_app.
  set (b := growPoints _ _). unfold finiteBounds.
  destruct (isFinite (minX b)), (isFinite (minY b)), (isFinite (maxX b)),
    (isFinite (maxY b)); reflexivity.
Qed.

Lemma growPoints_within (pts : list (float * float)) :
  finiteBounds (growPoints emptyBounds pts) = true ->
  forall pt, In pt pts -> withinBounds (growPoints emptyBounds pts) (fst pt) (snd pt).
Proof.
  intros Hfin pt Hpt.
  destruct (growPoints_components pts emptyBounds) as (H1 & H2 & H3 & H4).
  unfold finiteBounds in Hfin. rewrite !andb_true_iff in Hfin.
  destruct Hfin as [[[F1 F2] F3] F4].
  unfold withinBounds. rewrite H1, H2, H3, H4 in *.
  repeat split.
  - apply fold_min_spec; [now apply isFinite_notNaN | now apply in_map].
  - apply fold_max_spec; [now apply isFinite_notNaN | now apply in_map].
  - apply fold_min_spec; [now apply isFinite_notNaN | now apply in_map].
  - apply fold_max_spec; [now apply isFinite_notNaN | now apply in_map].
Qed.

Lemma In_boundsPoints (positions : t NodePos) (pt : float * float) :
  In pt (boundsPoints positions) <->
  exists p, In p (values positions) /\
            (pt = (x p - NODE_BOX_WIDTH / 2, y p - NODE_BOX_HEIGHT / 2) \/
             pt = (x p + NODE_BOX_WIDTH / 2, y p + NODE_BOX_HEIGHT / 2) \/
             pt = (x p, y p + iconCenterYOffset)).
Proof.
  unfold boundsPoints. rewrite in_app_iff, in_flat_map, in_map_iff. split.
  - intros [(p & Hp & [<-|[<-|[]]])|(p & <- & Hp)]; exists p; auto.
  - intros (p & Hp & [->|[->| ->]]).
    + left. exists p. split; [exact Hp | now left].
    + left. exists p. split; [exact Hp | right; now left].
    + right. exists p. now split.
Qed.

Lemma computeGraphBounds_Some_iff (positions : t NodePos) :
  (exists b, computeGraphBounds positions = Some b) <->
  positions <> [] /\ forallb finiteBox (values positions) = true.
Proof.
  rewrite computeGraphBounds_growPoints. cbv zeta.
  set (b := growPoints emptyBounds (boundsPoints positions)).
  destruct (growPoints_components (boundsPoints positions) emptyBounds)
    as (H1 & H2 & H3 & H4). fold b in H1, H2, H3, H4.
  split.
  - intros [b' Hb]. destruct (finiteBounds b) eqn:Hfin; [|discriminate].
    split.
    + intros ->. vm_compute in Hfin. discriminate Hfin.
    + apply forallb_forall. intros p Hp.
      pose proof (growPoints_within _ Hfin) as Hw. fold b in Hw.
      unfold finiteBounds in Hfin. rewrite !andb_true_iff in Hfin.
      destruct Hfin as [[[F1 F2] F3] F4].
      assert (Hpt : forall pt, In pt (boundsPoints positions) ->
                               isFinite (fst pt) = true /\ isFinite (snd pt) = true).
      { intros pt Hin. destruct (Hw pt Hin) as (A & B & C & D).
        split; [now apply (sandwich_finite (minX b) _ (maxX b))
               | now apply (sandwich_finite (minY b) _ (maxY b))]. }
      unfold finiteBox. rewrite !andb_true_iff.
      destruct (Hpt (x p - NODE_BOX_WIDTH / 2, y p - NODE_BOX_HEIGHT / 2)) as [A1 A2].
      { apply In_boundsPoints. exists p. auto. }
      destruct (Hpt (x p + NODE_BOX_WIDTH / 2, y p + NODE_BOX_HEIGHT / 2)) as [B1 B2].
      { apply In_boundsPoints. exists p. auto. }
      destruct (Hpt (x p, y p + iconCenterYOffset)) as [C1 C2].
      { apply In_boundsPoints. exists p. auto. }
      simpl in *. now repeat split.
  - intros [Hne Hall]. rewrite forallb_forall in Hall.
    assert (Hpts : boundsPoints positions <> []).
    { destruct positions as [|[k p] rest]; [congruence | discriminate]. }
    assert (Hfin : forall pt, In pt (boundsPoints positions) ->
                              isFinite (fst pt) = true /\ isFinite (snd pt) = true).
    { intros pt Hin. apply In_boundsPoints in Hin as (p & Hp & Hpt).
      specialize (Hall p Hp). unfold finiteBox in Hall. rewrite !andb_true_iff in Hall.
      destruct Hall as [[[[[A B] C] D] E] F].
      destruct Hpt as [->|[->| ->]]; simpl; now split. }
    assert (Hb : finiteBounds b = true).
    { unfold finiteBounds. rewrite H1, H2, H3, H4. simpl.
      assert (Hx : map fst (boundsPoints positions) <> [])
        by (destruct (boundsPoints positions); [congruence | discriminate]).
      assert (Hy : map snd (boundsPoints positions) <> [])
        by (destruct (boundsPoints positions); [congruence | discriminate]).
      rewrite !andb_true_iff. repeat split;
        (apply fold_min_infinity_finite || apply fold_max_infinity_finite);
        try assumption;
        intros v Hv; apply in_map_iff in Hv as (pt & <- & Hin); now apply Hfin. }
    rewrite Hb. now exists b.
Qed.

End GraphBoundsFacts.

(** X24. The bounds [computeGraphBounds] returns are finite and contain, for
    every position, the two corners of the node box it grows them by and
    the icon centre. *)
Theorem computeGraphBounds_contains_nodes :
  forall (positions : JsMap.t NodePos) (b : ClusterBounds),
    computeGraphBounds positions = Some b ->
    finiteBounds b = true /\
    Forall (fun p =>
              withinBounds b (x p - NODE_BOX_WIDTH / 2) (y p - NODE_BOX_HEIGHT / 2) /\
              withinBounds b (x p + NODE_BOX_WIDTH / 2) (y p + NODE_BOX_HEIGHT / 2) /\
              withinBounds b (x (getNodeIconCenter p)) (y (getNodeIconCenter p)))%float
      (JsMap.values positions).
Proof.
  intros positions b H. rewrite computeGraphBounds_growPoints in H. cbv zeta in H.
  destruct (finiteBounds (growPoints emptyBounds (boundsPoints positions))) eqn:Hfin;
    [|discriminate].
  injection H as <-. split; [exact Hfin|].
  apply Forall_forall. intros p Hp.
  pose proof (growPoints_within _ Hfin) as Hw.
  repeat split.
  1-4: apply (Hw (x p - NODE_BOX_WIDTH / 2, y p - NODE_BOX_HEIGHT / 2)%float);
       apply In_boundsPoints; exists p; auto.
  1-4: apply (Hw (x p + NODE_BOX_WIDTH / 2, y p + NODE_BOX_HEIGHT / 2)%float);
       apply In_boundsPoints; exists p; auto.
  1-4: apply (Hw (x p, y p + iconCenterYOffset)%float);
       apply In_boundsPoints; exists p; auto.
Qed.

Lemma computeGraphBounds_contains_nodes_witness :
  withinBounds (mkBounds (-45) (-25) 45 25) (0 - NODE_BOX_WIDTH / 2) (0 - NODE_BOX_HEIGHT / 2).
Proof.
  destruct (computeGraphBounds_contains_nodes [("a", mkPos 0 0)]
              (mkBounds (-45) (-25) 45 25) eq_refl) as [_ H].
  apply Forall_inv in H. exact (proj1 H).
Defined.

(** X25. [computeGraphBounds] returns null exactly when the map is empty or
    some coordinate it reads of a node is not finite; [zoomToFit] applies a
    transform exactly in the other case, when the viewport is measured. *)
Theorem zoomToFit_applies_iff :
  forall (v : Viewport) (posMap : JsMap.t NodePos),
    (computeGraphBounds posMap = None <->
     posMap = [] \/ forallb finiteBox (JsMap.values posMap) = false) /\
    ((exists t, zoomToFit v posMap = Some t) <->
     posMap <> [] /\
     (measuredWidth v =? 0)%float = false /\ (measuredHeight v =? 0)%float = false /\
     forallb finiteBox (JsMap.values posMap) = true).
Proof.
  intros v posMap.
  pose proof (computeGraphBounds_Some_iff posMap) as Hsome.
  split.
  - destruct (computeGraphBounds posMap) as [b|].
    + assert (H : posMap <> [] /\ forallb finiteBox (JsMap.values posMap) = true)
        by (apply Hsome; now exists b).
      destruct H as [Hne Hall]. split; [discriminate|].
      intros [H|H]; [contradiction | congruence].
    + split; [intros _ | reflexivity].
      destruct posMap as [|kp rest]; [now left | right].
      destruct (forallb finiteBox (JsMap.values (kp :: rest))) eqn:E; [|reflexivity].
      exfalso. assert (H : exists b : ClusterBounds, None = Some b).
      { apply Hsome. split; [discriminate | reflexivity]. }
      destruct H as [b H]. discriminate H.
  - unfold zoomToFit.
    destruct posMap as [|kp rest].
    + simpl. split; [intros [t H]; discriminate H | intros [H _]; congruence].
    + change (JsMap.size (kp :: rest) =? 0)%nat with false. cbv iota.
      destruct (measuredWidth v =? 0)%float; simpl.
      { split; [intros [t H]; discriminate H | intros (_ & H & _); discriminate H]. }
      destruct (measuredHeight v =? 0)%float; simpl.
      { split; [intros [t H]; discriminate H | intros (_ & _ & H & _); discriminate H]. }
      destruct (computeGraphBounds (kp :: rest)) as [b|].
      * split; [intros _ | intros _; eexists; reflexivity].
        split; [discriminate|]. split; [reflexivity|]. split; [reflexivity|].
        apply Hsome. now exists b.
      * split; [intros [t H]; discriminate H|].
        intros (_ & _ & _ & H).
        assert (H' : exists b : ClusterBounds, None = Some b).
        { apply Hsome. split; [discriminate | exact H]. }
        destruct H' as [b H']. discriminate H'.
Qed.

Section PaddedBoxFacts.
Import JsMap.
Local Open Scope float_scope.
Variable positions : t NodePos.

(** The positions of the keys that have one. *)
Definition positionsOf (ms : list string) : list NodePos :=
  flat_map (fun k => match get positions k with Some p => [p] | None => [] end) ms.

Lemma paddedBox_fold (ms : list string) :
  forall b,
    fold_left
      (fun b k => match get positions k with Some p => padBounds b p | None => b end)
      ms b
    = fold_left padBounds (positionsOf ms) b.
Proof.
  induction ms as [|k ms IH]; intros b; [reflexivity|].
  cbn [fold_left positionsOf flat_map]. fold (positionsOf ms).
  rewrite fold_left_app, IH. now destruct (get positions k).
Qed.

Lemma padBounds_components (ps : list NodePos) :
  forall b,
    minX (fold_left padBounds ps b)
    = fold_left Math_min (map (fun p => x p - NODE_BOX_WIDTH / 3) ps) (minX b) /\
    minY (fold_left padBounds ps b)
    = fold_left Math_min (map (fun p => y p - NODE_BOX_HEIGHT / 3) ps) (minY b) /\
    maxX (fold_left padBounds ps b)
    = fold_left Math_max (map (fun p => x p + NODE_BOX_WIDTH / 3) ps) (maxX b) /\
    maxY (fold_left padBounds ps b)
    = fold_left Math_max (map (fun p => y p + NODE_BOX_HEIGHT / 3) ps) (maxY b).
Proof.
  induction ps as [|p ps IH]; intros b; [now repeat split|].
  cbn [fold_left map].
  destruct (IH (padBounds b p)) as (H1 & H2 & H3 & H4).
  rewrite H1, H2, H3, H4. now repeat split.
Qed.

Lemma paddedBox_contains (ms : list string) (k : string) (p : NodePos) :
  finiteBounds (paddedBox positions ms) = true ->
  In k ms -> get positions k = Some p ->
  leF (minX (paddedBox positions ms)) (x p - NODE_BOX_WIDTH / 3) /\
  leF (x p + NODE_BOX_WIDTH / 3) (maxX (paddedBox positions ms)) /\
  leF (minY (paddedBox positions ms)) (y p - NODE_BOX_HEIGHT / 3) /\
  leF (y p + NODE_BOX_HEIGHT / 3) (maxY (paddedBox positions ms)).
Proof.
  intros Hfin Hk Hp. unfold paddedBox in *. rewrite paddedBox_fold in *.
  assert (Hin : In p (positionsOf ms)).
  { unfold positionsOf. apply in_flat_map. exists k. split; [exact Hk|].
    rewrite Hp. now left. }
  destruct (padBounds_components (positionsOf ms) emptyBounds) as (H1 & H2 & H3 & H4).
  unfold finiteBounds in Hfin. rewrite !andb_true_iff in Hfin.
  destruct Hfin as [[[F1 F2] F3] F4].
  rewrite H1, H2, H3, H4 in *.
  repeat split.
  - apply fold_min_spec; [now apply isFinite_notNaN|].
    apply in_map_iff. now exists p.
  - apply fold_max_spec; [now apply isFinite_notNaN|].
    apply in_map_iff. now exists p.
  - apply fold_min_spec; [now apply isFinite_notNaN|].
    apply in_map_iff. now exists p.
  - apply fold_max_spec; [now apply isFinite_notNaN|].
    apply in_map_iff. now exists p.
Qed.

End PaddedBoxFacts.

(** X26. The bounds of every emitted group contain the padded box of each of
    its members: a third of the node box on each side of the member's
    position. *)
Theorem cluster_bounds_contain_members :
  forall (rt : JsRuntime) (ns : list NetworkNode) (positions : JsMap.t NodePos)
         (gridSize : float),
    Forall (fun g =>
              Forall (fun k =>
                        exists p,
                          JsMap.get positions k = Some p /\
                          leF (minX (bounds g)) (x p - NODE_BOX_WIDTH / 3) /\
                          leF (x p + NODE_BOX_WIDTH / 3) (maxX (bounds g)) /\
                          leF (minY (bounds g)) (y p - NODE_BOX_HEIGHT / 3) /\
                          leF (y p + NODE_BOX_HEIGHT / 3) (maxY (bounds g)))%float
                (members g))
      (groups (computeGridClusters ns positions gridSize)).
Proof.
  intros rt ns positions gridSize. apply Forall_forall. intros g Hg.
  apply In_groups in Hg as (gk & ms & Hms & Hne & Hfin & ->). cbn [members bounds].
  apply Forall_forall. intros k Hk.
  pose proof Hk as Hk'. rewrite <- Hms in Hk'.
  apply In_membersOf in Hk' as (n & p & _ & _ & Hp & _).
  exists p. split; [exact Hp|]. now apply (paddedBox_contains positions ms k p).
Qed.

(** ** Breadth-first levels are shortest walks *)

Section AdjacencyFacts.
Import JsMap.
Variables (ns : list NetworkNode).

Lemma adjacency_fold (es : list NetworkEdge) :
  forall (adj : t (list string)) (done : list NetworkEdge),
    (forall k, match get adj k with
               | Some l => In k (map key ns) /\
                           forall b, In b l <-> In b (map key ns) /\ joined done k b
               | None => ~ In k (map key ns)
               end) ->
    forall k,
      match get (fold_left
                   (fun adj e =>
                      if negb (JsSet.has (map key ns) (from e))
                         || negb (JsSet.has (map key ns) (to e))
                      then adj
                      else pushTo (pushTo adj (from e) (to e)) (to e) (from e))
                   es adj) k with
      | Some l => In k (map key ns) /\
                  forall b, In b l <-> In b (map key ns) /\ joined (done ++ es) k b
      | None => ~ In k (map key ns)
      end.
Proof.
  induction es as [|e es IH]; intros adj done Hadj k.
  - rewrite app_nil_r. apply Hadj.
  - simpl. replace (done ++ e :: es) with ((done ++ [e]) ++ es)
      by (now rewrite <- app_assoc).
    apply IH. clear k. intros k. specialize (Hadj k).
    assert (Hjoin : forall b, joined (done ++ [e]) k b <->
                              joined done k b \/
                              (from e = k /\ to e = b) \/ (from e = b /\ to e = k)).
    { intros b. unfold joined. split.
      - intros (e' & Hin & H). apply in_app_iff in Hin as [Hin|[<-|[]]].
        + left. now exists e'.
        + now right.
      - intros [(e' & Hin & H)|H].
        + exists e'. split; [apply in_or_app; now left | exact H].
        + exists e. split; [apply in_or_app; right; now left | exact H]. }
    destruct (JsSet.has (map key ns) (from e)) eqn:Ef; simpl.
    + destruct (JsSet.has (map key ns) (to e)) eqn:Et; simpl.
      * apply JsSetFacts.has_In in Ef, Et.
        rewrite !pushTo_get.
        destruct (get adj k) as [l|]; [|exact Hadj].
        destruct Hadj as [Hk Hl]. split; [exact Hk|]. intros b.
        rewrite Hjoin.
        destruct (String.eqb_spec (to e) k) as [E1|N1];
          destruct (String.eqb_spec (from e) k) as [E2|N2];
          rewrite ?in_app_iff, Hl; simpl; subst;
          intuition (subst; auto; try congruence).
      * apply JsSetFacts.has_false in Et.
        destruct (get adj k) as [l|]; [|exact Hadj].
        destruct Hadj as [Hk Hl]. split; [exact Hk|]. intros b.
        rewrite Hjoin, Hl. intuition (subst; auto; try congruence).
    + apply JsSetFacts.has_false in Ef.
      destruct (get adj k) as [l|]; [|exact Hadj].
      destruct Hadj as [Hk Hl]. split; [exact Hk|]. intros b.
      rewrite Hjoin, Hl. intuition (subst; auto; try congruence).
Qed.

Lemma neighbours_spec (es : list NetworkEdge) (a b : string) :
  In b (neighbours (buildAdjacency ns es) a) <->
  In a (map key ns) /\ In b (map key ns) /\ joined es a b.
Proof.
  unfold neighbours, buildAdjacency.
  pose proof (adjacency_fold es
                (fold_left (fun adj n => set adj (key n) []) ns []) [] ) as H.
  cbv zeta.
  match type of H with
  | ?P -> _ => assert (Hinit : P)
  end.
  { intros k. pose proof (emptyConnections_get ns k) as E0.
    unfold JsSet.t in E0. rewrite E0. clear E0.
    destruct (JsSet.has (map key ns) k) eqn:E.
    - apply JsSetFacts.has_In in E. split; [exact E|]. intros b'. split; [intros []|].
      intros (_ & e & [] & _).
    - now apply JsSetFacts.has_false in E. }
  specialize (H Hinit a). simpl in H.
  destruct (get _ a) as [l|].
  - destruct H as [Ha Hl]. rewrite Hl. tauto.
  - split; [intros [] | intros (Ha & _); contradiction].
Qed.

End AdjacencyFacts.

Section BfsOrder.
Import JsMap.
Variables (adj : t (list string)) (maxD : nat).

Definition depthOf (res : t InternalNodeInfo) (k : string) : nat :=
  match get res k with Some i => depth i | None => 0 end.

(** What the loop over the neighbours of [cur] does: the neighbours without
    an entry get one, at depth [d + 1] with parent [cur], and join the
    queue. *)
Lemma fold_visit_spec (cur : string) (d : nat) (nbs : list string) :
  forall (q : list string) (res : t InternalNodeInfo),
  exists new,
    fst (fold_left (visit cur d) nbs (q, res)) = q ++ new /\
    (forall k i, get res k = Some i ->
                 get (snd (fold_left (visit cur d) nbs (q, res))) k = Some i) /\
    (forall k, In k new ->
               get res k = None /\
               get (snd (fold_left (visit cur d) nbs (q, res))) k
               = Some (mkInfo (d + 1) (Some cur)) /\
               In k nbs) /\
    (forall k i, get (snd (fold_left (visit cur d) nbs (q, res))) k = Some i ->
                 get res k = Some i \/ In k new) /\
    (forall nb, In nb nbs ->
                has (snd (fold_left (visit cur d) nbs (q, res))) nb = true).
Proof.
  induction nbs as [|nb nbs IH]; intros q res.
  - exists []. simpl. rewrite app_nil_r. split; [reflexivity|]. split; [auto|].
    split; [intros k []|]. split; [auto | intros nb []].
  - cbn [fold_left].
    assert (Hv : visit cur d (q, res) nb
                 = if has res nb then (q, res)
                   else (q ++ [nb], set res nb (mkInfo (d + 1) (Some cur))))
      by reflexivity.
    rewrite Hv. clear Hv.
    destruct (has res nb) eqn:Eh.
    + destruct (IH q res) as (new & Hq & Hkeep & Hnew & Hold & Hall).
      exists new. split; [exact Hq|]. split; [exact Hkeep|]. split; [|split].
      * intros k Hk. destruct (Hnew k Hk) as (A & B & C). repeat split; auto. now right.
      * exact Hold.
      * intros nb' [<-|Hin]; [|now apply Hall].
        unfold has in *. destruct (get res nb) as [i|] eqn:Eg; [|discriminate].
        now rewrite (Hkeep nb i Eg).
    + destruct (IH (q ++ [nb]) (set res nb (mkInfo (d + 1) (Some cur))))
        as (new & Hq & Hkeep & Hnew & Hold & Hall).
      assert (Hnone : get res nb = None).
      { unfold has in Eh. now destruct (get res nb). }
      exists (nb :: new). split; [|split; [|split; [|split]]].
      * rewrite Hq, <- app_assoc. reflexivity.
      * intros k i Hk. apply Hkeep. rewrite get_set_other; [exact Hk|].
        intros ->. congruence.
      * intros k [<-|Hk].
        -- split; [exact Hnone|]. split; [|now left].
           apply Hkeep. apply get_set_same.
        -- destruct (Hnew k Hk) as (A & B & C).
           rewrite get_set in A. destruct (String.eqb_spec nb k) as [->|Hne]; [discriminate|].
           repeat split; auto. now right.
      * intros k i Hk. apply Hold in Hk as [Hk|Hk]; [|right; now right].
        rewrite get_set in Hk. destruct (String.eqb_spec nb k) as [->|Hne].
        -- right. now left.
        -- now left.
      * intros nb' [<-|Hin]; [|now apply Hall].
        unfold has. now rewrite (Hkeep nb _ (get_set_same _ _ _ _)).
Qed.

(** The invariant of the loop: the queued keys have entries, their depths
    do not decrease along the queue, no entry is more than one level below
    a queued key, and an entry above [maxD] that is no longer queued has
    all its neighbours among the entries, at most one level below it. *)
Definition bfsInvariant (q : list string) (res : t InternalNodeInfo) : Prop :=
  (forall k, In k q -> has res k = true) /\
  StronglySorted le (map (depthOf res) q) /\
  (forall u k info, In u q -> get res k = Some info -> depth info <= depthOf res u + 1) /\
  (forall u info,
      get res u = Some info -> depth info < maxD ->
      In u q \/
      forall v, In v (neighbours adj u) ->
                exists vi, get res v = Some vi /\ depth vi <= depth info + 1).

Lemma StronglySorted_app (l1 l2 : list nat) :
  StronglySorted le l1 -> StronglySorted le l2 ->
  (forall a b, In a l1 -> In b l2 -> a <= b) ->
  StronglySorted le (l1 ++ l2).
Proof.
  induction 1 as [|a l1 Hs IH Hall]; intros H2 Hle; simpl; [exact H2|].
  constructor.
  - apply IH; [exact H2|]. intros x y Hx Hy. apply Hle; [now right | exact Hy].
  - apply Forall_app. split; [exact Hall|].
    apply Forall_forall. intros y Hy. apply Hle; [now left | exact Hy].
Qed.

Lemma StronglySorted_const (c : nat) (l : list nat) :
  (forall a, In a l -> a = c) -> StronglySorted le l.
Proof.
  induction l as [|a l IH]; intros H; constructor.
  - apply IH. intros b Hb. apply H. now right.
  - apply Forall_forall. intros b Hb.
    rewrite (H a (or_introl eq_refl)), (H b (or_intror Hb)). apply Nat.le_refl.
Qed.

Lemma bfsInvariant_skip (u : string) (q : list string) (res : t InternalNodeInfo)
  (info : InternalNodeInfo) :
  bfsInvariant (u :: q) res -> get res u = Some info -> maxD <= depth info ->
  bfsInvariant q res.
Proof.
  intros (I1 & I2 & I3 & I4) Hu Hd. split; [|split; [|split]].
  - intros k Hk. apply I1. now right.
  - simpl in I2. now inversion I2.
  - intros u' k i Hu' Hk. apply (I3 u' k i); [now right | exact Hk].
  - intros w wi Hw Hwd. destruct (I4 w wi Hw Hwd) as [[<-|Hin]|Hclosed].
    + rewrite Hu in Hw. injection Hw as <-. lia.
    + now left.
    + now right.
Qed.

Lemma bfsInvariant_expand (u : string) (q : list string) (res : t InternalNodeInfo)
  (info : InternalNodeInfo) :
  bfsInvariant (u :: q) res -> get res u = Some info ->
  bfsInvariant
    (fst (fold_left (visit u (depth info)) (neighbours adj u) (q, res)))
    (snd (fold_left (visit u (depth info)) (neighbours adj u) (q, res))).
Proof.
  intros (I1 & I2 & I3 & I4) Hu.
  destruct (fold_visit_spec u (depth info) (neighbours adj u) q res)
    as (new & Hq & Hkeep & Hnew & Hold & Hall).
  set (res' := snd (fold_left (visit u (depth info)) (neighbours adj u) (q, res))) in *.
  rewrite Hq.
  assert (Hdu : depthOf res u = depth info) by (unfold depthOf; now rewrite Hu).
  assert (Hsame : forall k, has res k = true -> depthOf res' k = depthOf res k).
  { intros k Hk. unfold has in Hk. unfold depthOf.
    destruct (get res k) as [i|] eqn:E; [|discriminate]. now rewrite (Hkeep k i E). }
  assert (Hnewd : forall k, In k new -> depthOf res' k = depth info + 1).
  { intros k Hk. destruct (Hnew k Hk) as (_ & B & _). unfold depthOf. now rewrite B. }
  assert (Hqd : forall k, In k q -> depth info <= depthOf res k <= depth info + 1).
  { intros k Hk. split.
    - simpl in I2. inversion I2 as [|? ? _ Hall']; subst.
      rewrite Forall_forall in Hall'. rewrite <- Hdu. apply Hall'. now apply in_map.
    - assert (Hh : has res k = true) by (apply I1; now right).
      unfold has in Hh. unfold depthOf.
      destruct (get res k) as [i|] eqn:E; [|discriminate].
      rewrite <- Hdu. apply (I3 u k i); [now left | exact E]. }
  assert (Hbound : forall k i, get res' k = Some i -> depth i <= depth info + 1).
  { intros k i Hk. destruct (Hold k i Hk) as [Hk0|Hk0].
    - rewrite <- Hdu. apply (I3 u k i); [now left | exact Hk0].
    - destruct (Hnew k Hk0) as (_ & B & _). rewrite B in Hk. injection Hk as <-.
      simpl. lia. }
  split; [|split; [|split]].
  - intros k Hk. apply in_app_iff in Hk as [Hk|Hk].
    + assert (Hh : has res k = true) by (apply I1; now right).
      unfold has in *. destruct (get res k) as [i|] eqn:E; [|discriminate].
      now rewrite (Hkeep k i E).
    + destruct (Hnew k Hk) as (_ & B & _). unfold has. now rewrite B.
  - rewrite map_app. apply StronglySorted_app.
    + rewrite (map_ext_in (depthOf res') (depthOf res)).
      * simpl in I2. now inversion I2.
      * intros k Hk. apply Hsame. apply I1. now right.
    + apply (StronglySorted_const (depth info + 1)).
      intros a Ha. apply in_map_iff in Ha as (k & <- & Hk). now apply Hnewd.
    + intros a b Ha Hb.
      apply in_map_iff in Ha as (k & <- & Hk). apply in_map_iff in Hb as (k' & <- & Hk').
      rewrite (Hnewd k' Hk'), (Hsame k) by (apply I1; now right).
      apply (Hqd k Hk).
  - intros u' k i Hu' Hk.
    apply Nat.le_trans with (depth info + 1); [now apply (Hbound k)|].
    apply in_app_iff in Hu' as [Hu'|Hu'].
    + rewrite Hsame by (apply I1; now right). pose proof (Hqd u' Hu'). lia.
    + rewrite (Hnewd u' Hu'). lia.
  - intros w wi Hw Hwd. destruct (Hold w wi Hw) as [Hw0|Hwnew].
    + destruct (I4 w wi Hw0 Hwd) as [[<-|Hin]|Hclosed].
      * right. intros v Hv. specialize (Hall v Hv). unfold has in Hall.
        destruct (get res' v) as [vi|] eqn:Ev; [|discriminate].
        exists vi. split; [reflexivity|].
        rewrite Hu in Hw0. injection Hw0 as <-. now apply (Hbound v).
      * left. apply in_or_app. now left.
      * right. intros v Hv. destruct (Hclosed v Hv) as (vi & Hvi & Hd).
        exists vi. split; [now apply Hkeep | exact Hd].
    + left. apply in_or_app. now right.
Qed.

End BfsOrder.

Section BfsRun.
Import JsMap.
Variables (adj : t (list string)) (maxD : nat).

Lemma bfs_bfsInvariant (fuel : nat) :
  forall q res,
    bfsInvariant adj maxD q res ->
    bfsInvariant adj maxD (fst (bfs fuel adj maxD q res)) (snd (bfs fuel adj maxD q res)).
Proof.
  induction fuel as [|fuel IH]; intros q res Hinv; [exact Hinv|].
  cbn [bfs]. destruct q as [|u q]; [exact Hinv|].
  destruct (get res u) as [info|] eqn:Eu; [|exact Hinv].
  destruct (Nat.leb_spec maxD (depth info)) as [Hle|Hlt].
  - apply IH. now apply (bfsInvariant_skip adj maxD u q res info).
  - cbv zeta. apply IH. now apply bfsInvariant_expand.
Qed.

(** Every entry with a parent is a neighbour of its parent. *)
Definition parentAdjacent (res : t InternalNodeInfo) : Prop :=
  forall k info p,
    get res k = Some info -> parent info = Some p -> In k (neighbours adj p).

Lemma bfs_parentAdjacent (fuel : nat) :
  forall q res, parentAdjacent res -> parentAdjacent (snd (bfs fuel adj maxD q res)).
Proof.
  induction fuel as [|fuel IH]; intros q res Hinv; [exact Hinv|].
  cbn [bfs]. destruct q as [|u q]; [exact Hinv|].
  destruct (get res u) as [info|] eqn:Eu; [|exact Hinv].
  destruct (maxD <=? depth info)%nat; [now apply IH|].
  cbv zeta. apply IH.
  destruct (fold_visit_spec u (depth info) (neighbours adj u) q res)
    as (new & _ & _ & Hnew & Hold & _).
  intros k i p Hk Hp. destruct (Hold k i Hk) as [Hk0|Hk0].
  - now apply (Hinv k i p).
  - destruct (Hnew k Hk0) as (_ & B & Hin). rewrite B in Hk. injection Hk as <-.
    simpl in Hp. injection Hp as <-. exact Hin.
Qed.

End BfsRun.

Section ShortestPaths.
Import JsMap.
Variables (ns : list NetworkNode) (es : list NetworkEdge) (c : string) (maxD : nat).
Hypothesis Hc : In c (map key ns).

Let levels := computeTreeLevels ns es c maxD.

Lemma levels_run :
  levels = snd (bfs (S (List.length ns)) (buildAdjacency ns es) maxD [c]
                  (set [] c (mkInfo 0 None))).
Proof.
  unfold levels, computeTreeLevels, treeLevelsRun.
  apply JsSetFacts.has_In in Hc. now rewrite Hc.
Qed.

Lemma levels_closed (u : string) (info : InternalNodeInfo) :
  get levels u = Some info -> depth info < maxD ->
  forall v, In v (neighbours (buildAdjacency ns es) u) ->
            exists vi, get levels v = Some vi /\ depth vi <= depth info + 1.
Proof.
  intros Hu Hd.
  assert (Hinit : bfsInvariant (buildAdjacency ns es) maxD [c] (set [] c (mkInfo 0 None))).
  { split; [|split; [|split]].
    - intros k [<-|[]]. unfold has. now rewrite get_set_same.
    - simpl. repeat constructor.
    - intros u' k i _ Hk. rewrite get_set in Hk.
      destruct (String.eqb c k); [|discriminate]. injection Hk as <-. simpl. lia.
    - intros u' i Hu' _. rewrite get_set in Hu'.
      destruct (String.eqb_spec c u') as [<-|]; [|discriminate]. left. now left. }
  pose proof (bfs_bfsInvariant (buildAdjacency ns es) maxD (S (List.length ns)) _ _ Hinit)
    as (_ & _ & _ & Hclosed).
  pose proof (computeTreeLevels_completes ns es c maxD) as Hdone.
  unfold treeLevelsRun in Hdone. cbv zeta in Hdone.
  pose proof Hc as Hc'. apply JsSetFacts.has_In in Hc'. rewrite Hc' in Hdone.
  simpl negb in Hdone. cbv iota in Hdone.
  rewrite Hdone in Hclosed. rewrite levels_run in Hu |- *.
  destruct (Hclosed u info Hu Hd) as [[]|H]. exact H.
Qed.

Lemma levels_parentAdjacent : parentAdjacent (buildAdjacency ns es) levels.
Proof.
  rewrite levels_run. apply bfs_parentAdjacent.
  intros k i p Hk Hp. rewrite get_set in Hk.
  destruct (String.eqb c k); [|discriminate]. injection Hk as <-. discriminate Hp.
Qed.

Lemma nodeWalk_snoc (a b k : string) (n : nat) :
  nodeWalk ns es a b n ->
  In b (map key ns) -> In k (map key ns) -> joined es b k ->
  nodeWalk ns es a k (S n).
Proof.
  induction 1 as [a|a b' c' n Ha Hb' Hj Hw IH]; intros Hb Hk Hjk.
  - apply (@nodeWalk_step ns es a k k 0); try assumption. constructor.
  - apply (@nodeWalk_step ns es a b' k (S n)); try assumption. now apply IH.
Qed.

Lemma levels_walk (n : nat) :
  forall k info, get levels k = Some info -> depth info = n -> nodeWalk ns es c k n.
Proof.
  induction n as [|n IH]; intros k info Hk Hd.
  - rewrite (depth_zero_focus ns es c maxD k info Hc Hk Hd). constructor.
  - destruct (computeTreeLevels_levelInvariant ns es c maxD Hc) as [Hfocus Hparent].
    assert (Hne : k <> c).
    { intros ->. fold levels in Hfocus. rewrite Hfocus in Hk. injection Hk as <-.
      discriminate Hd. }
    destruct (Hparent k info Hk Hne) as (p & pinfo & Hp & Hpi & Hdp).
    pose proof (levels_parentAdjacent k info p Hk Hp) as Hadj.
    apply neighbours_spec in Hadj as (Hpk & Hkk & Hj).
    apply (nodeWalk_snoc c p k n); try assumption.
    apply (IH p pinfo Hpi). lia.
Qed.

Lemma walk_levels (a k : string) (n : nat) :
  nodeWalk ns es a k n ->
  forall m ai,
    get levels a = Some ai -> depth ai <= m -> m + n <= maxD ->
    exists info, get levels k = Some info /\ depth info <= m + n.
Proof.
  induction 1 as [a|a b k n Ha Hb Hj Hw IH]; intros m ai Hai Hm Hmax.
  - exists ai. split; [exact Hai | lia].
  - destruct (levels_closed a ai Hai) with (v := b) as (bi & Hbi & Hbd); [lia| |].
    + apply neighbours_spec. now repeat split.
    + destruct (IH (m + 1) bi Hbi) as (info & Hinfo & Hd); [lia | lia |].
      exists info. split; [exact Hinfo | lia].
Qed.

End ShortestPaths.

(** X27. The depth [computeTreeLevels] gives a key is the length of a
    shortest walk from the focus: for a focus that is a node key, a key with
    an entry of depth d is reached from the focus by a walk of d steps, and
    a key reached by a walk of n <= maxDepth steps has an entry of depth at
    most n. *)
Theorem computeTreeLevels_shortest_walk :
  forall (ns : list NetworkNode) (es : list NetworkEdge) (c : string) (maxD : nat),
    In c (map key ns) ->
    (forall k info,
        JsMap.get (computeTreeLevels ns es c maxD) k = Some info ->
        nodeWalk ns es c k (depth info)) /\
    (forall k n,
        n <= maxD -> nodeWalk ns es c k n ->
        exists info,
          JsMap.get (computeTreeLevels ns es c maxD) k = Some info /\ depth info <= n).
Proof.
  intros ns es c maxD Hc. split.
  - intros k info Hk. now apply (levels_walk ns es c maxD Hc (depth info) k info).
  - intros k n Hn Hw.
    destruct (computeTreeLevels_levelInvariant ns es c maxD Hc) as [Hfocus _].
    apply (walk_levels ns es c maxD Hc c k n Hw 0 (mkInfo 0 None) Hfocus); simpl; lia.
Qed.

Lemma computeTreeLevels_shortest_walk_witness :
  nodeWalk Examples.scenarioNodes Examples.scenarioEdges "CENTER" "C" 2.
Proof.
  exact (proj1 (computeTreeLevels_shortest_walk Examples.scenarioNodes
                  Examples.scenarioEdges "CENTER" 2 (or_introl eq_refl))
           "C" (mkInfo 2 (Some "A")) eq_refl).
Defined.

(** ** The order of the groups *)

Section SortedFacts.
Variables (A : Type) (cmp : A -> A -> comparison).
Hypothesis Hcmp : consistentComparator cmp.

Lemma insertBy_sorted (a : A) (l : list A) :
  StronglySorted (notAfter cmp) l -> StronglySorted (notAfter cmp) (insertBy cmp a l).
Proof.
  destruct Hcmp as [Htotal Htrans].
  induction 1 as [|b l Hs IH Hall]; simpl; [repeat constructor|].
  destruct (cmp a b) eqn:E.
  - constructor; [now constructor|]. constructor; [unfold notAfter; congruence|].
    eapply Forall_impl; [|exact Hall]. intros c Hc. unfold notAfter in *.
    apply (Htrans a b c); [congruence | exact Hc].
  - constructor; [now constructor|]. constructor; [unfold notAfter; congruence|].
    eapply Forall_impl; [|exact Hall]. intros c Hc. unfold notAfter in *.
    apply (Htrans a b c); [congruence | exact Hc].
  - constructor; [exact IH|]. apply Forall_forall. intros c Hc.
    apply In_insertBy in Hc as [->|Hc].
    + now apply Htotal.
    + rewrite Forall_forall in Hall. now apply Hall.
Qed.

Lemma sortBy_sorted (l : list A) : StronglySorted (notAfter cmp) (sortBy cmp l).
Proof.
  induction l as [|a l IH]; simpl; [constructor|]. now apply insertBy_sorted.
Qed.

End SortedFacts.

Section CompareCodesFacts.

Lemma compareCodes_total (a : string) :
  forall b, Reference.compareCodes a b = Gt -> Reference.compareCodes b a <> Gt.
Proof.
  induction a as [|x a IH]; intros [|y b]; simpl; try discriminate.
  rewrite (Nat.compare_antisym (nat_of_ascii x) (nat_of_ascii y)).
  destruct (Nat.compare (nat_of_ascii x) (nat_of_ascii y)); simpl;
    try discriminate. apply IH.
Qed.

Lemma compareCodes_trans (a : string) :
  forall b c,
    Reference.compareCodes a b <> Gt -> Reference.compareCodes b c <> Gt ->
    Reference.compareCodes a c <> Gt.
Proof.
  induction a as [|x a IH]; intros b c Hab Hbc.
  - destruct c; discriminate.
  - destruct b as [|y b]; [now simpl in Hab|].
    destruct c as [|z c]; [now simpl in Hbc|].
    simpl in *.
    destruct (Nat.compare_spec (nat_of_ascii x) (nat_of_ascii y)) as [Exy|Lxy|Gxy];
      [| |congruence];
      (destruct (Nat.compare_spec (nat_of_ascii y) (nat_of_ascii z)) as [Eyz|Lyz|Gyz];
       [| |congruence]);
      destruct (Nat.compare_spec (nat_of_ascii x) (nat_of_ascii z)) as [Exz|Lxz|Gxz];
      try discriminate; try lia.
    now apply (IH b c).
Qed.

End CompareCodesFacts.

(** X28. For a [localeCompare] that is a total preorder, the groups
    [computeGridClusters] returns are sorted by key. *)
Theorem computeGridClusters_sorted :
  forall (rt : JsRuntime) (ns : list NetworkNode) (positions : JsMap.t NodePos)
         (gridSize : float),
    consistentComparator localeCompare ->
    StronglySorted (fun g1 g2 => localeCompare (gkey g1) (gkey g2) <> Gt)
      (groups (computeGridClusters ns positions gridSize)).
Proof.
  intros rt ns positions gridSize [Htotal Htrans].
  unfold computeGridClusters. cbn [groups].
  apply (sortBy_sorted ClusterGroup (fun a b => localeCompare (gkey a) (gkey b))).
  split.
  - intros a b. apply Htotal.
  - intros a b c. apply Htrans.
Qed.

Lemma computeGridClusters_sorted_witness :
  StronglySorted (fun g1 g2 => Reference.compareCodes (gkey g1) (gkey g2) <> Gt)
    (groups (@computeGridClusters Reference.runtime Examples.cellNodes
               Examples.cellPositions 160)).
Proof.
  apply (computeGridClusters_sorted Reference.runtime).
  split; [intros a b; apply compareCodes_total | intros a b c; apply compareCodes_trans].
Defined.
